(** * rrlist: the storage telemetry subsystem

    A shallow embedding of the storage cache, the background refresh job,
    the subscriber set and the HTTP handlers of

      - src/app/api/rclone/storage/route.ts         (snapshot pull, manual refresh)
      - src/app/api/rclone/storage/stream/route.ts  (server-sent event stream)
      - src/lib/background-storage                  (start-up service)
      - src/app/api/rclone/check/route.ts           (single-remote health check)
      - src/middleware.ts                           (page guard)

    The Node process is single threaded: code between two [await]s runs
    without interruption.  Every handler and every continuation of
    [runStorageCheckJob] is therefore one atomic step of a transition
    system whose events are supplied by the environment (HTTP requests,
    timers firing, daemon replies).  The daemon's replies and the readings
    of [Date.now()] are inputs of the events that consume them; within one
    step the clock is read once.

    The three modules define the same [checkRemoteStorage],
    [getRemotesList], [notifySubscribers] and [runStorageCheckJob] over
    the same globals; they are embedded once, with the module as a
    parameter where the copies differ (the delay of the timer).

    The cache is a plain object used as a dictionary, read with
    [cache[remote]] and written with [cache[remote] = result].  Such an
    object is embedded with its own properties and its prototype: a read
    of a name that is no own property goes up the prototype chain, and an
    assignment to the name "__proto__" replaces the prototype instead of
    adding a property.  What is sent to a client (and what [Object.values]
    sees) are the own properties.  Sizes are integers.  Log output is not
    modelled. *)

From Stdlib Require Import ZArith String Ascii List Bool Lia.
From stdpp Require Import base option list strings gmap pretty.

Local Open Scope string_scope.
Local Open Scope Z_scope.
Local Open Scope list_scope.

(** ** Data model (storage/route.ts, lines 6-24) *)

(** [interface StorageData]: the three sizes and [error] are optional
    properties, [lastUpdated] is mandatory. *)
Record StorageData := mkStorageData {
  total : option Z;
  used : option Z;
  free : option Z;
  lastUpdated : Z;
  error : option string }.

#[global] Instance StorageData_eq_dec : EqDecision StorageData.
Proof. solve_decision. Defined.

(** [interface StorageCache { [remote: string]: StorageData }]: the own
    properties of such an object.  This is what [JSON.stringify],
    [Object.keys] and [Object.values] see of it. *)
Abbreviation StorageCache := (gmap string StorageData).

(** ** Plain objects used as dictionaries *)

(** A value read from a dictionary whose entries are records of type [A]:
    [undefined], a boolean, a number or a string (a property of a record
    that has become the prototype), a record, or a value that comes from
    [Object.prototype] (one of its functions, or that object itself). *)
Inductive JsValue (A : Type) :=
| JsUndefined
| JsBoolean (b : bool)
| JsNumber (n : Z)
| JsString (s : string)
| JsObject (a : A)
| JsBuiltin.
Arguments JsUndefined {A}.
Arguments JsBoolean {A} b.
Arguments JsNumber {A} n.
Arguments JsString {A} s.
Arguments JsObject {A} a.
Arguments JsBuiltin {A}.

(** [!!v]: [undefined], [false], [0] and the empty string are falsy;
    objects and functions are truthy. *)
Definition truthy {A} (v : JsValue A) : bool :=
  match v with
  | JsUndefined => false
  | JsBoolean b => b
  | JsNumber n => negb (n =? 0)
  | JsString s => negb (String.eqb s "")
  | JsObject _ | JsBuiltin => true
  end.

Definition js_number {A} (n : option Z) : JsValue A :=
  match n with Some n => JsNumber n | None => JsUndefined end.

Definition js_string {A} (s : option string) : JsValue A :=
  match s with Some s => JsString s | None => JsUndefined end.

(** The own properties of a record object, by name. *)
Class OwnProperties (A : Type) := own_property : A -> string -> option (JsValue A).

(** The function-valued properties of [Object.prototype]; its accessor
    property "__proto__" is treated apart. *)
Definition Object_prototype_functions : list string :=
  ["constructor"; "hasOwnProperty"; "isPrototypeOf"; "propertyIsEnumerable";
   "toLocaleString"; "toString"; "valueOf"; "__defineGetter__";
   "__defineSetter__"; "__lookupGetter__"; "__lookupSetter__"].

(** An object created by [{}] and changed by assignments [o[key] = a]
    only: its own properties, and its prototype when an assignment to
    "__proto__" has put a record in the place of [Object.prototype] (the
    prototype of that record is [Object.prototype]). *)
Record PlainObject (A : Type) := mkPlainObject {
  own : gmap string A;
  prototype : option A }.
Arguments mkPlainObject {A} own prototype.
Arguments own {A} p.
Arguments prototype {A} p.

(** [{}]. *)
Definition empty_object {A} : PlainObject A := mkPlainObject ∅ None.

(** What [o[key]] finds when [key] is no own property of [o]: a property
    of the record that is the prototype, then the getter of "__proto__"
    (which yields the prototype) and the functions of [Object.prototype]. *)
Definition js_inherited {A} `{OwnProperties A} (o : PlainObject A) (key : string)
    : JsValue A :=
  match prototype o ≫= (fun p => own_property p key) with
  | Some v => v
  | None =>
      if String.eqb key "__proto__" then
        match prototype o with Some p => JsObject p | None => JsBuiltin end
      else if bool_decide (key ∈ Object_prototype_functions) then JsBuiltin
      else JsUndefined
  end.

(** [o[key]]. *)
Definition js_get {A} `{OwnProperties A} (o : PlainObject A) (key : string)
    : JsValue A :=
  match own o !! key with
  | Some a => JsObject a
  | None => js_inherited o key
  end.

(** [o[key] = a], [a] an object: an own property is overwritten; otherwise
    the setter of "__proto__" makes [a] the prototype, and any other name
    becomes an own property (the properties found up the chain are
    writable data properties). *)
Definition js_set {A} (o : PlainObject A) (key : string) (a : A) : PlainObject A :=
  match own o !! key with
  | Some _ => mkPlainObject (<[key := a]> (own o)) (prototype o)
  | None =>
      if String.eqb key "__proto__" then mkPlainObject (own o) (Some a)
      else mkPlainObject (<[key := a]> (own o)) (prototype o)
  end.

(** The properties of the records [checkRemoteStorage] builds.  A property
    the record lacks reads like one that holds [undefined]:
    [Object.prototype] has no property of these names. *)
#[global] Instance StorageData_properties : OwnProperties StorageData :=
  fun d key =>
    if String.eqb key "total" then Some (js_number (total d))
    else if String.eqb key "used" then Some (js_number (used d))
    else if String.eqb key "free" then Some (js_number (free d))
    else if String.eqb key "lastUpdated" then Some (JsNumber (lastUpdated d))
    else if String.eqb key "error" then Some (js_string (error d))
    else None.

(** ** The daemon as seen through [fetch] *)

(** A value caught by [catch (error)]: an [Error] object with its [name]
    and [message], or some other value. *)
Inductive Thrown :=
| ThrownError (name message : string)
| ThrownOther.

(** [await response.json()]: rejects, or yields an object. *)
Inductive Json (A : Type) :=
| JsonRejects (e : Thrown)
| JsonObject (a : A).
Arguments JsonRejects {A} e.
Arguments JsonObject {A} a.

(** [await fetch(...)]: rejects (connection refused, abort on time-out), or
    resolves to a response with a status line and a body. *)
Inductive FetchOutcome (A : Type) :=
| FetchRejected (e : Thrown)
| FetchResponse (status : nat) (statusText : string) (body : Json A).
Arguments FetchRejected {A} e.
Arguments FetchResponse {A} status statusText body.

(** [response.ok]: the status is in the range 200-299. *)
Definition response_ok (status : nat) : bool :=
  (200 <=? status)%nat && (status <=? 299)%nat.

(** The properties read from a body of [operations/about]; each may be
    missing from the object. *)
Record AboutBody := mkAboutBody {
  b_total : option Z;
  b_used : option Z;
  b_free : option Z;
  b_error : option string }.

(** The object [{}] that replaces a body that does not parse. *)
Definition empty_body : AboutBody := mkAboutBody None None None None.

(** The body of [config/listremotes] is read through [data.remotes]. *)
Abbreviation RemotesBody := (option (list string)).

(** [a || b] where [a] is a string or [undefined]: the empty string is falsy. *)
Definition js_or (a : option string) (b : string) : string :=
  match a with
  | Some s => if String.eqb s "" then b else s
  | None => b
  end.

(** [hay.includes(needle)]. *)
Fixpoint includes (needle hay : string) : bool :=
  String.prefix needle hay ||
  match hay with
  | EmptyString => false
  | String _ rest => includes needle rest
  end.

(** [a !== b] on optional numbers or strings. *)
Definition strict_ne {A} `{EqDecision A} (a b : option A) : bool :=
  negb (bool_decide (a = b)).

(** ** Capacity probe (storage/route.ts, lines 35-73) *)

(** The [try] block of [checkRemoteStorage]: it either reaches [return]
    with the parsed body or throws. *)
Definition about_try (o : FetchOutcome AboutBody) : Thrown + AboutBody :=
  match o with
  | FetchRejected e => inl e
  | FetchResponse status statusText body =>
      if response_ok status then
        match body with
        | JsonRejects e => inl e
        | JsonObject data => inr data
        end
      else
        let errorData :=
          match body with JsonRejects _ => empty_body | JsonObject d => d end in
        inl (ThrownError "Error"
               ("API error: " +:+ pretty status +:+ " - "
                +:+ js_or (b_error errorData) statusText))
  end.

(** [error instanceof Error ? error.message : 'Unknown error']. *)
Definition error_message (e : Thrown) : string :=
  match e with
  | ThrownError _ message => message
  | ThrownOther => "Unknown error"
  end.

(** [checkRemoteStorage(remote)]: [o] is what the daemon answers to the
    request for [remote], [now] is the reading of [Date.now()] when the
    function builds the record it returns. *)
Definition checkRemoteStorage (remote : string)
    (o : FetchOutcome AboutBody) (now : Z) : StorageData :=
  match about_try o with
  | inr data =>
      {| total := b_total data; used := b_used data; free := b_free data;
         lastUpdated := now; error := None |}
  | inl e =>
      {| total := None; used := None; free := None;
         lastUpdated := now; error := Some (error_message e) |}
  end.

(** [getRemotesList()]: every failure is turned into the empty list. *)
Definition getRemotesList (o : FetchOutcome RemotesBody) : list string :=
  match o with
  | FetchRejected _ => []
  | FetchResponse status _ body =>
      if response_ok status then
        match body with
        | JsonRejects _ => []
        | JsonObject remotes => default [] remotes
        end
      else []
  end.

(** ** Merge of one probe result (storage/route.ts, lines 139-148) *)

(** [oldData.total], [oldData.used] and [oldData.error] for a truthy
    [oldData]: a number, a string and the values that come from
    [Object.prototype] have no such property. *)
Definition js_total (v : JsValue StorageData) : option Z :=
  match v with JsObject d => total d | _ => None end.

Definition js_used (v : JsValue StorageData) : option Z :=
  match v with JsObject d => used d | _ => None end.

Definition js_error (v : JsValue StorageData) : option string :=
  match v with JsObject d => error d | _ => None end.

(** [!oldData || oldData.total !== result.total || oldData.used !==
    result.used || oldData.error !== result.error]. *)
Definition hasChanged (oldData : JsValue StorageData) (result : StorageData) : bool :=
  negb (truthy oldData)
  || strict_ne (js_total oldData) (total result)
  || strict_ne (js_used oldData) (used result)
  || strict_ne (js_error oldData) (error result).

(** The continuation of [await checkRemoteStorage(remote)] inside
    [batch.map]: returns the cache object and the value of [hasChanged]. *)
Definition mergeOne (remote : string) (result : StorageData)
    (cache : PlainObject StorageData) : PlainObject StorageData * bool :=
  let oldData := js_get cache remote in
  let changed := hasChanged oldData result in
  (if changed then js_set cache remote result else cache, changed).

(** ** Health check (check/route.ts, lines 5-97) *)

Inductive HealthStatus := healthy | token_expired | status_error.

#[global] Instance HealthStatus_eq_dec : EqDecision HealthStatus.
Proof. solve_decision. Defined.

Record HealthResponse := mkHealthResponse {
  h_http : nat;
  h_success : bool;
  h_status : option HealthStatus;
  h_error : option string;
  h_remote : option string;
  h_data : option (option Z * option Z * option Z) }.

(** The three phrases searched in [errorData.error]. *)
Definition token_markers : list string :=
  ["invalid_grant"; "token expired"; "couldn't fetch token"].

Definition is_token_error (status : nat) (err : option string) : bool :=
  (status =? 500)%nat &&
  match err with
  | Some e => negb (String.eqb e "") && existsb (fun m => includes m e) token_markers
  | None => false
  end.

(** The [catch] block of the handler. *)
Definition health_catch (remote : string) (e : Thrown) : HealthResponse :=
  let '(errorMessage, statusCode) :=
    match e with
    | ThrownError name message =>
        if String.eqb name "TimeoutError" || includes "timeout" message
        then ("Remote connection timeout", 408%nat)
        else if includes "ECONNREFUSED" message
        then ("Cannot connect to rclone daemon", 503%nat)
        else (message, 500%nat)
    | ThrownOther => ("Health check failed", 500%nat)
    end in
  mkHealthResponse statusCode false (Some status_error) (Some errorMessage)
    (Some remote) None.

(** The handler from line 10 on, once [await request.json()] has yielded
    a body: [remote] is [body.remote], [o] is the daemon's answer to the
    [operations/about] request. *)
Definition health_check (remote : option string)
    (o : FetchOutcome AboutBody) : HealthResponse :=
  match remote with
  | None => mkHealthResponse 400 false None (Some "Remote parameter is required") None None
  | Some r =>
    if String.eqb r "" then
      mkHealthResponse 400 false None (Some "Remote parameter is required") None None
    else
      match o with
      | FetchRejected e => health_catch r e
      | FetchResponse status statusText body =>
          if response_ok status then
            match body with
            | JsonRejects e => health_catch r e
            | JsonObject data =>
                mkHealthResponse 200 true (Some healthy) None (Some r)
                  (Some (b_total data, b_used data, b_free data))
            end
          else
            let errorData :=
              match body with JsonRejects _ => empty_body | JsonObject d => d end in
            if is_token_error status (b_error errorData) then
              mkHealthResponse 200 false (Some token_expired)
                (Some "Authentication token expired") (Some r) None
            else
              mkHealthResponse status false (Some status_error)
                (Some ("Failed to check remote: "
                       +:+ js_or (b_error errorData) statusText))
                (Some r) None
      end
  end.

(** [POST /api/rclone/check] (lines 5-97).  [body] is what the handler
    gets from [await request.json()] and [body.remote]: the property of
    the parsed body, or the value thrown when the request body is not
    JSON (or is [null], so that reading the property throws).  In that
    case the [catch] block runs with [remote] still the empty string. *)
Definition check_POST (body : Json (option string)) (o : FetchOutcome AboutBody)
    : HealthResponse :=
  match body with
  | JsonRejects e => health_catch "" e
  | JsonObject remote => health_check remote o
  end.

(** ** Page guard (middleware.ts, lines 44-48) *)

(** The alternatives of the negative look-ahead of [config.matcher]; a dot
    of the pattern stands for any character. *)
Definition matcher_excluded : list string :=
  ["api"; "_next/static"; "_next/image"; "favicon.ico"].

Fixpoint lookahead (pat s : string) : bool :=
  match pat, s with
  | EmptyString, _ => true
  | String p pat', String c s' =>
      (Ascii.eqb p "." || Ascii.eqb p c) && lookahead pat' s'
  | String _ _, EmptyString => false
  end.

(** [matcher pathname]: the middleware (and with it the session check of
    [withAuth]) runs for this path. *)
Definition matcher (pathname : string) : bool :=
  match pathname with
  | String "/" rest => negb (existsb (fun p => lookahead p rest) matcher_excluded)
  | _ => false
  end.

(** ** Process state *)

(** The three modules that each define their own [runStorageCheckJob] over
    the same globals; they differ in the delay of the timer they arm. *)
Inductive Owner := PullRoute | StreamRoute | BackgroundService.

#[global] Instance Owner_eq_dec : EqDecision Owner.
Proof. solve_decision. Defined.

(** The second argument of [setTimeout] in the [finally] block. *)
Definition interval (m : Owner) : Z :=
  match m with
  | PullRoute => 300000
  | StreamRoute => 60000
  | BackgroundService => 5 * 60 * 1000
  end.

(** What a stream carries: the JSON objects tagged [initial], [update] and
    [heartbeat]. *)
Inductive Msg :=
| MsgInitial (data : StorageCache) (timestamp : Z)
| MsgUpdate (data : StorageCache) (timestamp : Z)
| MsgHeartbeat (timestamp : Z).

(** One stream connection: its controller ([closed]: [enqueue] throws), its
    heartbeat interval, and what was enqueued so far. *)
Record Conn := mkConn {
  closed : bool;
  heartbeat : bool;
  received : list Msg }.

(** Where a suspended call of [runStorageCheckJob] waits.  In [AwaitBatch]
    every element of [batch] carries whether its promise has settled. *)
Inductive Phase :=
| AwaitRemotes
| AwaitBatch (remotes remotesToCheck : list string)
             (batch : list (string * bool)) (hasUpdates : bool).

Record Job := mkJob {
  job_id : nat;
  job_owner : Owner;
  job_phase : Phase }.

(** The globals of the process, the suspended calls of the job, the timers
    of the event loop that are armed and have not fired, and the stream
    connections.  [storageCache] holds the own properties of the object
    [global.storageCache] and [cachePrototype] its prototype when that is
    no longer [Object.prototype].  [storageSubscribers] is the entry list
    of the [Set]: an entry that was deleted stays in the list as [None]. *)
Record Sys := mkSys {
  storageCache : StorageCache;
  storageSubscribers : list (option nat);
  backgroundJobRunning : bool;
  backgroundJobTimer : option nat;
  jobs : list Job;
  next_job : nat;
  timers : list (nat * Owner);
  next_timer : nat;
  conns : list Conn;
  cachePrototype : option StorageData }.

Definition initial : Sys := mkSys ∅ [] false None [] 0 [] 0 [] None.

(** The object [global.storageCache]. *)
Definition cacheObject (s : Sys) : PlainObject StorageData :=
  mkPlainObject (storageCache s) (cachePrototype s).

Definition with_cache (c : StorageCache) (s : Sys) : Sys :=
  mkSys c (storageSubscribers s) (backgroundJobRunning s) (backgroundJobTimer s)
    (jobs s) (next_job s) (timers s) (next_timer s) (conns s) (cachePrototype s).

Definition with_subscribers (d : list (option nat)) (s : Sys) : Sys :=
  mkSys (storageCache s) d (backgroundJobRunning s) (backgroundJobTimer s)
    (jobs s) (next_job s) (timers s) (next_timer s) (conns s) (cachePrototype s).

Definition with_running (b : bool) (s : Sys) : Sys :=
  mkSys (storageCache s) (storageSubscribers s) b (backgroundJobTimer s)
    (jobs s) (next_job s) (timers s) (next_timer s) (conns s) (cachePrototype s).

Definition with_timer (t : option nat) (s : Sys) : Sys :=
  mkSys (storageCache s) (storageSubscribers s) (backgroundJobRunning s) t
    (jobs s) (next_job s) (timers s) (next_timer s) (conns s) (cachePrototype s).

Definition with_jobs (js : list Job) (s : Sys) : Sys :=
  mkSys (storageCache s) (storageSubscribers s) (backgroundJobRunning s)
    (backgroundJobTimer s) js (next_job s) (timers s) (next_timer s) (conns s)
    (cachePrototype s).

Definition with_timers (ts : list (nat * Owner)) (s : Sys) : Sys :=
  mkSys (storageCache s) (storageSubscribers s) (backgroundJobRunning s)
    (backgroundJobTimer s) (jobs s) (next_job s) ts (next_timer s) (conns s)
    (cachePrototype s).

Definition with_conns (cs : list Conn) (s : Sys) : Sys :=
  mkSys (storageCache s) (storageSubscribers s) (backgroundJobRunning s)
    (backgroundJobTimer s) (jobs s) (next_job s) (timers s) (next_timer s) cs
    (cachePrototype s).

(** The object [global.storageCache] after an assignment to one of its
    properties. *)
Definition with_cacheObject (c : PlainObject StorageData) (s : Sys) : Sys :=
  mkSys (own c) (storageSubscribers s) (backgroundJobRunning s)
    (backgroundJobTimer s) (jobs s) (next_job s) (timers s) (next_timer s)
    (conns s) (prototype c).

(** ** Observable actions and events *)

(** What a handler answers: 401 from the stream, the stream itself, the
    JSON of the snapshot endpoint, the JSON of the manual refresh. *)
Inductive Reply :=
| ReplyUnauthorized
| ReplyStream (conn : nat)
| ReplySnapshot (success : bool) (data : StorageCache) (oldest : option Z)
| ReplyRefresh (success : bool) (message : string).

(** What a step does besides changing the state: the requests it sends to
    the daemon, the value of [hasChanged] of a merge, the call of
    [notifySubscribers], the timers it clears and arms, the end of a call
    of the job, the reply of a handler. *)
Inductive Label :=
| LFetchRemotes (job : nat)
| LFetchAbout (job : nat) (remote : string)
| LMerged (job : nat) (remote : string) (changed : bool)
| LNotify (job : nat)
| LClearTimeout (timer : nat)
| LSetTimeout (timer : nat) (owner : Owner) (delay : Z)
| LJobEnd (job : nat)
| LReply (r : Reply).

(** What the environment does: a direct call of [runStorageCheckJob] (the
    start-up service), a timer that fires, the daemon's answer to the
    listing of a job or to the probe at [index] of its batch (with the
    clock reading taken when the record is built), a request to one of the
    three handlers (with whether [getServerSession] finds a session), a
    heartbeat interval that fires, the abort of a stream's request, and the
    closing of a stream's sink. *)
Inductive Event :=
| EvTrigger (m : Owner)
| EvTimer (timer : nat)
| EvRemotesListed (job : nat) (o : FetchOutcome RemotesBody)
| EvProbeSettled (job : nat) (index : nat) (o : FetchOutcome AboutBody) (now : Z)
| EvPullGET (session : bool)
| EvPullPOST (session : bool)
| EvStreamGET (session : bool) (now : Z)
| EvHeartbeat (conn : nat) (now : Z)
| EvAbort (conn : nat)
| EvSinkClosed (conn : nat).

(** ** The subscriber set (a JavaScript [Set]) *)

Definition set_has (x : nat) (d : list (option nat)) : bool :=
  bool_decide (Some x ∈ d).

Definition set_add (x : nat) (d : list (option nat)) : list (option nat) :=
  if set_has x d then d else d ++ [Some x].

Definition set_delete (x : nat) (d : list (option nat)) : list (option nat) :=
  (fun e => if bool_decide (e = Some x) then None else e) <$> d.

(** [controller.enqueue(...)] of connection [c]: [None] when it throws. *)
Definition enqueue (c : nat) (m : Msg) (s : Sys) : option Sys :=
  match conns s !! c with
  | Some k =>
      if closed k then None
      else Some (with_conns
                   (<[c := mkConn false (heartbeat k) (received k ++ [m])]> (conns s)) s)
  | None => None
  end.

(** [handleStorageUpdate] of connection [c] (stream/route.ts, lines 229-247). *)
Definition handleStorageUpdate (c : nat) (updatedCache : StorageCache)
    (now : Z) (s : Sys) : Sys :=
  match enqueue c (MsgUpdate updatedCache now) s with
  | Some s' => s'
  | None => with_subscribers (set_delete c (storageSubscribers s)) s
  end.

(** [Set.prototype.forEach]: walks the entry list by index, reading the
    list again at every index and skipping deleted entries.  The callbacks
    of this program never add an entry, so the length of the list bounds
    the walk ([fuel]). *)
Fixpoint forEach_from (fuel i : nat) (now : Z) (s : Sys) : Sys :=
  match fuel with
  | O => s
  | S fuel' =>
      match storageSubscribers s !! i with
      | None => s
      | Some None => forEach_from fuel' (S i) now s
      | Some (Some c) =>
          forEach_from fuel' (S i) now (handleStorageUpdate c (storageCache s) now s)
      end
  end.

(** [notifySubscribers()] (stream/route.ts, lines 102-112). *)
Definition notifySubscribers (now : Z) (s : Sys) : Sys :=
  forEach_from (length (storageSubscribers s)) 0 now s.

(** ** The refresh job (storage/route.ts, lines 113-188) *)

Definition find_job (id : nat) (js : list Job) : option Job :=
  List.find (fun j => bool_decide (job_id j = id)) js.

Definition update_job (j : Job) (js : list Job) : list Job :=
  (fun k => if bool_decide (job_id k = job_id j) then j else k) <$> js.

Definition remove_job (id : nat) (js : list Job) : list Job :=
  List.filter (fun j => negb (bool_decide (job_id j = id))) js.

Definition clearTimeout (t : nat) (s : Sys) : Sys :=
  with_timers (List.filter (fun p => negb (bool_decide (p.1 = t))) (timers s)) s.

(** [global.backgroundJobTimer = setTimeout(runStorageCheckJob, interval)]. *)
Definition setTimeout (m : Owner) (s : Sys) : Sys :=
  let t := next_timer s in
  mkSys (storageCache s) (storageSubscribers s) (backgroundJobRunning s) (Some t)
    (jobs s) (next_job s) (timers s ++ [(t, m)]) (S t) (conns s) (cachePrototype s).

(** The [finally] block: the call [j] is over. *)
Definition finally (j : Job) (s : Sys) : Sys * list Label :=
  let s1 := with_running false (with_jobs (remove_job (job_id j) (jobs s)) s) in
  let '(s2, l) :=
    match backgroundJobTimer s1 with
    | Some t => (clearTimeout t s1, [LClearTimeout t])
    | None => (s1, [])
    end in
  (setTimeout (job_owner j) s2,
   l ++ [LSetTimeout (next_timer s2) (job_owner j) (interval (job_owner j)); LJobEnd (job_id j)]).

(** Entry of [runStorageCheckJob] up to [await getRemotesList()]. *)
Definition runStorageCheckJob (m : Owner) (s : Sys) : Sys * list Label :=
  if backgroundJobRunning s then (s, [])
  else
    let j := mkJob (next_job s) m AwaitRemotes in
    (mkSys (storageCache s) (storageSubscribers s) true (backgroundJobTimer s)
       (jobs s ++ [j]) (S (next_job s)) (timers s) (next_timer s) (conns s)
       (cachePrototype s),
     [LFetchRemotes (job_id j)]).

Definition concurrentLimit : nat := 5.

(** One turn of the [while] loop with [remotesToCheck] not empty:
    [splice(0, concurrentLimit)] and the synchronous part of [batch.map]. *)
Definition enter_batch (j : Job) (remotes remotesToCheck : list string)
    (hasUpdates : bool) (s : Sys) : Sys * list Label :=
  let batch := take concurrentLimit remotesToCheck in
  let j' := mkJob (job_id j) (job_owner j)
              (AwaitBatch remotes (drop concurrentLimit remotesToCheck)
                 ((fun r => (r, false)) <$> batch) hasUpdates) in
  (with_jobs (update_job j' (jobs s)) s, LFetchAbout (job_id j) <$> batch).

(** After the loop: notify when [hasUpdates], then the [finally] block. *)
Definition complete (j : Job) (hasUpdates : bool) (now : Z) (s : Sys)
    : Sys * list Label :=
  let s1 := if hasUpdates then notifySubscribers now s else s in
  let '(s2, l) := finally j s1 in
  (s2, (if hasUpdates then [LNotify (job_id j)] else []) ++ l).

(** Continuation of [await getRemotesList()]. *)
Definition remotes_listed (j : Job) (o : FetchOutcome RemotesBody) (s : Sys)
    : Sys * list Label :=
  let remotes := getRemotesList o in
  match remotes with
  | [] => finally j s
  | _ :: _ => enter_batch j remotes remotes false s
  end.

(** The probe at [index] of the current batch settles: the record is
    built and merged (lines 136-150), and when it was the last one of the
    batch, [Promise.allSettled] resolves and the loop goes on.  Only
    microtasks run between the merge and the next turn of the loop; they are
    taken as one step. *)
Definition probe_settled (j : Job) (index : nat) (o : FetchOutcome AboutBody)
    (now : Z) (s : Sys) : Sys * list Label :=
  match job_phase j with
  | AwaitBatch remotes remotesToCheck batch hasUpdates =>
      match batch !! index with
      | Some (remote, false) =>
          let result := checkRemoteStorage remote o now in
          let '(cache, changed) := mergeOne remote result (cacheObject s) in
          let s1 := with_cacheObject cache s in
          let batch' := <[index := (remote, true)]> batch in
          let hasUpdates' := hasUpdates || changed in
          let '(s2, l) :=
            if forallb snd batch' then
              match remotesToCheck with
              | [] => complete j hasUpdates' now s1
              | _ :: _ => enter_batch j remotes remotesToCheck hasUpdates' s1
              end
            else
              (with_jobs
                 (update_job
                    (mkJob (job_id j) (job_owner j)
                       (AwaitBatch remotes remotesToCheck batch' hasUpdates'))
                    (jobs s1)) s1, []) in
          (s2, LMerged (job_id j) remote changed :: l)
      | _ => (s, [])
      end
  | AwaitRemotes => (s, [])
  end.

(** ** Handlers *)

(** [startBackgroundJob()]. *)
Definition startBackgroundJob (m : Owner) (s : Sys) : Sys * list Label :=
  match backgroundJobTimer s with
  | None => runStorageCheckJob m s
  | Some _ => (s, [])
  end.

(** [Math.min(...Object.values(cache).map(d => d.lastUpdated))], or [null]
    for the empty cache. *)
Definition oldest_update (cache : StorageCache) : option Z :=
  match map_to_list cache with
  | [] => None
  | (_, d) :: rest =>
      Some (foldr (fun p acc => Z.min (lastUpdated p.2) acc) (lastUpdated d) rest)
  end.

(** [GET /api/rclone/storage] (storage/route.ts, lines 199-222).  The
    handler does not read the session.  Nothing in its [try] block throws,
    so the reply of the [catch] block does not occur. *)
Definition pull_GET (session : bool) (s : Sys) : Sys * list Label :=
  let '(s1, l) := startBackgroundJob PullRoute s in
  (s1, l ++ [LReply (ReplySnapshot true (storageCache s1)
                       (oldest_update (storageCache s1)))]).

(** [POST /api/rclone/storage] (storage/route.ts, lines 225-248): the job
    is called and not awaited.  The handler does not read the session. *)
Definition pull_POST (session : bool) (s : Sys) : Sys * list Label :=
  let '(s1, l1) :=
    match backgroundJobTimer s with
    | Some t => (with_timer None (clearTimeout t s), [LClearTimeout t])
    | None => (s, [])
    end in
  let '(s2, l2) := runStorageCheckJob PullRoute s1 in
  (s2, l1 ++ l2 ++ [LReply (ReplyRefresh true "Storage refresh triggered")]).

(** [GET /api/rclone/storage/stream] (stream/route.ts, lines 201-289). *)
Definition stream_GET (session : bool) (now : Z) (s : Sys) : Sys * list Label :=
  if negb session then (s, [LReply ReplyUnauthorized])
  else
    let '(s1, l) := startBackgroundJob StreamRoute s in
    let c := length (conns s1) in
    let k := mkConn false true [MsgInitial (storageCache s1) now] in
    let s2 := with_conns (conns s1 ++ [k]) s1 in
    let s3 := with_subscribers (set_add c (storageSubscribers s2)) s2 in
    (s3, l ++ [LReply (ReplyStream c)]).

Definition stop_heartbeat (c : nat) (s : Sys) : Sys :=
  match conns s !! c with
  | Some k => with_conns (<[c := mkConn (closed k) false (received k)]> (conns s)) s
  | None => s
  end.

(** The callback of [setInterval] of connection [c]. *)
Definition heartbeat_tick (c : nat) (now : Z) (s : Sys) : Sys :=
  match conns s !! c with
  | Some k =>
      if heartbeat k then
        match enqueue c (MsgHeartbeat now) s with
        | Some s' => s'
        | None =>
            let s1 := stop_heartbeat c s in
            with_subscribers (set_delete c (storageSubscribers s1)) s1
        end
      else s
  | None => s
  end.

(** The [abort] listener of the request of connection [c]. *)
Definition on_abort (c : nat) (s : Sys) : Sys :=
  match conns s !! c with
  | Some _ =>
      let s1 := stop_heartbeat c s in
      with_subscribers (set_delete c (storageSubscribers s1)) s1
  | None => s
  end.

(** The client went away: the controller of [c] no longer accepts data. *)
Definition sink_closed (c : nat) (s : Sys) : Sys :=
  match conns s !! c with
  | Some k => with_conns (<[c := mkConn true (heartbeat k) (received k)]> (conns s)) s
  | None => s
  end.

(** ** The transition system *)

Definition step (e : Event) (s : Sys) : Sys * list Label :=
  match e with
  | EvTrigger m => runStorageCheckJob m s
  | EvTimer t =>
      match List.find (fun p => bool_decide (p.1 = t)) (timers s) with
      | Some (_, m) => runStorageCheckJob m (clearTimeout t s)
      | None => (s, [])
      end
  | EvRemotesListed id o =>
      match find_job id (jobs s) with
      | Some j =>
          match job_phase j with
          | AwaitRemotes => remotes_listed j o s
          | AwaitBatch _ _ _ _ => (s, [])
          end
      | None => (s, [])
      end
  | EvProbeSettled id index o now =>
      match find_job id (jobs s) with
      | Some j => probe_settled j index o now s
      | None => (s, [])
      end
  | EvPullGET session => pull_GET session s
  | EvPullPOST session => pull_POST session s
  | EvStreamGET session now => stream_GET session now s
  | EvHeartbeat c now => (heartbeat_tick c now s, [])
  | EvAbort c => (on_abort c s, [])
  | EvSinkClosed c => (sink_closed c s, [])
  end.

Fixpoint run (evs : list Event) (s : Sys) : Sys * list Label :=
  match evs with
  | [] => (s, [])
  | e :: evs' =>
      let '(s1, l1) := step e s in
      let '(s2, l2) := run evs' s1 in
      (s2, l1 ++ l2)
  end.

(** ** Notions used by the statements *)

(** A state is reachable when some sequence of events leads to it from the
    state of a freshly started process. *)
Definition reachable (s : Sys) : Prop := exists evs, (run evs initial).1 = s.

(** An event that is a reply of the daemon. *)
Definition is_daemon_event (e : Event) : bool :=
  match e with
  | EvRemotesListed _ _ | EvProbeSettled _ _ _ _ => true
  | _ => false
  end.

(** *** The scheduler *)

(** The current batch of a job is the [k]-th run of [concurrentLimit]
    consecutive remotes of the listing, the remotes still to check are
    what follows it, and some probe of the batch has not settled yet. *)
Definition batch_ok (remotes remotesToCheck : list string)
    (batch : list (string * bool)) : Prop :=
  exists k : nat,
    batch.*1 = take concurrentLimit (drop (concurrentLimit * k) remotes)
    /\ remotesToCheck = drop (concurrentLimit * k + concurrentLimit) remotes
    /\ batch <> [] /\ forallb snd batch = false.

Definition phase_ok (p : Phase) : Prop :=
  match p with
  | AwaitRemotes => True
  | AwaitBatch remotes remotesToCheck batch _ => batch_ok remotes remotesToCheck batch
  end.

(** The flag is set exactly when one call of the job is suspended, and
    there is never more than one. *)
Definition sched_inv (s : Sys) : Prop :=
  match jobs s with
  | [] => backgroundJobRunning s = false
  | [j] => backgroundJobRunning s = true /\ phase_ok (job_phase j)
  | _ => False
  end.



(** *** Labels of a run *)

Definition is_fetch_about (l : Label) : bool :=
  match l with LFetchAbout _ _ => true | _ => false end.




(** The job a label belongs to. *)
Definition label_job (l : Label) : option nat :=
  match l with
  | LFetchRemotes j | LFetchAbout j _ | LMerged j _ _ | LNotify j | LJobEnd j => Some j
  | LClearTimeout _ | LSetTimeout _ _ _ | LReply _ => None
  end.

(** What a trace says about job [i]: whether it is mentioned at all,
    whether one of its merges reported a change, whether it called
    [notifySubscribers], whether it ended. *)
Definition mentions (i : nat) (tr : list Label) : bool :=
  existsb (fun l => bool_decide (label_job l = Some i)) tr.

Definition merged_true (i : nat) (tr : list Label) : bool :=
  existsb (fun l => match l with
                    | LMerged j _ true => bool_decide (j = i)
                    | _ => false
                    end) tr.

Definition notified (i : nat) (tr : list Label) : bool :=
  existsb (fun l => match l with LNotify j => bool_decide (j = i) | _ => false end) tr.

Definition ended (i : nat) (tr : list Label) : bool :=
  existsb (fun l => match l with LJobEnd j => bool_decide (j = i) | _ => false end) tr.

(** The value of [hasUpdates] of a suspended call; before the loop the
    variable does not exist yet and no merge has happened. *)
Definition phase_updates (p : Phase) : bool :=
  match p with
  | AwaitRemotes => false
  | AwaitBatch _ _ _ hasUpdates => hasUpdates
  end.

(** The labels of [clearTimeout] on the handle the global holds, and of
    the merge of at most one result. *)
Definition clear_labels (t : option nat) : list Label :=
  match t with Some t => [LClearTimeout t] | None => [] end.

Definition merged_label (id : nat) (om : option (string * bool)) : list Label :=
  match om with Some (r, c) => [LMerged id r c] | None => [] end.

Definition merged_change (om : option (string * bool)) : bool :=
  match om with Some (_, c) => c | None => false end.

(** The trace [tr] that led to [s] mentions no job that does not exist
    yet; the call in progress has neither ended nor notified, and its
    [hasUpdates] says whether one of its merges reported a change; a job
    that has ended has notified exactly when one of its merges did. *)
Definition trace_inv (s : Sys) (tr : list Label) : Prop :=
  (forall j, jobs s = [j] -> (job_id j < next_job s)%nat)
  /\ (forall i, (next_job s <= i)%nat -> mentions i tr = false)
  /\ (forall j, jobs s = [j] ->
        ended (job_id j) tr = false /\ notified (job_id j) tr = false
        /\ merged_true (job_id j) tr = phase_updates (job_phase j))
  /\ (forall i, ended i tr = true -> notified i tr = merged_true i tr).

(** *** Records *)

(** A healthy and a failed record as the spec describes them. *)
Definition healthy_record (d : StorageData) : Prop :=
  error d = None /\ is_Some (total d) /\ is_Some (used d).

Definition failed_record (d : StorageData) : Prop :=
  is_Some (error d) /\ total d = None /\ used d = None /\ free d = None.

(** The names under which a cache object without a record of that name
    can still yield a value: "__proto__", the functions of
    [Object.prototype], and the properties of a record that has become
    the prototype. *)
Definition inherited_names : list string :=
  "__proto__" :: Object_prototype_functions
  ++ ["total"; "used"; "free"; "lastUpdated"; "error"].

(** The record [d] is held by the object under the name [key]: as an own
    property, or as the prototype, where an assignment to "__proto__" puts
    it. *)
Definition holds {A} (o : PlainObject A) (key : string) (d : A) : Prop :=
  own o !! key = Some d \/ (key = "__proto__" /\ prototype o = Some d).

(** In the run [evs], [d] is the record a probe of [remote] returned: a
    job had sent the request for [remote], that probe was in flight at
    [index] of the batch when the daemon's answer [o] to it arrived at
    time [now], and [d] is the record built from that answer. *)
Definition probe_returned (evs : list Event) (remote : string) (d : StorageData)
    : Prop :=
  exists evs1 evs2 id index o now j remotes remotesToCheck batch hasUpdates,
    evs = evs1 ++ EvProbeSettled id index o now :: evs2
    /\ find_job id (jobs (run evs1 initial).1) = Some j
    /\ job_phase j = AwaitBatch remotes remotesToCheck batch hasUpdates
    /\ batch !! index = Some (remote, false)
    /\ LFetchAbout id remote ∈ (run evs1 initial).2
    /\ d = checkRemoteStorage remote o now.

(** *** Subscribers *)

(** No subscriber occurs twice in the entry list of the set. *)
Definition set_wf (d : list (option nat)) : Prop :=
  forall p q c, d !! p = Some (Some c) -> d !! q = Some (Some c) -> p = q.

Definition subs_inv (s : Sys) : Prop :=
  set_wf (storageSubscribers s)
  /\ forall p c, storageSubscribers s !! p = Some (Some c) -> (c < length (conns s))%nat.

(** The controller of connection [c] accepts data. *)
Definition conn_open (c : nat) (s : Sys) : bool :=
  match conns s !! c with
  | Some k => negb (closed k)
  | None => false
  end.

(** The connection after one more message was enqueued. *)
Definition deliver (m : Msg) (k : Conn) : Conn :=
  mkConn false (heartbeat k) (received k ++ [m]).

(** What [forEach] does from index [i] on, in terms of the state it
    starts from. *)
Definition forEach_post (i : nat) (now : Z) (s s' : Sys) : Prop :=
  length (storageSubscribers s') = length (storageSubscribers s)
  /\ (forall p, (p < i)%nat -> storageSubscribers s' !! p = storageSubscribers s !! p)
  /\ (forall p c, (i <= p)%nat -> storageSubscribers s !! p = Some (Some c) ->
        if conn_open c s
        then storageSubscribers s' !! p = Some (Some c)
             /\ conns s' !! c
                = (deliver (MsgUpdate (storageCache s) now) <$> (conns s !! c))
        else storageSubscribers s' !! p = Some None
             /\ conns s' !! c = conns s !! c)
  /\ (forall p, storageSubscribers s !! p = Some None ->
        storageSubscribers s' !! p = Some None)
  /\ (forall c, (forall p, (i <= p)%nat -> storageSubscribers s !! p <> Some (Some c)) ->
        conns s' !! c = conns s !! c).

(** A step that adds no subscriber and no connection. *)
Definition shrinks (s s' : Sys) : Prop :=
  (forall p c, storageSubscribers s' !! p = Some (Some c) ->
     storageSubscribers s !! p = Some (Some c))
  /\ length (conns s') = length (conns s).

(** ** Scenarios *)

(** Answers of the daemon. *)
Definition about_ok (t u f : Z) : FetchOutcome AboutBody :=
  FetchResponse 200 "OK" (JsonObject (mkAboutBody (Some t) (Some u) (Some f) None)).

Definition about_error (status : nat) (e : string) : FetchOutcome AboutBody :=
  FetchResponse status "Internal Server Error"
    (JsonObject (mkAboutBody None None None (Some e))).

Definition listed (remotes : list string) : FetchOutcome RemotesBody :=
  FetchResponse 200 "OK" (JsonObject (Some remotes)).

(** Two requests, a direct call and a manual refresh arrive while the
    first cycle waits for the daemon. *)
Definition busy_events : list Event :=
  [EvPullGET true; EvStreamGET true 7; EvTrigger BackgroundService; EvPullPOST true].

(** A first cycle ends on a failed listing; its timer starts a second
    cycle, which waits for the listing. *)
Definition refresh_events : list Event :=
  [EvTrigger PullRoute; EvRemotesListed 0 (FetchRejected ThrownOther); EvTimer 0].

(** A first cycle stores "a" (failed) and "b"; the timer starts a second
    cycle whose probes find the same [total], [used] and [error], with
    another [free] for "b". *)
Definition two_cycles : list Event :=
  [EvPullGET false; EvRemotesListed 0 (listed ["a"; "b"]);
   EvProbeSettled 0 1 (about_ok 100 40 60) 1000;
   EvProbeSettled 0 0 (about_error 500 "directory not found") 1001;
   EvTimer 0; EvRemotesListed 1 (listed ["a"; "b"]);
   EvProbeSettled 1 0 (about_error 500 "directory not found") 2000;
   EvProbeSettled 1 1 (about_ok 100 40 59) 2001].


(** The daemon answers 200 for a remote whose backend reports only the
    bytes in use. *)
Definition used_only_events : list Event :=
  [EvTrigger PullRoute; EvRemotesListed 0 (listed ["photos"]);
   EvProbeSettled 0 0
     (FetchResponse 200 "OK" (JsonObject (mkAboutBody None (Some 1024) None None)))
     50].





(** Three clients connect (the first request starts the job); the sink of
    the second one is closed from outside.  Then the daemon lists "a" and
    answers its probe: the cycle stores the record and publishes. *)
Definition three_subscribers : list Event :=
  [EvStreamGET true 1; EvStreamGET true 2; EvStreamGET true 3; EvSinkClosed 1].

Definition publish_events : list Event :=
  [EvRemotesListed 0 (listed ["a"]); EvProbeSettled 0 0 (about_ok 10 4 6) 9].

(** * More of the code

    The rest of the repository that can be embedded: the invariants of the
    scheduler and of the subscriber set over the transition system above,
    the sidebar that consumes the stream, the two listing routes with their
    retry loop, the file browser page, the daemon client class, the
    start-up of the monitoring service, the page guard, sign-in and
    password change, the download route and the paths of the file browser.

    A handler is a function of what it reads (the request, the session,
    the answers of the daemon, the user table) that yields what it answers
    and what it changes.  A React component is embedded through the
    functions that compute its next state and what it renders from its
    state.  Texts are sequences of characters: [split], [includes],
    [startsWith] and the regular expressions of this code look for "/" and
    other characters of the basic Latin range only.  The length of a
    password, the cryptographic hash and the two URI encoders are
    parameters.  Number formatting ([formatFileSize], [formatBytes],
    [getStorageGauge]), dates and the order of [localeCompare] are floating
    point or locale dependent and are not embedded. *)

(** ** More notions for the statements *)

(** The timers of the event loop as the scheduler sees them: an armed
    timer is the only one and its handle is the one the global holds;
    before the first call of the job the global is unset; once a call was
    made, a timer is armed whenever no call is in progress. *)
Definition timer_inv (s : Sys) : Prop :=
  (forall t m, (t, m) ∈ timers s ->
     timers s = [(t, m)] /\ backgroundJobTimer s = Some t)
  /\ (next_job s = 0%nat ->
        backgroundJobTimer s = None /\ backgroundJobRunning s = false)
  /\ (backgroundJobRunning s = false -> next_job s <> 0%nat -> timers s <> []).


(** The part of the state the scheduler and the cache live in: what a
    stream connection must never change. *)
Definition scheduler_view (s : Sys)
    : PlainObject StorageData * bool * option nat * list Job * nat
      * list (nat * Owner) * nat :=
  (cacheObject s, backgroundJobRunning s, backgroundJobTimer s, jobs s,
   next_job s, timers s, next_timer s).

(** *** Probes of a cycle *)

(** The remotes job [i] sent a probe for, and the remotes whose result it
    merged, in the order of the trace. *)
Definition probes_of (i : nat) (tr : list Label) : list string :=
  omap (fun l => match l with
                 | LFetchAbout j r => if bool_decide (j = i) then Some r else None
                 | _ => None
                 end) tr.

Definition merges_of (i : nat) (tr : list Label) : list string :=
  omap (fun l => match l with
                 | LMerged j r _ => if bool_decide (j = i) then Some r else None
                 | _ => None
                 end) tr.

(** The remotes of a batch whose probe has not settled. *)
Definition in_flight (batch : list (string * bool)) : list string :=
  (List.filter (fun p => negb p.2) batch).*1.

(** While a call of the job is suspended, the probes it sent so far and
    the remotes still to check make up the listing, in its order; the
    results it merged and the probes in flight are the probes it sent. *)
Definition probe_inv (s : Sys) (tr : list Label) : Prop :=
  forall j, jobs s = [j] ->
    match job_phase j with
    | AwaitRemotes => probes_of (job_id j) tr = [] /\ merges_of (job_id j) tr = []
    | AwaitBatch remotes remotesToCheck batch _ =>
        probes_of (job_id j) tr ++ remotesToCheck = remotes
        /\ merges_of (job_id j) tr ++ in_flight batch ≡ₚ probes_of (job_id j) tr
    end.

(** ** The sidebar: what it shows for each remote (Sidebar component) *)

(** An entry of [interface RemoteStorage]. *)
Record RemoteStorageEntry := mkRemoteStorageEntry {
  v_total : option Z;
  v_used : option Z;
  v_free : option Z;
  v_loading : bool;
  v_error : option string }.

(** The entry [{ loading: true }]. *)
Definition loading_entry : RemoteStorageEntry :=
  mkRemoteStorageEntry None None None true None.

(** The properties of an entry; one the entry lacks reads like one that
    holds [undefined]. *)
#[global] Instance RemoteStorageEntry_properties : OwnProperties RemoteStorageEntry :=
  fun e key =>
    if String.eqb key "total" then Some (js_number (v_total e))
    else if String.eqb key "used" then Some (js_number (v_used e))
    else if String.eqb key "free" then Some (js_number (v_free e))
    else if String.eqb key "loading" then Some (JsBoolean (v_loading e))
    else if String.eqb key "error" then Some (js_string (v_error e))
    else None.

(** The entry built from an entry of the server data (lines 94-100). *)
Definition server_entry (storageData : StorageData) : RemoteStorageEntry :=
  mkRemoteStorageEntry (total storageData) (used storageData)
    (free storageData) false (error storageData).

(** [updateStorageFromServerData(serverData)]: the value given to
    [setStorageStatus]; [remotes] is the property of the component and
    [serverData] holds the own properties of the parsed object, which
    [Object.entries] walks.  Both loops work on the plain object
    [newStorageStatus]: the first assigns to it, the second tests
    [!newStorageStatus[remote]] before it assigns. *)
Definition updateStorageFromServerData (remotes : list string)
    (serverData : StorageCache) : PlainObject RemoteStorageEntry :=
  foldl (fun newStorageStatus remote =>
           if truthy (js_get newStorageStatus remote) then newStorageStatus
           else js_set newStorageStatus remote loading_entry)
    (foldl (fun newStorageStatus entry =>
              js_set newStorageStatus entry.1 (server_entry entry.2))
       empty_object (map_to_list serverData))
    remotes.

(** The state set by the effect that opens the connection. *)
Definition initialStatus (remotes : list string) : PlainObject RemoteStorageEntry :=
  foldl (fun initialStatus remote => js_set initialStatus remote loading_entry)
    empty_object remotes.

(** The names under which the sidebar's object can yield a value without
    an entry of that name. *)
Definition sidebar_inherited_names : list string :=
  "__proto__" :: Object_prototype_functions
  ++ ["total"; "used"; "free"; "loading"; "error"].

(** [es.onmessage]: the state after a message of the stream. *)
Definition sidebar_onmessage (remotes : list string)
    (storageStatus : PlainObject RemoteStorageEntry) (m : Msg)
    : PlainObject RemoteStorageEntry :=
  match m with
  | MsgInitial data _ | MsgUpdate data _ => updateStorageFromServerData remotes data
  | MsgHeartbeat _ => storageStatus
  end.

(** The fallback poll: the state after the reply of the snapshot endpoint. *)
Definition sidebar_onpoll (remotes : list string)
    (storageStatus : PlainObject RemoteStorageEntry) (r : Reply)
    : PlainObject RemoteStorageEntry :=
  match r with
  | ReplySnapshot true data _ => updateStorageFromServerData remotes data
  | _ => storageStatus
  end.

(** What the sidebar shows after the messages [msgs] of its stream. *)
Definition sidebar_view (remotes : list string) (msgs : list Msg)
    : PlainObject RemoteStorageEntry :=
  foldl (sidebar_onmessage remotes) (initialStatus remotes) msgs.

(** ** The listing handlers (remotes and files routes) *)

(** Both handlers wrap their request in the same loop:

      for (let attempt = 1; attempt <= maxRetries; attempt++) {
        try { ...; return ... }
        catch (error) {
          lastError = error;
          if (attempt < maxRetries) await new Promise(r => setTimeout(r, delay));
        }
      }

    [body attempt] is the [try] block of the turn [attempt], which returns
    from the handler or throws.  [remaining] counts the turns left
    ([maxRetries - attempt + 1]).  The result records what the handler
    returned from inside the loop, [lastError], the number of turns made
    and the delays waited for. *)
Record Retried (A : Type) := mkRetried {
  returned : option A;
  lastError : option Thrown;
  attempts : nat;
  waits : list Z }.
Arguments mkRetried {A} returned lastError attempts waits.
Arguments returned {A} r.
Arguments lastError {A} r.
Arguments attempts {A} r.
Arguments waits {A} r.

Fixpoint retry_loop {A} (maxRetries : nat) (delay : Z) (body : nat -> Thrown + A)
    (remaining attempt : nat) (lastError : option Thrown) (waits : list Z)
    : Retried A :=
  match remaining with
  | O => mkRetried None lastError (attempt - 1) waits
  | S remaining' =>
      match body attempt with
      | inr v => mkRetried (Some v) lastError attempt waits
      | inl e =>
          retry_loop maxRetries delay body remaining' (S attempt) (Some e)
            (if (attempt <? maxRetries)%nat then waits ++ [delay] else waits)
      end
  end.

(** [lastError?.message]. *)
Definition thrown_message (e : option Thrown) : option string :=
  match e with
  | Some (ThrownError _ message) => Some message
  | _ => None
  end.

(** [throw new Error(`rclone RC API error: ${response.status} ${response.statusText}`)]. *)
Definition rc_api_error (status : nat) (statusText : string) : Thrown :=
  ThrownError "Error" ("rclone RC API error: " +:+ pretty status +:+ " " +:+ statusText).

(** *** GET /api/rclone/remotes *)

Record RemoteDetail := mkRemoteDetail {
  rd_name : string;
  rd_type : string }.

(** The body of [config/get] is read through [configData.type]. *)
Abbreviation ConfigBody := (option string).

(** The [try]/[catch] around one [config/get] request: the type of the
    remote, or 'unknown'. *)
Definition config_type (o : FetchOutcome ConfigBody) : string :=
  match o with
  | FetchRejected _ => "unknown"
  | FetchResponse status _ body =>
      if response_ok status then
        match body with
        | JsonRejects _ => "unknown"
        | JsonObject type => js_or type "unknown"
        end
      else "unknown"
  end.

(** [for (const remote of remotes)]: [configs i] is the daemon's answer to
    the [config/get] request of the remote at position [i].  Each turn
    ends with the assignment [remoteDetails[remote] = { name: remote,
    type }] to the plain object [remoteDetails]. *)
Fixpoint remote_details (remotes : list string) (i : nat)
    (configs : nat -> FetchOutcome ConfigBody)
    (remoteDetails : PlainObject RemoteDetail) : PlainObject RemoteDetail :=
  match remotes with
  | [] => remoteDetails
  | remote :: rest =>
      remote_details rest (S i) configs
        (js_set remoteDetails remote (mkRemoteDetail remote (config_type (configs i))))
  end.

(** The [try] block of one turn of the loop.  The answer carries the own
    properties of [remoteDetails]. *)
Definition remotes_try (o : FetchOutcome RemotesBody)
    (configs : nat -> FetchOutcome ConfigBody)
    : Thrown + (list string * gmap string RemoteDetail) :=
  match o with
  | FetchRejected e => inl e
  | FetchResponse status statusText body =>
      if response_ok status then
        match body with
        | JsonRejects e => inl e
        | JsonObject data =>
            let remotes := default [] data in
            inr (remotes, own (remote_details remotes 0 configs empty_object))
        end
      else inl (rc_api_error status statusText)
  end.

Record RemotesResponse := mkRemotesResponse {
  rs_http : nat;
  rs_success : bool;
  rs_remotes : list string;
  rs_remoteDetails : option (gmap string RemoteDetail);
  rs_error : option string;
  rs_details : option string }.

(** [daemon attempt] is what the daemon answers in the turn [attempt]: to
    the listing and to the [config/get] requests. *)
Definition remotes_loop
    (daemon : nat -> FetchOutcome RemotesBody * (nat -> FetchOutcome ConfigBody))
    : Retried (list string * gmap string RemoteDetail) :=
  retry_loop 3 2000 (fun attempt => remotes_try (daemon attempt).1 (daemon attempt).2)
    3 1 None [].

(** The handler: its answer, the number of listing requests it sent and
    the delays it waited for. *)
Definition remotes_GET
    (daemon : nat -> FetchOutcome RemotesBody * (nat -> FetchOutcome ConfigBody))
    : RemotesResponse * nat * list Z :=
  let r := remotes_loop daemon in
  (match returned r with
   | Some (remotes, remoteDetails) =>
       mkRemotesResponse 200 true remotes (Some remoteDetails) None None
   | None =>
       mkRemotesResponse 500 false [] None
         (Some "Failed to connect to rclone RC daemon")
         (Some (js_or (thrown_message (lastError r)) "Unknown error"))
   end, attempts r, waits r).

(** *** GET /api/rclone/files *)

(** [interface FileItem] (lib/types/files). *)
Record FileItem := mkFileItem {
  Name : string;
  Path : string;
  IsDir : bool;
  Size : option Z;
  ModTime : option string;
  MimeType : option string;
  ID : option string }.

(** The properties read from a body of [operations/list]. *)
Record ListBody := mkListBody {
  l_list : option (list FileItem);
  l_error : option string }.

Definition empty_list_body : ListBody := mkListBody None None.

(** The [try] block of one turn of the loop. *)
Definition files_try (o : FetchOutcome ListBody) : Thrown + list FileItem :=
  match o with
  | FetchRejected e => inl e
  | FetchResponse status statusText body =>
      if response_ok status then
        match body with
        | JsonRejects e => inl e
        | JsonObject data => inr (default [] (l_list data))
        end
      else
        let errorData :=
          match body with JsonRejects _ => empty_list_body | JsonObject d => d end in
        if is_token_error status (l_error errorData) then
          inl (ThrownError "Error"
                 ("EXPIRED_TOKEN:" +:+ default "" (l_error errorData)))
        else inl (rc_api_error status statusText)
  end.

Record FilesResponse := mkFilesResponse {
  f_http : nat;
  f_success : bool;
  f_files : list FileItem;
  f_error : option string;
  f_details : option string;
  f_tokenExpired : option bool;
  f_remote : option string;
  f_path : option string }.

Definition files_loop (daemon : nat -> FetchOutcome ListBody) : Retried (list FileItem) :=
  retry_loop 3 1000 (fun attempt => files_try (daemon attempt)) 3 1 None [].

(** The answer to a request without [remote]. *)
Definition files_bad_request : FilesResponse :=
  mkFilesResponse 400 false [] (Some "Remote parameter is required")
    None None None None.

(** What the handler answers after the loop. *)
Definition files_response (r path : string) (l : Retried (list FileItem))
    : FilesResponse :=
  match returned l with
  | Some files => mkFilesResponse 200 true files None None None (Some r) (Some path)
  | None =>
      let isTokenExpired := includes "EXPIRED_TOKEN" <$> thrown_message (lastError l) in
      let expired := default false isTokenExpired in
      mkFilesResponse (if expired then 401 else 500) false []
        (Some (if expired then "Authentication token expired"
               else "Failed to list files"))
        (Some (js_or (thrown_message (lastError l)) "Unknown error"))
        isTokenExpired (Some r) None
  end.

(** The handler: [remote] and [path] are the query parameters ([null] when
    absent); it yields its answer, the number of listing requests it sent
    and the delays it waited for. *)
Definition files_GET (remote path : option string)
    (daemon : nat -> FetchOutcome ListBody) : FilesResponse * nat * list Z :=
  let path := js_or path "" in
  match remote with
  | None => (files_bad_request, 0%nat, [])
  | Some r =>
      if String.eqb r "" then (files_bad_request, 0%nat, [])
      else
        let l := files_loop daemon in
        (files_response r path l, attempts l, waits l)
  end.

(** *** The file browser page: what it shows after a listing *)

(** The double quote character. *)
Definition dquote : string :=
  String (Ascii false true false false false true false false) EmptyString.

(** The [error] state after [fetchFiles] has read the answer [data] of the
    files route. *)
Definition fetchFiles_error (data : FilesResponse) : option string :=
  if f_success data then None
  else if default false (f_tokenExpired data)
  then Some (default "undefined" (f_error data) +:+ " - Click " +:+ dquote
             +:+ "Refresh Token" +:+ dquote +:+ " to re-authenticate")
  else Some (js_or (f_error data) "Failed to fetch files").

(** Whether the page renders the button that refreshes the token:
    [error && error.includes('token expired') && selectedRemote]. *)
Definition shows_refresh_button (error selectedRemote : option string) : bool :=
  match error, selectedRemote with
  | Some e, Some r =>
      negb (String.eqb e "") && includes "token expired" e && negb (String.eqb r "")
  | _, _ => false
  end.

(** ** The daemon client class (lib/rclone, [RcloneClient]) *)

(** [request(endpoint, options)]: the parsed body, or what it throws. *)
Definition client_request {A} (o : FetchOutcome A) : Thrown + A :=
  match o with
  | FetchRejected e => inl e
  | FetchResponse status statusText body =>
      if response_ok status then
        match body with
        | JsonRejects e => inl e
        | JsonObject a => inr a
        end
      else inl (ThrownError "Error"
                  ("rclone API error: " +:+ pretty status +:+ " " +:+ statusText))
  end.

Definition listRemotes (o : FetchOutcome RemotesBody) : list string :=
  match client_request o with
  | inr result => default [] result
  | inl _ => []
  end.

Definition getRemoteInfo {A} (o : FetchOutcome A) : option A :=
  match client_request o with
  | inr result => Some result
  | inl _ => None
  end.

Definition listDirectory (o : FetchOutcome ListBody) : list FileItem :=
  match client_request o with
  | inr result => default [] (l_list result)
  | inl _ => []
  end.

(** ** Start-up of the monitoring service ([initializeBackgroundJob]) *)

(** [healthCheck.ok] for the answer to [core/version]; a fetch that
    rejects throws as well. *)
Definition daemon_ready {A} (o : FetchOutcome A) : bool :=
  match o with
  | FetchRejected _ => false
  | FetchResponse status _ _ => response_ok status
  end.

Definition startup_maxRetries : nat := 6.

(** [tryStartJob] with the value of [retryCount] on entry; [probes k] is
    the daemon's answer to the probe sent when [retryCount] is [k].  It
    yields whether [runStorageCheckJob] was called and the number of
    probes sent in all.  A retry is scheduled only while
    [retryCount < maxRetries], which bounds the recursion ([remaining]). *)
Fixpoint tryStartJob (remaining retryCount : nat) (probes : nat -> FetchOutcome unit)
    : bool * nat :=
  if daemon_ready (probes retryCount) then (true, S retryCount)
  else
    match remaining with
    | S remaining' =>
        if (S retryCount <? startup_maxRetries)%nat
        then tryStartJob remaining' (S retryCount) probes
        else (false, S retryCount)
    | O => (false, S retryCount)
    end.

(** [initializeBackgroundJob()]: the new value of
    [global.backgroundJobInitialized], whether the job gets called, and the
    number of probes sent. *)
Definition initializeBackgroundJob (backgroundJobInitialized : bool)
    (probes : nat -> FetchOutcome unit) : bool * (bool * nat) :=
  if backgroundJobInitialized then (true, (false, 0%nat))
  else (true, tryStartJob startup_maxRetries 0 probes).

(** ** Page guard: the middleware function and the [authorized] callback
    (middleware.ts, lines 5-43) *)

(** The session token: its subject, and what the [jwt] callback stores in
    it; a flag that is absent reads as [false]. *)
Record Token := mkToken {
  t_sub : option string;
  t_username : option string;
  isFirstLogin : bool;
  mustChangePassword : bool }.

(** [NextResponse.redirect(new URL(target, req.url))] or
    [NextResponse.next()]. *)
Inductive GuardResult :=
| GuardRedirect (target : string)
| GuardNext.

(** [function middleware(req)], with [pathname] and [token] read from the
    request. *)
Definition middleware (pathname : string) (token : option Token) : GuardResult :=
  if String.prefix "/auth/" pathname then
    match token with
    | Some t =>
        if negb (String.eqb pathname "/auth/change-password") then
          if mustChangePassword t || isFirstLogin t
          then GuardRedirect "/auth/change-password"
          else GuardRedirect "/"
        else GuardNext
    | None => GuardNext
    end
  else
    match token with
    | Some t =>
        if mustChangePassword t || isFirstLogin t
        then GuardRedirect "/auth/change-password"
        else GuardNext
    | None => GuardNext
    end.

(** The [authorized] callback. *)
Definition authorized (pathname : string) (token : option Token) : bool :=
  if String.prefix "/auth/login" pathname then true
  else if String.prefix "/auth/change-password" pathname
  then match token with Some _ => true | None => false end
  else match token with Some _ => true | None => false end.

(** ** Sign-in (lib/auth.ts) and password change
    (api/auth/change-password/route.ts) *)

(** What the sign-in form submits; a field may be missing. *)
Record Credentials := mkCredentials {
  c_username : option string;
  c_password : option string }.

(** A row of the user table, with the columns the two handlers read or
    write. *)
Record User := mkUser {
  u_id : string;
  u_name : option string;
  u_username : string;
  u_email : option string;
  u_password : string;
  u_isActive : bool;
  u_isFirstLogin : bool;
  u_mustChangePassword : bool;
  u_lastLogin : option Z;
  u_updatedAt : Z }.

(** The object [authorize] returns on success. *)
Record AuthUser := mkAuthUser {
  a_id : string;
  a_name : option string;
  a_username : string;
  a_email : option string;
  a_isFirstLogin : bool;
  a_mustChangePassword : bool }.

(** [prisma.user.findUnique({ where: { username } })] and
    [... where: { id }]: the table is a list of rows. *)
Definition find_by_username (username : string) (users : list User) : option User :=
  List.find (fun u => String.eqb (u_username u) username) users.

Definition find_by_id (id : string) (users : list User) : option User :=
  List.find (fun u => String.eqb (u_id u) id) users.

(** [prisma.user.update({ where: { id }, data })]. *)
Definition update_by_id (id : string) (data : User -> User) (users : list User)
    : list User :=
  (fun u => if String.eqb (u_id u) id then data u else u) <$> users.

(** [data: { lastLogin: new Date() }], the update of [authorize]: it names
    no other column. *)
Definition set_lastLogin (now : Z) (u : User) : User :=
  mkUser (u_id u) (u_name u) (u_username u) (u_email u) (u_password u)
    (u_isActive u) (u_isFirstLogin u) (u_mustChangePassword u) (Some now)
    (u_updatedAt u).

(** [data: { password: hashedNewPassword, isFirstLogin: false,
    mustChangePassword: false, updatedAt: new Date() }], the update of
    the change-password handler. *)
Definition set_password (hashed : string) (now : Z) (u : User) : User :=
  mkUser (u_id u) (u_name u) (u_username u) (u_email u) hashed
    (u_isActive u) false false (u_lastLogin u) now.

(** Whether the calls to the database made by one request resolve; a call
    that rejects is caught by the handler's [catch]. *)
Record DbCalls := mkDbCalls {
  find_resolves : bool;
  update_resolves : bool;
  audit_resolves : bool }.

(** The [jwt] callback: the flags are copied at sign-in, when [user] is
    given. *)
Definition jwt (token : Token) (user : option AuthUser) : Token :=
  match user with
  | Some u =>
      mkToken (t_sub token) (Some (a_username u)) (a_isFirstLogin u)
        (a_mustChangePassword u)
  | None => token
  end.

Section Auth.
(** [bcryptjs.compare(password, hash)], [bcryptjs.hash(password, rounds)]
    and the [length] of a JavaScript string.  The two promises of the
    library are taken to resolve: both get strings here, and the library
    rejects arguments of another type only. *)
Variable compare : string -> string -> bool.
Variable hash : string -> nat -> string.
Variable js_length : string -> nat.

(** [authorize(credentials)]: what it returns, and the user table
    afterwards. *)
Definition authorize (credentials : option Credentials) (now : Z) (db : DbCalls)
    (users : list User) : option AuthUser * list User :=
  match credentials with
  | None => (None, users)
  | Some c =>
      let username := js_or (c_username c) "" in
      let password := js_or (c_password c) "" in
      if String.eqb username "" || String.eqb password "" then (None, users)
      else if negb (find_resolves db) then (None, users)
      else
        match find_by_username username users with
        | None => (None, users)
        | Some user =>
            if negb (u_isActive user) then (None, users)
            else if negb (compare password (u_password user)) then (None, users)
            else if negb (update_resolves db) then (None, users)
            else
              (Some (mkAuthUser (u_id user) (u_name user) (u_username user)
                       (u_email user) (u_isFirstLogin user) (u_mustChangePassword user)),
               update_by_id (u_id user) (set_lastLogin now) users)
        end
  end.

(** [POST /api/auth/change-password]: the status of the answer and the
    user table afterwards.  [session_user_id] is [session?.user?.id];
    [body] is the parsed request body with its two fields, [None] when it
    cannot be read; [now] is the value of [new Date()] in the update. *)
Definition change_password (session_user_id : option string)
    (body : option (option string * option string)) (now : Z) (db : DbCalls)
    (users : list User) : nat * list User :=
  match session_user_id with
  | None => (401%nat, users)
  | Some id =>
      if String.eqb id "" then (401%nat, users)
      else
        match body with
        | None => (500%nat, users)
        | Some (currentPassword, newPassword) =>
            let currentPassword := js_or currentPassword "" in
            let newPassword := js_or newPassword "" in
            if String.eqb currentPassword "" || String.eqb newPassword ""
            then (400%nat, users)
            else if (js_length newPassword <? 8)%nat then (400%nat, users)
            else if negb (find_resolves db) then (500%nat, users)
            else
              match find_by_id id users with
              | None => (404%nat, users)
              | Some user =>
                  if negb (compare currentPassword (u_password user))
                  then (400%nat, users)
                  else if negb (update_resolves db) then (500%nat, users)
                  else
                    let users' :=
                      update_by_id (u_id user)
                        (set_password (hash newPassword 12) now) users in
                    if negb (audit_resolves db) then (500%nat, users')
                    else (200%nat, users')
              end
        end
  end.
End Auth.

(** ** Paths (download/route.ts, FileList.tsx, the file browser page) *)

(** [s.split(sep)] for a separator of one character: the segments between
    the separators, at least one. *)
Fixpoint split_on (sep : ascii) (s : string) : list string :=
  match s with
  | EmptyString => [EmptyString]
  | String c rest =>
      if Ascii.eqb c sep then EmptyString :: split_on sep rest
      else
        match split_on sep rest with
        | seg :: segs => String c seg :: segs
        | [] => [String c EmptyString]
        end
  end.

(** [parts.join(sep)]. *)
Definition join (sep : ascii) (parts : list string) : string :=
  String.concat (String sep EmptyString) parts.

(** [path.replace(/^\/+/, '')]: the leading slashes are removed. *)
Fixpoint strip_leading_slashes (path : string) : string :=
  match path with
  | String c rest => if Ascii.eqb c "/" then strip_leading_slashes rest else path
  | EmptyString => EmptyString
  end.

(** [currentPath.replace(/\/+$/, '')]: the trailing slashes are removed. *)
Fixpoint strip_trailing_slashes (path : string) : string :=
  match path with
  | EmptyString => EmptyString
  | String c rest =>
      let rest' := strip_trailing_slashes rest in
      if Ascii.eqb c "/" && String.eqb rest' "" then EmptyString else String c rest'
  end.

(** [path.split('/').pop() || 'download'] (download/route.ts, lines 40
    and 65). *)
Definition filename_of (path : string) : string :=
  js_or (last (split_on "/" path)) "download".

(** [fullPath] of [handleDownload] (FileList.tsx, line 134): the path the
    browser sends for the file [name] shown in the directory
    [currentPath]. *)
Definition download_path (currentPath name : string) : string :=
  if String.eqb currentPath "" then name
  else strip_trailing_slashes currentPath +:+ "/" +:+ name.

(** *** GET /api/rclone/download (download/route.ts) *)

(** What the handler reads from the daemon's answer: the status line,
    whether there is a body, and the two headers. *)
Record DownloadAnswer := mkDownloadAnswer {
  da_status : nat;
  da_statusText : string;
  da_body : bool;
  da_contentLength : option string;
  da_contentType : option string }.

(** The answers of the handler: 401, 400, the file (200 with its
    Content-Type, Content-Disposition and optional Content-Length), the
    JSON of a failed download, the JSON of the [catch] block. *)
Inductive DownloadResponse :=
| DownloadUnauthorized
| DownloadBadRequest
| DownloadFile (contentType disposition : string) (contentLength : option string)
| DownloadNotAccessible (status : nat) (details filename remote path : string)
| DownloadFailed (details : string).

Definition download_status (r : DownloadResponse) : nat :=
  match r with
  | DownloadUnauthorized => 401
  | DownloadBadRequest => 400
  | DownloadFile _ _ _ => 200
  | DownloadNotAccessible status _ _ _ _ => status
  | DownloadFailed _ => 500
  end.

Section Download.
(** The address of the daemon and the two encoders of the platform.  The
    encoders are taken to return: they throw on a lone surrogate only. *)
Variable RCLONE_RC_URL : string.
Variables encodeURI encodeURIComponent : string -> string.

Definition downloadUrl (remote path : string) : string :=
  RCLONE_RC_URL +:+ "/[" +:+ remote +:+ ":]/" +:+ encodeURI (strip_leading_slashes path).

(** The handler: [session] is whether [getServerSession] finds a
    session, [remote] and [path] are the query parameters, [daemon url]
    is what [fetch(url)] yields.  The result is the answer and the
    address that was fetched, if any. *)
Definition download_GET (session : bool) (remote path : option string)
    (daemon : string -> Thrown + DownloadAnswer)
    : DownloadResponse * option string :=
  if negb session then (DownloadUnauthorized, None)
  else
    match remote, path with
    | Some remote, Some path =>
        if String.eqb remote "" || String.eqb path ""
        then (DownloadBadRequest, None)
        else
          let url := downloadUrl remote path in
          (match daemon url with
           | inl e => DownloadFailed (error_message e)
           | inr response =>
               if response_ok (da_status response) && da_body response then
                 DownloadFile
                   (js_or (da_contentType response) "application/octet-stream")
                   ("attachment; filename=" +:+ dquote
                    +:+ encodeURIComponent (filename_of path) +:+ dquote)
                   (match da_contentLength response with
                    | Some n => if String.eqb n "" then None else Some n
                    | None => None
                    end)
               else
                 DownloadNotAccessible
                   (if (da_status response =? 404)%nat then 404 else 500)
                   ("HTTP " +:+ pretty (da_status response) +:+ ": "
                    +:+ da_statusText response)
                   (filename_of path) remote path
           end, Some url)
    | _, _ => (DownloadBadRequest, None)
    end.
End Download.

(** *** The breadcrumb trail of the file browser page *)

Record BreadcrumbItem := mkBreadcrumbItem {
  bc_name : string;
  bc_path : string }.

(** [currentPath.split('/').filter(Boolean)]. *)
Definition pathParts (currentPath : string) : list string :=
  List.filter (fun part => negb (String.eqb part "")) (split_on "/" currentPath).

(** [generateBreadcrumbs()], with the state it reads as arguments. *)
Definition generateBreadcrumbs (selectedRemote : option string)
    (currentPath : string) : list BreadcrumbItem :=
  match selectedRemote with
  | Some remote =>
      if String.eqb remote "" || String.eqb currentPath "" then []
      else
        let parts := pathParts currentPath in
        mkBreadcrumbItem remote ""
        :: imap (fun index part =>
                   mkBreadcrumbItem part (join "/" (take (S index) parts))) parts
  | None => []
  end.

(** [newPath] of [handleFileClick] and [handleFileDoubleClick]: the path
    after the directory [name] was opened. *)
Definition open_directory (currentPath name : string) : string :=
  if String.eqb currentPath "" then name else currentPath +:+ "/" +:+ name.

(** * Properties *)

(** ** Comparison and merge *)





(** ** Reading and writing a plain object *)

Lemma js_get_own {A} `{OwnProperties A} (o : PlainObject A) key a :
  own o !! key = Some a -> js_get o key = JsObject a.
Proof. unfold js_get. by intros ->. Qed.

Lemma js_get_inherited {A} `{OwnProperties A} (o : PlainObject A) key :
  own o !! key = None -> js_get o key = js_inherited o key.
Proof. unfold js_get. by intros ->. Qed.

Lemma js_set_own {A} (o : PlainObject A) key a :
  key <> "__proto__" \/ is_Some (own o !! key) ->
  js_set o key a = mkPlainObject (<[key := a]> (own o)) (prototype o).
Proof.
  unfold js_set. intros [Hne|[a' ->]]; [|done].
  apply String.eqb_neq in Hne. rewrite Hne. by destruct (own o !! key).
Qed.


(** An assignment never removes an own property, and changes no other
    own property than the one it names. *)
Lemma js_set_lookup {A} (o : PlainObject A) key a r :
  own (js_set o key a) !! r
  = if bool_decide (r = key)
    then (if String.eqb key "__proto__" then own o !! key ≫= (fun _ => Some a)
          else Some a)
    else own o !! r.
Proof.
  unfold js_set. case_bool_decide as E.
  - subst r. destruct (own o !! key) as [a'|] eqn:Ho; simpl.
    + rewrite lookup_insert_eq. by destruct (String.eqb key "__proto__").
    + destruct (String.eqb key "__proto__"); simpl; [done|].
      by rewrite lookup_insert_eq.
  - destruct (own o !! key); simpl; [by rewrite lookup_insert_ne|].
    destruct (String.eqb key "__proto__"); simpl; [done|].
    by rewrite lookup_insert_ne.
Qed.

Lemma js_set_lookup_ne {A} (o : PlainObject A) key a r :
  r <> key -> own (js_set o key a) !! r = own o !! r.
Proof. intros Hne. rewrite js_set_lookup. by rewrite bool_decide_eq_false_2. Qed.

Lemma js_set_keeps {A} (o : PlainObject A) key a r :
  is_Some (own o !! r) -> is_Some (own (js_set o key a) !! r).
Proof.
  intros [a' Hr]. rewrite js_set_lookup. case_bool_decide as E; [|by rewrite Hr].
  subst r. rewrite Hr. simpl. by destruct (String.eqb key "__proto__").
Qed.



Lemma js_set_no_proto {A} (o : PlainObject A) key a :
  own o !! "__proto__" = None -> own (js_set o key a) !! "__proto__" = None.
Proof.
  intros Ho. rewrite js_set_lookup. case_bool_decide as E; [|done].
  subst key. simpl. by rewrite Ho.
Qed.

(** A name that is no property of a record, nor "__proto__", nor the name
    of a function of [Object.prototype], yields nothing up the chain. *)
Lemma js_inherited_undefined {A} `{OwnProperties A} (o : PlainObject A) key :
  (forall p, own_property p key = None) ->
  key <> "__proto__" -> key ∉ Object_prototype_functions ->
  js_inherited o key = JsUndefined.
Proof.
  intros Hp Hne Hn. unfold js_inherited.
  apply String.eqb_neq in Hne. rewrite Hne, bool_decide_eq_false_2 by done.
  destruct (prototype o) as [p|]; simpl; [by rewrite Hp | done].
Qed.

(** The name of a function of [Object.prototype] that is no property of a
    record yields that function. *)
Lemma js_inherited_function {A} `{OwnProperties A} (o : PlainObject A) key :
  (forall p, own_property p key = None) ->
  key ∈ Object_prototype_functions -> js_inherited o key = JsBuiltin.
Proof.
  intros Hp Hin. unfold js_inherited.
  assert (Hne : String.eqb key "__proto__" = false).
  { apply String.eqb_neq. intros ->. apply list_elem_of_In in Hin.
    simpl in Hin. repeat destruct Hin as [Hin|Hin]; try discriminate Hin; done. }
  rewrite Hne, (bool_decide_eq_true_2 _ Hin).
  destruct (prototype o) as [p|]; simpl; [by rewrite Hp | done].
Qed.

Lemma StorageData_no_property (p : StorageData) key :
  key ∉ inherited_names -> own_property p key = None.
Proof.
  intros Hn.
  assert (H : forall n, In n inherited_names -> String.eqb key n = false).
  { intros n Hin. apply String.eqb_neq. intros ->. by apply Hn, list_elem_of_In. }
  unfold own_property, StorageData_properties.
  rewrite (H "total"), (H "used"), (H "free"), (H "lastUpdated"), (H "error");
    (done || (simpl; tauto)).
Qed.


(** A name outside [inherited_names] yields nothing up the chain. *)
Lemma inherited_undefined (o : PlainObject StorageData) key :
  key ∉ inherited_names -> js_inherited o key = JsUndefined.
Proof.
  intros Hn. apply js_inherited_undefined.
  - intros p. by apply StorageData_no_property.
  - intros ->. apply Hn. by left.
  - intros Hin. apply Hn. unfold inherited_names. right. apply elem_of_app. by left.
Qed.


Lemma holds_set {A} (o : PlainObject A) key a r d :
  holds (js_set o key a) r d -> holds o r d \/ (r = key /\ d = a).
Proof.
  unfold holds, js_set. destruct (own o !! key) as [a'|] eqn:Ho; simpl.
  - intros [H|H]; [|by left; right].
    destruct (decide (r = key)) as [->|Hne].
    + rewrite lookup_insert_eq in H. injection H as <-. by right.
    + rewrite lookup_insert_ne in H by done. by left; left.
  - destruct (String.eqb key "__proto__") eqn:E; simpl.
    + apply String.eqb_eq in E as ->. intros [H|[-> [= <-]]]; [by left; left | by right].
    + intros [H|H]; [|by left; right].
      destruct (decide (r = key)) as [->|Hne].
      * rewrite lookup_insert_eq in H. injection H as <-. by right.
      * rewrite lookup_insert_ne in H by done. by left; left.
Qed.

(** ** What a publish leaves alone *)

Lemma handleStorageUpdate_frame c u now s :
  let s' := handleStorageUpdate c u now s in
  storageCache s' = storageCache s /\ backgroundJobRunning s' = backgroundJobRunning s
  /\ backgroundJobTimer s' = backgroundJobTimer s /\ jobs s' = jobs s
  /\ next_job s' = next_job s /\ timers s' = timers s /\ next_timer s' = next_timer s.
Proof.
  unfold handleStorageUpdate, enqueue.
  destruct (conns s !! c) as [k|]; [destruct (closed k)|]; simpl; auto 10.
Qed.

Lemma forEach_from_frame fuel : forall i now s,
  let s' := forEach_from fuel i now s in
  storageCache s' = storageCache s /\ backgroundJobRunning s' = backgroundJobRunning s
  /\ backgroundJobTimer s' = backgroundJobTimer s /\ jobs s' = jobs s
  /\ next_job s' = next_job s /\ timers s' = timers s /\ next_timer s' = next_timer s.
Proof.
  induction fuel as [|fuel IH]; intros i now s; simpl; [auto 10|].
  destruct (storageSubscribers s !! i) as [[c|]|]; [| apply IH | auto 10].
  specialize (IH (S i) now (handleStorageUpdate c (storageCache s) now s)).
  pose proof (handleStorageUpdate_frame c (storageCache s) now s) as H.
  simpl in *. intuition congruence.
Qed.

(** ** Runs and reachable states *)

Lemma run_app evs1 : forall evs2 s,
  run (evs1 ++ evs2) s =
  let '(s1, l1) := run evs1 s in
  let '(s2, l2) := run evs2 s1 in (s2, l1 ++ l2).
Proof.
  induction evs1 as [|e evs1 IH]; intros evs2 s; simpl.
  - destruct (run evs2 s); reflexivity.
  - destruct (step e s) as [s1 l1]. rewrite IH.
    destruct (run evs1 s1) as [s2 l2]. destruct (run evs2 s2) as [s3 l3].
    by rewrite app_assoc.
Qed.

Lemma reachable_ind' (P : Sys -> Prop) :
  P initial ->
  (forall e s, reachable s -> P s -> P (step e s).1) ->
  forall s, reachable s -> P s.
Proof.
  intros H0 Hstep s [evs <-].
  induction evs as [|e evs IH] using rev_ind; [exact H0|].
  rewrite run_app. destruct (run evs initial) as [s1 l1] eqn:E1. simpl.
  specialize (Hstep e s1). destruct (step e s1) as [s2 l2]. simpl in *.
  apply Hstep; [by exists evs; rewrite E1 | exact IH].
Qed.

(** ** The scheduler invariant *)

Lemma fresh_batch_fst (l : list string) : ((fun r => (r, false)) <$> l).*1 = l.
Proof. rewrite <- list_fmap_compose. apply list_fmap_id. Qed.

Lemma fresh_batch_unsettled (l : list string) :
  l <> [] -> forallb snd ((fun r => (r, false)) <$> l) = false.
Proof. destruct l; [done | reflexivity]. Qed.

Lemma batch_ok_first remotes :
  remotes <> [] ->
  batch_ok remotes (drop concurrentLimit remotes)
    ((fun r => (r, false)) <$> take concurrentLimit remotes).
Proof.
  intros Hne. exists 0%nat. rewrite fresh_batch_fst. simpl. repeat split.
  - destruct remotes; [done | discriminate].
  - apply fresh_batch_unsettled. destruct remotes; [done | discriminate].
Qed.

Lemma batch_ok_next remotes remotesToCheck batch :
  batch_ok remotes remotesToCheck batch -> remotesToCheck <> [] ->
  batch_ok remotes (drop concurrentLimit remotesToCheck)
    ((fun r => (r, false)) <$> take concurrentLimit remotesToCheck).
Proof.
  intros (k & _ & -> & _ & _) Hne. exists (S k). rewrite fresh_batch_fst.
  assert (Hk : (concurrentLimit * S k = concurrentLimit * k + concurrentLimit)%nat) by lia.
  rewrite Hk. repeat split.
  - by rewrite drop_drop.
  - destruct (drop _ remotes); [done | discriminate].
  - apply fresh_batch_unsettled. destruct (drop _ remotes); [done | discriminate].
Qed.

Lemma batch_ok_settle remotes remotesToCheck batch index remote :
  batch_ok remotes remotesToCheck batch ->
  batch !! index = Some (remote, false) ->
  forallb snd (<[index := (remote, true)]> batch) = false ->
  batch_ok remotes remotesToCheck (<[index := (remote, true)]> batch).
Proof.
  intros (k & Hb & Ht & Hne & _) Hi Hf. exists k. repeat split; auto.
  - rewrite list_fmap_insert. simpl. rewrite list_insert_id; [done|].
    rewrite list_lookup_fmap, Hi. reflexivity.
  - intros E. apply (f_equal length) in E. rewrite length_insert in E.
    destruct batch; [done | discriminate].
Qed.

Lemma sched_inv_ext s s' :
  jobs s' = jobs s -> backgroundJobRunning s' = backgroundJobRunning s ->
  sched_inv s -> sched_inv s'.
Proof. unfold sched_inv. intros -> ->. done. Qed.

Lemma find_job_single id j j' :
  find_job id [j] = Some j' -> j' = j /\ job_id j = id.
Proof.
  unfold find_job. simpl. case_bool_decide; [|discriminate]. intros [= <-]. done.
Qed.

Lemma update_job_single j j' :
  job_id j' = job_id j -> update_job j' [j] = [j'].
Proof. intros E. unfold update_job. simpl. rewrite E. by rewrite bool_decide_eq_true_2. Qed.

Lemma remove_job_single j : remove_job (job_id j) [j] = [].
Proof. unfold remove_job. simpl. by rewrite bool_decide_eq_true_2. Qed.

Lemma sched_inv_find s id j :
  sched_inv s -> find_job id (jobs s) = Some j ->
  jobs s = [j] /\ job_id j = id /\ backgroundJobRunning s = true /\ phase_ok (job_phase j).
Proof.
  unfold sched_inv. destruct (jobs s) as [|j0 [|j1 js]]; [discriminate| |done].
  intros [Hr Hp] Hf. apply find_job_single in Hf as [-> <-]. done.
Qed.

Lemma runStorageCheckJob_inv m s :
  sched_inv s -> sched_inv (runStorageCheckJob m s).1.
Proof.
  unfold runStorageCheckJob.
  destruct (backgroundJobRunning s) eqn:Hr; simpl; [done|].
  unfold sched_inv. simpl. rewrite Hr.
  destruct (jobs s) as [|j0 [|j1 js]]; simpl; [done | intros [? _]; congruence | done].
Qed.

Lemma finally_jobs j s :
  jobs (finally j s).1 = remove_job (job_id j) (jobs s)
  /\ backgroundJobRunning (finally j s).1 = false.
Proof. unfold finally. simpl. destruct (backgroundJobTimer s); done. Qed.

Lemma finally_inv j s : jobs s = [j] -> sched_inv (finally j s).1.
Proof.
  intros Hj. destruct (finally_jobs j s) as [E1 E2]. unfold sched_inv.
  rewrite E1, Hj, remove_job_single. exact E2.
Qed.

Lemma notifySubscribers_frame now s :
  let s' := notifySubscribers now s in
  storageCache s' = storageCache s /\ backgroundJobRunning s' = backgroundJobRunning s
  /\ backgroundJobTimer s' = backgroundJobTimer s /\ jobs s' = jobs s
  /\ next_job s' = next_job s /\ timers s' = timers s /\ next_timer s' = next_timer s.
Proof. apply forEach_from_frame. Qed.

Lemma complete_inv j hasUpdates now s :
  jobs s = [j] -> sched_inv (complete j hasUpdates now s).1.
Proof.
  intros Hj. unfold complete.
  destruct (finally j (if hasUpdates then notifySubscribers now s else s)) as [s2 l] eqn:E.
  simpl. change s2 with (s2, l).1. rewrite <- E. apply finally_inv.
  destruct hasUpdates; [|done].
  destruct (notifySubscribers_frame now s) as (_ & _ & _ & -> & _). done.
Qed.

Lemma enter_batch_inv j remotes remotesToCheck hasUpdates s :
  jobs s = [j] -> backgroundJobRunning s = true ->
  batch_ok remotes (drop concurrentLimit remotesToCheck)
    ((fun r => (r, false)) <$> take concurrentLimit remotesToCheck) ->
  sched_inv (enter_batch j remotes remotesToCheck hasUpdates s).1.
Proof.
  intros Hj Hr Hb. unfold enter_batch, sched_inv. simpl.
  rewrite Hj, update_job_single by done. done.
Qed.

Lemma probe_settled_inv j index o now s :
  jobs s = [j] -> backgroundJobRunning s = true -> phase_ok (job_phase j) ->
  sched_inv (probe_settled j index o now s).1.
Proof.
  intros Hj Hr Hp.
  assert (Hs : sched_inv s) by (by unfold sched_inv; rewrite Hj).
  unfold probe_settled.
  destruct (job_phase j) as [|remotes remotesToCheck batch hasUpdates] eqn:Hph;
    [exact Hs|].
  destruct (batch !! index) as [[remote [|]]|] eqn:Hi; try exact Hs.
  unfold mergeOne. simpl in Hp.
  set (result := checkRemoteStorage remote o now).
  set (changed := hasChanged (js_get (cacheObject s) remote) result).
  set (s1 := with_cacheObject _ s).
  assert (Hj1 : jobs s1 = [j]) by done.
  destruct (forallb snd (<[index := (remote, true)]> batch)) eqn:Hall.
  - destruct remotesToCheck as [|r rs] eqn:Hrs.
    + destruct (complete j (hasUpdates || changed) now s1) eqn:E. simpl.
      change s0 with (s0, l).1. rewrite <- E. by apply complete_inv.
    + rewrite <- Hrs in *.
      destruct (enter_batch j remotes remotesToCheck (hasUpdates || changed) s1) eqn:E.
      simpl. change s0 with (s0, l).1. rewrite <- E. apply enter_batch_inv; try done.
      eapply batch_ok_next; [exact Hp | by rewrite Hrs].
  - simpl. unfold sched_inv. simpl. rewrite Hj, update_job_single by done.
    split; [done|]. simpl. by apply batch_ok_settle.
Qed.

Lemma remotes_listed_inv j o s :
  jobs s = [j] -> backgroundJobRunning s = true ->
  sched_inv (remotes_listed j o s).1.
Proof.
  intros Hj Hr. unfold remotes_listed.
  destruct (getRemotesList o) as [|r rs] eqn:E; [by apply finally_inv|].
  apply enter_batch_inv; try done. by apply batch_ok_first.
Qed.

Lemma startBackgroundJob_inv m s :
  sched_inv s -> sched_inv (startBackgroundJob m s).1.
Proof.
  unfold startBackgroundJob. destruct (backgroundJobTimer s); [done|].
  apply runStorageCheckJob_inv.
Qed.

Lemma step_sched_inv e s : sched_inv s -> sched_inv (step e s).1.
Proof.
  intros Hinv. destruct e as [m|t|id o|id index o now|session|session|session now|c now|c|c]; simpl.
  - by apply runStorageCheckJob_inv.
  - destruct (List.find _ (timers s)) as [[t' m]|]; [|done].
    apply runStorageCheckJob_inv. by eapply sched_inv_ext; [| |exact Hinv].
  - destruct (find_job id (jobs s)) as [j|] eqn:Hf; [|done].
    destruct (sched_inv_find _ _ _ Hinv Hf) as (Hj & _ & Hr & Hp).
    destruct (job_phase j); [by apply remotes_listed_inv | done].
  - destruct (find_job id (jobs s)) as [j|] eqn:Hf; [|done].
    destruct (sched_inv_find _ _ _ Hinv Hf) as (Hj & _ & Hr & Hp).
    by apply probe_settled_inv.
  - unfold pull_GET. pose proof (startBackgroundJob_inv PullRoute s Hinv).
    by destruct (startBackgroundJob PullRoute s).
  - unfold pull_POST.
    destruct (backgroundJobTimer s) as [t|].
    + pose proof (runStorageCheckJob_inv PullRoute (with_timer None (clearTimeout t s))) as H.
      destruct (runStorageCheckJob PullRoute _). simpl in *. apply H.
      by eapply sched_inv_ext; [| |exact Hinv].
    + pose proof (runStorageCheckJob_inv PullRoute s Hinv) as H.
      by destruct (runStorageCheckJob PullRoute s).
  - unfold stream_GET. destruct session; simpl; [|done].
    pose proof (startBackgroundJob_inv StreamRoute s Hinv) as H.
    destruct (startBackgroundJob StreamRoute s) as [s1 l]. simpl in *.
    by eapply sched_inv_ext; [| |exact H].
  - eapply sched_inv_ext; [| |exact Hinv]; unfold heartbeat_tick, enqueue, stop_heartbeat;
      destruct (conns s !! c) as [k|]; try done;
      destruct (heartbeat k), (closed k); simpl; try done;
      rewrite ?Hc; done.
  - eapply sched_inv_ext; [| |exact Hinv]; unfold on_abort, stop_heartbeat;
      destruct (conns s !! c) as [k|]; done.
  - eapply sched_inv_ext; [| |exact Hinv]; unfold sink_closed;
      destruct (conns s !! c) as [k|]; done.
Qed.

Lemma finally_spec j s :
  let '(s', l) := finally j s in
  storageCache s' = storageCache s
  /\ storageSubscribers s' = storageSubscribers s
  /\ conns s' = conns s
  /\ backgroundJobRunning s' = false
  /\ backgroundJobTimer s' = Some (next_timer s)
  /\ (next_timer s, job_owner j) ∈ timers s'
  /\ next_timer s' = S (next_timer s)
  /\ jobs s' = remove_job (job_id j) (jobs s)
  /\ next_job s' = next_job s
  /\ exists pre, l = pre ++ [LSetTimeout (next_timer s) (job_owner j) (interval (job_owner j));
                              LJobEnd (job_id j)]
       /\ Forall (fun lab => exists t, lab = LClearTimeout t) pre.
Proof.
  unfold finally. simpl. destruct (backgroundJobTimer s) as [t|]; simpl.
  - repeat split; try done.
    + apply elem_of_app. right. apply list_elem_of_singleton. done.
    + exists [LClearTimeout t]. split; [done|]. repeat constructor. by exists t.
  - repeat split; try done.
    + apply elem_of_app. right. apply list_elem_of_singleton. done.
    + exists []. split; [done|]. constructor.
Qed.

(** ** The job: what its continuations change *)

Lemma complete_spec j hasUpdates now s :
  let '(s', l) := complete j hasUpdates now s in
  storageCache s' = storageCache s
  /\ backgroundJobRunning s' = false
  /\ backgroundJobTimer s' = Some (next_timer s)
  /\ (next_timer s, job_owner j) ∈ timers s'
  /\ jobs s' = remove_job (job_id j) (jobs s)
  /\ next_job s' = next_job s
  /\ exists pre,
       l = (if hasUpdates then [LNotify (job_id j)] else []) ++ pre
           ++ [LSetTimeout (next_timer s) (job_owner j) (interval (job_owner j));
               LJobEnd (job_id j)]
       /\ Forall (fun lab => exists t, lab = LClearTimeout t) pre.
Proof.
  unfold complete.
  set (s1 := if hasUpdates then notifySubscribers now s else s).
  assert (Hfr : storageCache s1 = storageCache s /\ jobs s1 = jobs s
                /\ next_job s1 = next_job s /\ next_timer s1 = next_timer s).
  { subst s1. destruct hasUpdates; [|done].
    destruct (notifySubscribers_frame now s) as (? & ? & ? & ? & ? & ? & ?). done. }
  destruct Hfr as (Hc & Hj & Hn & Ht).
  pose proof (finally_spec j s1) as H. destruct (finally j s1) as [s2 l].
  destruct H as (? & _ & _ & ? & ? & ? & _ & ? & ? & pre & -> & Hpre).
  rewrite Ht in *. repeat split; try congruence.
  by exists pre.
Qed.

(** The prototype of the cache object is changed by none of these. *)
Lemma forEach_from_prototype fuel : forall i now s,
  cachePrototype (forEach_from fuel i now s) = cachePrototype s.
Proof.
  induction fuel as [|fuel IH]; intros i now s; simpl; [done|].
  destruct (storageSubscribers s !! i) as [[c|]|]; [|apply IH|done].
  rewrite IH. unfold handleStorageUpdate, enqueue.
  destruct (conns s !! c) as [k|]; [by destruct (closed k)|done].
Qed.

Lemma finally_prototype j s : cachePrototype (finally j s).1 = cachePrototype s.
Proof. unfold finally. simpl. by destruct (backgroundJobTimer s). Qed.

Lemma complete_prototype j hasUpdates now s :
  cachePrototype (complete j hasUpdates now s).1 = cachePrototype s.
Proof.
  unfold complete.
  pose proof (finally_prototype j (if hasUpdates then notifySubscribers now s else s)) as H.
  destruct (finally j _) as [s2 l]. simpl in *. rewrite H.
  destruct hasUpdates; [apply forEach_from_prototype | done].
Qed.

Lemma complete_cacheObject j hasUpdates now s :
  cacheObject (complete j hasUpdates now s).1 = cacheObject s.
Proof.
  unfold cacheObject. rewrite complete_prototype.
  pose proof (complete_spec j hasUpdates now s) as H.
  destruct (complete j hasUpdates now s) as [s' l]. destruct H as (H & _).
  simpl. by rewrite H.
Qed.

Lemma cacheObject_with (c : PlainObject StorageData) s :
  cacheObject (with_cacheObject c s) = c.
Proof. by destruct c. Qed.

Lemma runStorageCheckJob_absorbed m s :
  backgroundJobRunning s = true -> runStorageCheckJob m s = (s, []).
Proof. unfold runStorageCheckJob. by intros ->. Qed.

Lemma startBackgroundJob_absorbed m s :
  backgroundJobRunning s = true -> startBackgroundJob m s = (s, []).
Proof.
  intros Hr. unfold startBackgroundJob.
  destruct (backgroundJobTimer s); [done | by apply runStorageCheckJob_absorbed].
Qed.

Lemma probe_settled_cache j index o now s remotes remotesToCheck batch hasUpdates remote :
  job_phase j = AwaitBatch remotes remotesToCheck batch hasUpdates ->
  batch !! index = Some (remote, false) ->
  cacheObject (probe_settled j index o now s).1
  = (mergeOne remote (checkRemoteStorage remote o now) (cacheObject s)).1.
Proof.
  intros Hph Hi. unfold probe_settled. rewrite Hph, Hi.
  destruct (mergeOne remote (checkRemoteStorage remote o now) (cacheObject s))
    as [cache changed].
  set (s1 := with_cacheObject cache s).
  destruct (forallb snd (<[index:=(remote, true)]> batch)).
  - destruct remotesToCheck as [|r rs].
    + pose proof (complete_cacheObject j (hasUpdates || changed) now s1) as H.
      destruct (complete j (hasUpdates || changed) now s1) as [s2 l].
      simpl in *. rewrite H. apply cacheObject_with.
    + simpl. by destruct cache.
  - simpl. by destruct cache.
Qed.

(** A request, a timer or a heartbeat that arrives while a call of the job
    is suspended changes neither the cache nor the suspended call. *)
Lemma step_other_while_running e s :
  is_daemon_event e = false -> backgroundJobRunning s = true ->
  let s' := (step e s).1 in
  storageCache s' = storageCache s /\ jobs s' = jobs s
  /\ backgroundJobRunning s' = true /\ next_job s' = next_job s.
Proof.
  intros He Hr.
  destruct e as [m|t|id o|id index o now|session|session|session now|c now|c|c];
    try discriminate He; simpl.
  - by rewrite runStorageCheckJob_absorbed.
  - destruct (List.find _ (timers s)) as [[t' m]|]; [|done].
    by rewrite runStorageCheckJob_absorbed.
  - unfold pull_GET. by rewrite startBackgroundJob_absorbed.
  - unfold pull_POST. destruct (backgroundJobTimer s) as [t|];
      by rewrite runStorageCheckJob_absorbed.
  - unfold stream_GET. destruct session; [|done]. simpl.
    by rewrite startBackgroundJob_absorbed.
  - unfold heartbeat_tick, enqueue, stop_heartbeat.
    destruct (conns s !! c) as [k|] eqn:Hc; [|done].
    destruct (heartbeat k); [|done]. by destruct (closed k).
  - unfold on_abort, stop_heartbeat. by destruct (conns s !! c).
  - unfold sink_closed. by destruct (conns s !! c).
Qed.

(** A request, a timer or a heartbeat leaves the cache object alone. *)
Lemma step_other_cache e s :
  is_daemon_event e = false -> cacheObject (step e s).1 = cacheObject s.
Proof.
  intros He.
  assert (Hrun : forall m s0, cacheObject (runStorageCheckJob m s0).1 = cacheObject s0).
  { intros m s0. unfold runStorageCheckJob. by destruct (backgroundJobRunning s0). }
  assert (Hstart : forall m s0, cacheObject (startBackgroundJob m s0).1 = cacheObject s0).
  { intros m s0. unfold startBackgroundJob. by destruct (backgroundJobTimer s0). }
  destruct e as [m|t|id o|id index o now|session|session|session now|c now|c|c];
    try discriminate He; simpl.
  - apply Hrun.
  - destruct (List.find _ (timers s)) as [[t' m]|]; [|done]. by rewrite Hrun.
  - unfold pull_GET. specialize (Hstart PullRoute s).
    by destruct (startBackgroundJob PullRoute s).
  - unfold pull_POST. destruct (backgroundJobTimer s) as [t|].
    + specialize (Hrun PullRoute (with_timer None (clearTimeout t s))).
      by destruct (runStorageCheckJob PullRoute _).
    + specialize (Hrun PullRoute s). by destruct (runStorageCheckJob PullRoute s).
  - unfold stream_GET. destruct session; [|done]. simpl.
    specialize (Hstart StreamRoute s). by destruct (startBackgroundJob StreamRoute s).
  - unfold heartbeat_tick, enqueue, stop_heartbeat.
    destruct (conns s !! c) as [k|] eqn:Hc; [|done].
    destruct (heartbeat k); [|done]. by destruct (closed k).
  - unfold on_abort, stop_heartbeat. by destruct (conns s !! c).
  - unfold sink_closed. by destruct (conns s !! c).
Qed.

Lemma run_other_cache evs : forall s,
  forallb (fun e => negb (is_daemon_event e)) evs = true ->
  cacheObject (run evs s).1 = cacheObject s.
Proof.
  induction evs as [|e evs IH]; intros s Hall; simpl; [done|].
  simpl in Hall. apply andb_true_iff in Hall as [He Hall].
  apply negb_true_iff in He.
  pose proof (step_other_cache e s He) as H.
  destruct (step e s) as [s1 l1]. simpl in H.
  specialize (IH s1 Hall). destruct (run evs s1) as [s2 l2]. simpl in *.
  congruence.
Qed.

Lemma run_other_while_running evs : forall s,
  forallb (fun e => negb (is_daemon_event e)) evs = true ->
  backgroundJobRunning s = true ->
  let s' := (run evs s).1 in
  storageCache s' = storageCache s /\ jobs s' = jobs s
  /\ backgroundJobRunning s' = true /\ next_job s' = next_job s.
Proof.
  induction evs as [|e evs IH]; intros s Hall Hr; simpl; [done|].
  simpl in Hall. apply andb_true_iff in Hall as [He Hall].
  apply negb_true_iff in He.
  pose proof (step_other_while_running e s He Hr) as H.
  destruct (step e s) as [s1 l1]. simpl in H. destruct H as (Hc & Hj & Hr1 & Hn).
  specialize (IH s1 Hall Hr1). destruct (run evs s1) as [s2 l2]. simpl in *.
  destruct IH as (? & ? & ? & ?). repeat split; congruence.
Qed.

Lemma reachable_sched_inv s : reachable s -> sched_inv s.
Proof.
  revert s. apply reachable_ind'; [reflexivity|].
  intros e s _ H. by apply step_sched_inv.
Qed.

Lemma reachable_initial : reachable initial.
Proof. by exists []. Qed.

Lemma reachable_step e s : reachable s -> reachable (step e s).1.
Proof.
  intros [evs <-]. exists (evs ++ [e]). rewrite run_app.
  destruct (run evs initial) as [s1 l1]. simpl.
  destruct (step e s1) as [s2 l2]. done.
Qed.

Lemma reachable_run evs : forall s, reachable s -> reachable (run evs s).1.
Proof.
  induction evs as [|e evs IH]; intros s Hs; simpl; [done|].
  pose proof (reachable_step e s Hs) as H1. destruct (step e s) as [s1 l1].
  specialize (IH s1 H1). by destruct (run evs s1).
Qed.

Lemma getRemotesList_failures (o : FetchOutcome RemotesBody) :
  match o with
  | FetchRejected _ => True
  | FetchResponse status _ body =>
      response_ok status = false \/
      match body with JsonRejects _ => True | JsonObject r => r = None \/ r = Some [] end
  end -> getRemotesList o = [].
Proof.
  destruct o as [e|status txt [e|r]]; simpl; [done| |].
  - by destruct (response_ok status).
  - intros [-> | [-> | ->]]; [done| |]; by destruct (response_ok status).
Qed.

(** ** C4: a listing that fails or is empty *)

(** C4.  A cycle whose listing of the remotes fails or comes back empty
    ends with the cache object (its properties and its prototype) exactly
    as it was when the cycle started, whatever requests, timers and
    heartbeats arrive in between; the in-progress flag is cleared, no call
    of the job stays suspended, no probe is sent, and a timer for the next
    cycle is armed with the delay of the module that ran the cycle. *)
Theorem failed_listing_keeps_cache (s0 : Sys) (m : Owner) (mid : list Event)
    (o : FetchOutcome RemotesBody) :
  reachable s0 -> backgroundJobRunning s0 = false ->
  forallb (fun e => negb (is_daemon_event e)) mid = true ->
  getRemotesList o = [] ->
  let '(s1, l1) := runStorageCheckJob m s0 in
  let '(s2, l2) := run mid s1 in
  let '(s3, l3) := step (EvRemotesListed (next_job s0) o) s2 in
  l1 = [LFetchRemotes (next_job s0)]
  /\ storageCache s2 = storageCache s0
  /\ storageCache s3 = storageCache s0
  /\ cachePrototype s2 = cachePrototype s0
  /\ cachePrototype s3 = cachePrototype s0
  /\ backgroundJobRunning s3 = false
  /\ jobs s3 = []
  /\ backgroundJobTimer s3 = Some (next_timer s2)
  /\ (next_timer s2, m) ∈ timers s3
  /\ LSetTimeout (next_timer s2) m (interval m) ∈ l3
  /\ existsb is_fetch_about l3 = false.
Proof.
  intros Hreach Hr Hmid Ho.
  pose proof (reachable_sched_inv s0 Hreach) as Hinv.
  assert (Hj0 : jobs s0 = []).
  { unfold sched_inv in Hinv. destruct (jobs s0) as [|j0 [|j1 js]]; [done| |done].
    destruct Hinv as [? _]. congruence. }
  unfold runStorageCheckJob. rewrite Hr, Hj0. simpl.
  set (j := mkJob (next_job s0) m AwaitRemotes).
  set (s1 := mkSys _ _ _ _ _ _ _ _ _ _).
  pose proof (run_other_while_running mid s1 Hmid eq_refl) as H.
  pose proof (run_other_cache mid s1 Hmid) as Hp2.
  destruct (run mid s1) as [s2 l2]. simpl in H. destruct H as (Hc & Hj & Hr2 & Hn).
  simpl in Hp2. injection Hp2 as _ Hp2.
  simpl. rewrite Hj. unfold find_job. simpl. rewrite bool_decide_eq_true_2 by done.
  simpl. unfold remotes_listed. rewrite Ho.
  pose proof (finally_spec j s2) as H. pose proof (finally_prototype j s2) as Hp3.
  destruct (finally j s2) as [s3 l3]. simpl in Hp3.
  destruct H as (Hc3 & _ & _ & ? & ? & ? & _ & Hj3 & _ & pre & -> & Hpre).
  rewrite Hj in Hj3. change [j] with ([j] : list Job) in Hj3.
  rewrite (remove_job_single j) in Hj3.
  repeat split; try done; try congruence.
  - apply elem_of_app. right. apply elem_of_cons. by left.
  - rewrite existsb_app. apply orb_false_iff. split; [|done].
    clear -Hpre. induction Hpre as [|lab pre [t ->] _ IH]; [done | exact IH].
Qed.

Lemma failed_listing_keeps_cache_witness :
  let '(s1, l1) := runStorageCheckJob PullRoute initial in
  let '(s2, l2) := run [EvPullGET false] s1 in
  let '(s3, l3) := step (EvRemotesListed 0 (FetchRejected (ThrownError "TypeError" "fetch failed"))) s2 in
  l1 = [LFetchRemotes 0]
  /\ storageCache s2 = ∅
  /\ storageCache s3 = ∅
  /\ cachePrototype s2 = None
  /\ cachePrototype s3 = None
  /\ backgroundJobRunning s3 = false
  /\ jobs s3 = []
  /\ backgroundJobTimer s3 = Some (next_timer s2)
  /\ (next_timer s2, PullRoute) ∈ timers s3
  /\ LSetTimeout (next_timer s2) PullRoute (interval PullRoute) ∈ l3
  /\ existsb is_fetch_about l3 = false.
Proof.
  exact (failed_listing_keeps_cache initial PullRoute [EvPullGET false]
           (FetchRejected (ThrownError "TypeError" "fetch failed"))
           reachable_initial eq_refl eq_refl eq_refl).
Defined.

(** ** C2: at most one cycle in progress *)

Lemma step_job_removed e s j :
  sched_inv s -> jobs s = [j] -> jobs (step e s).1 = [] ->
  backgroundJobRunning (step e s).1 = false
  /\ backgroundJobTimer (step e s).1 = Some (next_timer s)
  /\ (next_timer s, job_owner j) ∈ timers (step e s).1
  /\ LSetTimeout (next_timer s) (job_owner j) (interval (job_owner j)) ∈ (step e s).2
  /\ LJobEnd (job_id j) ∈ (step e s).2.
Proof.
  intros Hinv Hj Hgone.
  assert (Hr : backgroundJobRunning s = true).
  { unfold sched_inv in Hinv. rewrite Hj in Hinv. tauto. }
  destruct (is_daemon_event e) eqn:He.
  - destruct e as [| |id o|id index o now| | | | | |]; try discriminate He; simpl in *.
    + destruct (find_job id (jobs s)) as [j'|] eqn:Hf; [|simpl in Hgone; congruence].
      rewrite Hj in Hf. apply find_job_single in Hf as [-> _].
      destruct (job_phase j) eqn:Hph; [|simpl in Hgone; congruence].
      unfold remotes_listed in *. destruct (getRemotesList o) as [|r rs].
      * pose proof (finally_spec j s) as H. destruct (finally j s) as [s' l].
        destruct H as (_ & _ & _ & ? & ? & ? & _ & _ & _ & pre & -> & _). simpl.
        repeat split; try done; apply elem_of_app; right; set_solver.
      * unfold enter_batch in Hgone. simpl in Hgone.
        rewrite Hj, update_job_single in Hgone by done. discriminate.
    + destruct (find_job id (jobs s)) as [j'|] eqn:Hf; [|simpl in Hgone; congruence].
      rewrite Hj in Hf. apply find_job_single in Hf as [-> _].
      unfold probe_settled in *.
      destruct (job_phase j) as [|remotes remotesToCheck batch hasUpdates];
        [simpl in Hgone; congruence|].
      destruct (batch !! index) as [[remote [|]]|]; try (simpl in Hgone; congruence).
      destruct (mergeOne remote (checkRemoteStorage remote o now) (cacheObject s))
        as [cache changed].
      set (s1 := with_cacheObject cache s) in *.
      destruct (forallb snd (<[index:=(remote, true)]> batch)).
      * destruct remotesToCheck as [|r rs].
        -- pose proof (complete_spec j (hasUpdates || changed) now s1) as H.
           destruct (complete j (hasUpdates || changed) now s1) as [s' l].
           destruct H as (_ & ? & ? & ? & _ & _ & pre & -> & _). simpl.
           repeat split; try done.
           ++ apply elem_of_cons. right. apply elem_of_app. right.
              apply elem_of_app. right. set_solver.
           ++ apply elem_of_cons. right. apply elem_of_app. right.
              apply elem_of_app. right. set_solver.
        -- unfold enter_batch in Hgone. simpl in Hgone.
           rewrite Hj, update_job_single in Hgone by done. discriminate.
      * simpl in Hgone. rewrite Hj, update_job_single in Hgone by done. discriminate.
  - destruct (step_other_while_running e s He Hr) as (_ & Hsame & _). congruence.
Qed.

(** C2.  In every state the process can reach, whatever the interleaving
    of timers, lazy starts of either endpoint, manual refreshes and daemon
    replies, at most one call of the refresh job is in progress, and the
    in-progress flag is set exactly when there is one.  A call of the job
    (or a lazy start) made while the flag is set returns at once and
    changes nothing.  Whenever the call in progress ends, the flag is
    cleared and a new timer is armed with the delay of the module that ran
    the cycle. *)
Theorem at_most_one_cycle :
  (forall s, reachable s ->
     (length (jobs s) <= 1)%nat
     /\ (backgroundJobRunning s = true <-> length (jobs s) = 1%nat))
  /\ (forall m s, backgroundJobRunning s = true ->
        runStorageCheckJob m s = (s, []) /\ startBackgroundJob m s = (s, []))
  /\ (forall e s j, reachable s -> jobs s = [j] -> jobs (step e s).1 = [] ->
        backgroundJobRunning (step e s).1 = false
        /\ backgroundJobTimer (step e s).1 = Some (next_timer s)
        /\ (next_timer s, job_owner j) ∈ timers (step e s).1
        /\ LSetTimeout (next_timer s) (job_owner j) (interval (job_owner j))
             ∈ (step e s).2).
Proof.
  split; [|split].
  - intros s Hs. apply reachable_sched_inv in Hs. unfold sched_inv in Hs.
    destruct (jobs s) as [|j0 [|j1 js]]; simpl; [| |done].
    + rewrite Hs. split; [lia | split; discriminate].
    + destruct Hs as [-> _]. split; [lia | done].
  - intros m s Hr. split;
      [by apply runStorageCheckJob_absorbed | by apply startBackgroundJob_absorbed].
  - intros e s j Hs Hj Hgone. apply reachable_sched_inv in Hs.
    destruct (step_job_removed e s j Hs Hj Hgone) as (? & ? & ? & ? & _). done.
Qed.

Lemma at_most_one_cycle_witness :
  let s := (run busy_events initial).1 in
  let e := EvRemotesListed 0 (FetchResponse 503 "Service Unavailable" (JsonRejects ThrownOther)) in
  ((length (jobs s) <= 1)%nat
   /\ (backgroundJobRunning s = true <-> length (jobs s) = 1%nat))
  /\ (runStorageCheckJob StreamRoute s = (s, [])
      /\ startBackgroundJob StreamRoute s = (s, []))
  /\ (backgroundJobRunning (step e s).1 = false
      /\ backgroundJobTimer (step e s).1 = Some (next_timer s)
      /\ (next_timer s, PullRoute) ∈ timers (step e s).1
      /\ LSetTimeout (next_timer s) PullRoute (interval PullRoute) ∈ (step e s).2).
Proof.
  destruct at_most_one_cycle as (H1 & H2 & H3).
  split; [|split].
  - apply H1. apply reachable_run, reachable_initial.
  - apply H2. reflexivity.
  - apply (H3 _ _ (mkJob 0 PullRoute AwaitRemotes));
      [apply reachable_run, reachable_initial | reflexivity | reflexivity].
Defined.

(** ** C10: manual refresh while a cycle is in progress *)

Lemma fetches_arm_no_timer j (l : list string) :
  existsb (fun l => match l with LSetTimeout _ _ _ => true | _ => false end)
    (LFetchAbout j <$> l) = false.
Proof. induction l as [|r l IH]; [done | exact IH]. Qed.

Lemma step_timer_stays_clear e s :
  backgroundJobRunning s = true -> backgroundJobTimer s = None ->
  (backgroundJobRunning (step e s).1 = true /\ backgroundJobTimer (step e s).1 = None
   /\ existsb (fun l => match l with LSetTimeout _ _ _ => true | _ => false end)
        (step e s).2 = false)
  \/ (backgroundJobRunning (step e s).1 = false
      /\ backgroundJobTimer (step e s).1 = Some (next_timer s)
      /\ exists m, (next_timer s, m) ∈ timers (step e s).1
           /\ LSetTimeout (next_timer s) m (interval m) ∈ (step e s).2).
Proof.
  intros Hr Ht.
  destruct e as [m|t|id o|id index o now|session|session|session now|c now|c|c]; simpl.
  - left. by rewrite runStorageCheckJob_absorbed.
  - left. destruct (List.find _ (timers s)) as [[t' m]|]; [|done].
    by rewrite runStorageCheckJob_absorbed.
  - destruct (find_job id (jobs s)) as [j|]; [|by left].
    destruct (job_phase j); [|by left].
    unfold remotes_listed. destruct (getRemotesList o) as [|r rs];
      [|left; simpl; repeat split; try done; apply fetches_arm_no_timer].
    right. pose proof (finally_spec j s) as H. destruct (finally j s) as [s' l].
    destruct H as (_ & _ & _ & ? & ? & ? & _ & _ & _ & pre & -> & _). simpl.
    repeat split; try done. exists (job_owner j). split; [done|].
    apply elem_of_app. right. set_solver.
  - destruct (find_job id (jobs s)) as [j|]; [|by left].
    unfold probe_settled.
    destruct (job_phase j) as [|remotes remotesToCheck batch hasUpdates]; [by left|].
    destruct (batch !! index) as [[remote [|]]|]; try (by left).
    destruct (mergeOne remote (checkRemoteStorage remote o now) (cacheObject s))
      as [cache changed].
    set (s1 := with_cacheObject cache s).
    destruct (forallb snd (<[index:=(remote, true)]> batch)); [|by left].
    destruct remotesToCheck as [|r rs].
    + right. pose proof (complete_spec j (hasUpdates || changed) now s1) as H.
      destruct (complete j (hasUpdates || changed) now s1) as [s' l].
      destruct H as (_ & ? & ? & ? & _ & _ & pre & -> & _). simpl.
      repeat split; try done. exists (job_owner j). split; [done|].
      apply elem_of_cons. right. apply elem_of_app. right.
      apply elem_of_app. right. set_solver.
    + left. simpl. repeat split; try done. apply fetches_arm_no_timer.
  - left. unfold pull_GET. by rewrite startBackgroundJob_absorbed.
  - left. unfold pull_POST. rewrite Ht. by rewrite runStorageCheckJob_absorbed.
  - left. unfold stream_GET. destruct session; [|done]. simpl.
    by rewrite startBackgroundJob_absorbed.
  - left. unfold heartbeat_tick, enqueue, stop_heartbeat.
    destruct (conns s !! c) as [k|] eqn:Hc; [|done].
    destruct (heartbeat k); [|done]. by destruct (closed k).
  - left. unfold on_abort, stop_heartbeat. by destruct (conns s !! c).
  - left. unfold sink_closed. by destruct (conns s !! c).
Qed.

(** C10.  A manual refresh that arrives while a cycle is in progress
    answers [{success: true}] at once and starts no second cycle: the
    suspended call, the flag, the job counter and the cache object (its
    properties and its prototype) are what they were and no request goes
    to the daemon.  It clears the timer the global holds, if any, and
    leaves the global [null].  From then on every step either leaves the
    cycle in progress with the global still [null] and arms no timer, or
    ends the cycle and arms the new timer. *)
Theorem manual_refresh_while_running (session : bool) (s : Sys) :
  backgroundJobRunning s = true ->
  let '(s', l) := pull_POST session s in
  l = match backgroundJobTimer s with Some t => [LClearTimeout t] | None => [] end
      ++ [LReply (ReplyRefresh true "Storage refresh triggered")]
  /\ jobs s' = jobs s /\ next_job s' = next_job s
  /\ backgroundJobRunning s' = true
  /\ storageCache s' = storageCache s
  /\ cachePrototype s' = cachePrototype s
  /\ backgroundJobTimer s' = None
  /\ (forall t, backgroundJobTimer s = Some t -> forall m, (t, m) ∉ timers s')
  /\ forall e,
       (backgroundJobRunning (step e s').1 = true
        /\ backgroundJobTimer (step e s').1 = None
        /\ existsb (fun l => match l with LSetTimeout _ _ _ => true | _ => false end)
             (step e s').2 = false)
       \/ (backgroundJobRunning (step e s').1 = false
           /\ backgroundJobTimer (step e s').1 = Some (next_timer s')
           /\ exists m, (next_timer s', m) ∈ timers (step e s').1
                /\ LSetTimeout (next_timer s') m (interval m) ∈ (step e s').2).
Proof.
  intros Hr. unfold pull_POST.
  destruct (backgroundJobTimer s) as [t|] eqn:Ht.
  - rewrite runStorageCheckJob_absorbed by done. simpl.
    repeat split; try done.
    + intros t' [= <-] m Hin. unfold clearTimeout in Hin. simpl in Hin.
      apply list_elem_of_In, filter_In in Hin as [_ Hin]. simpl in Hin.
      by rewrite bool_decide_eq_true_2 in Hin.
    + intros e.
      by apply (step_timer_stays_clear e (with_timer None (clearTimeout t s))).
  - rewrite runStorageCheckJob_absorbed by done. simpl.
    repeat split; try done. intros e. by apply step_timer_stays_clear.
Qed.

Lemma manual_refresh_while_running_witness :
  let s := (run refresh_events initial).1 in
  backgroundJobRunning s = true
  /\ let '(s', l) := pull_POST true s in
     l = match backgroundJobTimer s with Some t => [LClearTimeout t] | None => [] end
         ++ [LReply (ReplyRefresh true "Storage refresh triggered")]
     /\ jobs s' = jobs s /\ next_job s' = next_job s
     /\ backgroundJobRunning s' = true
     /\ storageCache s' = storageCache s
     /\ cachePrototype s' = cachePrototype s
     /\ backgroundJobTimer s' = None
     /\ (forall t, backgroundJobTimer s = Some t -> forall m, (t, m) ∉ timers s')
     /\ forall e,
          (backgroundJobRunning (step e s').1 = true
           /\ backgroundJobTimer (step e s').1 = None
           /\ existsb (fun l => match l with LSetTimeout _ _ _ => true | _ => false end)
                (step e s').2 = false)
          \/ (backgroundJobRunning (step e s').1 = false
              /\ backgroundJobTimer (step e s').1 = Some (next_timer s')
              /\ exists m, (next_timer s', m) ∈ timers (step e s').1
                   /\ LSetTimeout (next_timer s') m (interval m) ∈ (step e s').2).
Proof.
  split; [reflexivity|].
  exact (manual_refresh_while_running true (run refresh_events initial).1 eq_refl).
Defined.

(** ** Labels of a run *)

Lemma finally_labels j s :
  (finally j s).2 = clear_labels (backgroundJobTimer s)
    ++ [LSetTimeout (next_timer s) (job_owner j) (interval (job_owner j));
        LJobEnd (job_id j)].
Proof. unfold finally. simpl. by destruct (backgroundJobTimer s). Qed.

Lemma complete_labels j hasUpdates now s :
  (complete j hasUpdates now s).2
  = (if hasUpdates then [LNotify (job_id j)] else [])
    ++ clear_labels (backgroundJobTimer s)
    ++ [LSetTimeout (next_timer s) (job_owner j) (interval (job_owner j));
        LJobEnd (job_id j)].
Proof.
  unfold complete.
  pose proof (finally_labels j (if hasUpdates then notifySubscribers now s else s)) as H.
  destruct (finally j _) as [s2 l]. simpl in *. rewrite H.
  destruct hasUpdates; [|done].
  destruct (notifySubscribers_frame now s) as (_ & _ & -> & _ & _ & _ & ->). done.
Qed.

Lemma mentions_none i tr :
  mentions i tr = false ->
  ended i tr = false /\ notified i tr = false /\ merged_true i tr = false.
Proof.
  induction tr as [|l tr IH]; [done|]. simpl. intros H.
  apply orb_false_iff in H as [Hl Htr]. destruct (IH Htr) as (-> & -> & ->).
  rewrite !orb_false_r.
  destruct l as [| | j r [|] | j | | | j |]; simpl in *; repeat split; try done;
    apply bool_decide_eq_false in Hl; apply bool_decide_eq_false; congruence.
Qed.

Lemma mentions_fetches i j (l : list string) :
  i <> j -> mentions i (LFetchAbout j <$> l) = false.
Proof.
  intros Hne. induction l as [|r l IH]; [done|].
  change (mentions i (LFetchAbout j <$> r :: l))
    with (bool_decide (label_job (LFetchAbout j r) = Some i)
          || mentions i (LFetchAbout j <$> l)).
  rewrite IH, orb_false_r. apply bool_decide_eq_false. simpl. congruence.
Qed.

Lemma fetches_quiet i j (l : list string) :
  ended i (LFetchAbout j <$> l) = false /\ notified i (LFetchAbout j <$> l) = false
  /\ merged_true i (LFetchAbout j <$> l) = false.
Proof. induction l as [|r l IH]; [done | exact IH]. Qed.

Lemma mentions_clear i t : mentions i (clear_labels t) = false.
Proof. by destruct t. Qed.

(** A step that leaves the suspended calls alone and emits no label of a
    job. *)
Lemma trace_inv_quiet s s' tr l :
  trace_inv s tr -> jobs s' = jobs s -> next_job s' = next_job s ->
  (forall i, mentions i l = false) -> trace_inv s' (tr ++ l).
Proof.
  intros (K2 & K3 & K4 & K5) Hj Hn Hq.
  assert (Hq' : forall i, ended i l = false /\ notified i l = false
                          /\ merged_true i l = false)
    by (intros i; apply mentions_none, Hq).
  unfold trace_inv, mentions, ended, notified, merged_true in *.
  rewrite Hj, Hn. refine (conj K2 (conj _ (conj _ _))).
  - intros i Hi. rewrite existsb_app, K3 by done. apply Hq.
  - intros j Hjs. rewrite !existsb_app.
    destruct (Hq' (job_id j)) as (-> & -> & ->). rewrite !orb_false_r. by apply K4.
  - intros i. rewrite !existsb_app. destruct (Hq' i) as (-> & -> & ->).
    rewrite !orb_false_r. apply K5.
Qed.

(** A step that starts a call of the job. *)
Lemma trace_inv_start s s' tr l m :
  trace_inv s tr -> jobs s' = [mkJob (next_job s) m AwaitRemotes] ->
  next_job s' = S (next_job s) ->
  (forall i, i <> next_job s -> mentions i l = false) ->
  ended (next_job s) l = false -> notified (next_job s) l = false ->
  merged_true (next_job s) l = false ->
  trace_inv s' (tr ++ l).
Proof.
  intros (K2 & K3 & K4 & K5) Hj Hn Hq He Hno Hm.
  destruct (mentions_none _ _ (K3 (next_job s) (le_n _))) as (He0 & Hno0 & Hm0).
  unfold trace_inv, mentions, ended, notified, merged_true in *.
  rewrite Hj, Hn. refine (conj _ (conj _ (conj _ _))).
  - intros j [= <-]. simpl. lia.
  - intros i Hi. rewrite existsb_app, K3 by lia. apply Hq. lia.
  - intros j [= <-]. simpl. by rewrite !existsb_app, He0, He, Hno0, Hno, Hm0, Hm.
  - intros i. destruct (decide (i = next_job s)) as [->|Hne].
    + rewrite !existsb_app, He0, He. discriminate.
    + rewrite !existsb_app.
      destruct (mentions_none i l (Hq i Hne)) as (E1 & E2 & E3).
      unfold ended, notified, merged_true in E1, E2, E3.
      rewrite E1, E2, E3, !orb_false_r. apply K5.
Qed.

(** A step of the call in progress that leaves it suspended. *)
Lemma trace_inv_progress s s' tr l j j' :
  trace_inv s tr -> jobs s = [j] -> jobs s' = [j'] -> job_id j' = job_id j ->
  next_job s' = next_job s ->
  (forall i, i <> job_id j -> mentions i l = false) ->
  ended (job_id j) l = false -> notified (job_id j) l = false ->
  phase_updates (job_phase j') = phase_updates (job_phase j) || merged_true (job_id j) l ->
  trace_inv s' (tr ++ l).
Proof.
  intros (K2 & K3 & K4 & K5) Hj Hj' Hid Hn Hq He Hno Hm.
  destruct (K4 j Hj) as (He0 & Hno0 & Hm0). specialize (K2 j Hj).
  unfold trace_inv, mentions, ended, notified, merged_true in *.
  rewrite Hj', Hn. refine (conj _ (conj _ (conj _ _))).
  - intros ? [= <-]. lia.
  - intros i Hi. rewrite existsb_app, K3 by done. apply Hq. lia.
  - intros ? [= <-]. by rewrite Hid, !existsb_app, He0, He, Hno0, Hno, Hm0, Hm.
  - intros i. destruct (decide (i = job_id j)) as [->|Hne].
    + rewrite !existsb_app, He0, He. discriminate.
    + rewrite !existsb_app.
      destruct (mentions_none i l (Hq i Hne)) as (E1 & E2 & E3).
      unfold ended, notified, merged_true in E1, E2, E3.
      rewrite E1, E2, E3, !orb_false_r. apply K5.
Qed.

(** A step that ends the call in progress. *)
Lemma trace_inv_end s s' tr l j :
  trace_inv s tr -> jobs s = [j] -> jobs s' = [] -> next_job s' = next_job s ->
  (forall i, i <> job_id j -> mentions i l = false) ->
  notified (job_id j) l = phase_updates (job_phase j) || merged_true (job_id j) l ->
  trace_inv s' (tr ++ l).
Proof.
  intros (K2 & K3 & K4 & K5) Hj Hj' Hn Hq Hno.
  destruct (K4 j Hj) as (He0 & Hno0 & Hm0). specialize (K2 j Hj).
  unfold trace_inv, mentions, ended, notified, merged_true in *.
  rewrite Hj', Hn. refine (conj _ (conj _ (conj _ _))); try discriminate.
  - intros i Hi. rewrite existsb_app, K3 by done. apply Hq. lia.
  - intros i. destruct (decide (i = job_id j)) as [->|Hne].
    + intros _. by rewrite !existsb_app, Hno0, Hm0, Hno.
    + rewrite !existsb_app.
      destruct (mentions_none i l (Hq i Hne)) as (E1 & E2 & E3).
      unfold ended, notified, merged_true in E1, E2, E3.
      rewrite E1, E2, E3, !orb_false_r. apply K5.
Qed.

Lemma mentions_app i a b : mentions i (a ++ b) = mentions i a || mentions i b.
Proof. apply existsb_app. Qed.

Lemma sched_inv_idle s : sched_inv s -> backgroundJobRunning s = false -> jobs s = [].
Proof.
  unfold sched_inv. destruct (jobs s) as [|j0 [|j1 js]]; [done| |done].
  intros [? _] ?. congruence.
Qed.

(** A handler that may start the job, between labels that belong to no job. *)
Lemma start_trace_inv m s0 s s'' tr pre post :
  sched_inv s0 -> trace_inv s tr ->
  jobs s0 = jobs s -> next_job s0 = next_job s ->
  (forall i, mentions i pre = false) -> (forall i, mentions i post = false) ->
  jobs s'' = jobs (runStorageCheckJob m s0).1 ->
  next_job s'' = next_job (runStorageCheckJob m s0).1 ->
  trace_inv s'' (tr ++ pre ++ (runStorageCheckJob m s0).2 ++ post).
Proof.
  intros Hinv K Hj Hn Hpre Hpost Hj'' Hn''. unfold runStorageCheckJob in *.
  destruct (backgroundJobRunning s0) eqn:Hr; simpl in *.
  - apply (trace_inv_quiet s); [done | congruence | congruence |].
    intros i. by rewrite mentions_app, Hpre, Hpost.
  - rewrite (sched_inv_idle s0 Hinv Hr) in *. simpl in *.
    apply (trace_inv_start s s'' tr _ m); try congruence.
    + intros i Hne. rewrite mentions_app, Hpre. simpl.
      change (mentions i (LFetchRemotes (next_job s0) :: post))
        with (bool_decide (Some (next_job s0) = Some i) || mentions i post).
      rewrite Hpost, orb_false_r. apply bool_decide_eq_false. congruence.
    + destruct (mentions_none _ _ (Hpre (next_job s))) as (E & _ & _).
      destruct (mentions_none _ _ (Hpost (next_job s))) as (E' & _ & _).
      unfold ended in *. rewrite existsb_app, E. simpl. exact E'.
    + destruct (mentions_none _ _ (Hpre (next_job s))) as (_ & E & _).
      destruct (mentions_none _ _ (Hpost (next_job s))) as (_ & E' & _).
      unfold notified in *. rewrite existsb_app, E. simpl. exact E'.
    + destruct (mentions_none _ _ (Hpre (next_job s))) as (_ & _ & E).
      destruct (mentions_none _ _ (Hpost (next_job s))) as (_ & _ & E').
      unfold merged_true in *. rewrite existsb_app, E. simpl. exact E'.
Qed.

Lemma startBackgroundJob_trace_inv m s s'' tr post :
  sched_inv s -> trace_inv s tr ->
  (forall i, mentions i post = false) ->
  jobs s'' = jobs (startBackgroundJob m s).1 ->
  next_job s'' = next_job (startBackgroundJob m s).1 ->
  trace_inv s'' (tr ++ (startBackgroundJob m s).2 ++ post).
Proof.
  intros Hinv K Hpost Hj Hn. unfold startBackgroundJob in *.
  destruct (backgroundJobTimer s).
  - simpl in *. by apply (trace_inv_quiet s).
  - by apply (start_trace_inv m s s s'' tr [] post).
Qed.

(** A continuation of the call in progress that merges at most one result,
    sends the probes of [batch] and stays suspended. *)
Lemma trace_inv_job_step s s' tr j ph' om (batch : list string) :
  trace_inv s tr -> jobs s = [j] ->
  jobs s' = [mkJob (job_id j) (job_owner j) ph'] -> next_job s' = next_job s ->
  phase_updates ph' = phase_updates (job_phase j) || merged_change om ->
  trace_inv s' (tr ++ merged_label (job_id j) om ++ (LFetchAbout (job_id j) <$> batch)).
Proof.
  intros K Hj Hj' Hn Hph.
  destruct (fetches_quiet (job_id j) (job_id j) batch) as (E1 & E2 & E3).
  apply (trace_inv_progress s s' tr _ j (mkJob (job_id j) (job_owner j) ph'));
    try done.
  - intros i Hne. rewrite mentions_app, mentions_fetches by done.
    destruct om as [[r c]|]; [|done]. unfold mentions. simpl.
    rewrite !orb_false_r. apply bool_decide_eq_false. congruence.
  - unfold ended in *. rewrite existsb_app, E1. by destruct om as [[r c]|].
  - unfold notified in *. rewrite existsb_app, E2. by destruct om as [[r c]|].
  - simpl. rewrite Hph. f_equal. unfold merged_true in *.
    rewrite existsb_app, E3, orb_false_r.
    destruct om as [[r [|]]|]; simpl; [|done|done].
    by rewrite bool_decide_eq_true_2.
Qed.

(** A continuation that merges at most one result and ends the call. *)
Lemma trace_inv_job_end s s' tr j om t :
  trace_inv s tr -> jobs s = [j] -> jobs s' = [] -> next_job s' = next_job s ->
  trace_inv s'
    (tr ++ merged_label (job_id j) om
        ++ (if phase_updates (job_phase j) || merged_change om
            then [LNotify (job_id j)] else [])
        ++ clear_labels t
        ++ [LSetTimeout (next_timer s) (job_owner j) (interval (job_owner j));
            LJobEnd (job_id j)]).
Proof.
  intros K Hj Hj' Hn.
  apply (trace_inv_end s s' tr _ j); try done.
  - intros i Hne. rewrite !mentions_app, mentions_clear.
    assert (Hb : bool_decide (Some (job_id j) = Some i) = false)
      by (apply bool_decide_eq_false; congruence).
    unfold mentions.
    destruct om as [[r c]|], (phase_updates (job_phase j) || merged_change _);
      simpl; by rewrite ?Hb.
  - unfold notified, merged_true. rewrite !existsb_app.
    assert (Hb : bool_decide (job_id j = job_id j) = true)
      by by apply bool_decide_eq_true.
    destruct om as [[r [|]]|], (phase_updates (job_phase j)), t; simpl; by rewrite ?Hb.
Qed.

Lemma trace_inv_same s s' tr :
  trace_inv s tr -> jobs s' = jobs s -> next_job s' = next_job s -> trace_inv s' tr.
Proof.
  intros K Hj Hn. rewrite <- (app_nil_r tr). by apply (trace_inv_quiet s).
Qed.

Lemma jobs_update_single s j j' :
  jobs s = [j] -> job_id j' = job_id j ->
  jobs (with_jobs (update_job j' (jobs s)) s) = [j'].
Proof. intros Hj Hid. simpl. rewrite Hj. by apply update_job_single. Qed.

Lemma step_trace_inv e s tr :
  sched_inv s -> trace_inv s tr -> trace_inv (step e s).1 (tr ++ (step e s).2).
Proof.
  intros Hinv K.
  destruct e as [m|t|id o|id index o now|session|session|session now|c now|c|c]; simpl.
  - pose proof (start_trace_inv m s s (runStorageCheckJob m s).1 tr [] []
                  Hinv K eq_refl eq_refl (fun _ => eq_refl) (fun _ => eq_refl)
                  eq_refl eq_refl) as H.
    simpl in H. by rewrite app_nil_r in H.
  - destruct (List.find _ (timers s)) as [[t' m]|];
      [|by simpl; rewrite app_nil_r].
    pose proof (start_trace_inv m (clearTimeout t s) s
                  (runStorageCheckJob m (clearTimeout t s)).1 tr [] []) as H.
    simpl in H. rewrite app_nil_r in H. by apply H.
  - destruct (find_job id (jobs s)) as [j|] eqn:Hf; [|by simpl; rewrite app_nil_r].
    destruct (sched_inv_find _ _ _ Hinv Hf) as (Hj & _ & Hr & Hp).
    destruct (job_phase j) eqn:Hph; [|by simpl; rewrite app_nil_r].
    unfold remotes_listed. destruct (getRemotesList o) as [|r rs].
    + rewrite (surjective_pairing (finally j s)), finally_labels. cbn [fst snd].
      pose proof (finally_spec j s) as H. destruct (finally j s) as [s' l].
      cbn [fst snd].
      destruct H as (_ & _ & _ & _ & _ & _ & _ & Hj' & Hn' & _).
      rewrite Hj, remove_job_single in Hj'.
      pose proof (trace_inv_job_end s s' tr j None (backgroundJobTimer s)
                    K Hj Hj' Hn') as H.
      by rewrite Hph in H.
    + unfold enter_batch. cbn [fst snd].
      eapply (trace_inv_job_step s _ tr j _ None);
        [exact K | exact Hj
         | by apply (jobs_update_single s j)
         | reflexivity | by rewrite Hph].
  - destruct (find_job id (jobs s)) as [j|] eqn:Hf; [|by simpl; rewrite app_nil_r].
    destruct (sched_inv_find _ _ _ Hinv Hf) as (Hj & _ & Hr & Hp).
    unfold probe_settled.
    destruct (job_phase j) as [|remotes remotesToCheck batch hasUpdates] eqn:Hph;
      [by simpl; rewrite app_nil_r|].
    destruct (batch !! index) as [[remote [|]]|];
      try (by simpl; rewrite app_nil_r).
    destruct (mergeOne remote (checkRemoteStorage remote o now) (cacheObject s))
      as [cache changed].
    set (s1 := with_cacheObject cache s).
    destruct (forallb snd (<[index:=(remote, true)]> batch)).
    + destruct remotesToCheck as [|r rs].
      * rewrite (surjective_pairing (complete j (hasUpdates || changed) now s1)),
          complete_labels. cbn [fst snd].
        pose proof (complete_spec j (hasUpdates || changed) now s1) as H.
        destruct (complete j (hasUpdates || changed) now s1) as [s' l].
        cbn [fst snd].
        destruct H as (_ & _ & _ & _ & Hj' & Hn' & _).
        change (jobs s1) with (jobs s) in Hj'. rewrite Hj, remove_job_single in Hj'.
        pose proof (trace_inv_job_end s s' tr j (Some (remote, changed))
                      (backgroundJobTimer s) K Hj Hj' Hn') as H.
        by rewrite Hph in H.
      * unfold enter_batch. cbn [fst snd].
        eapply (trace_inv_job_step s _ tr j _ (Some (remote, changed)));
          [exact K | exact Hj
           | by apply (jobs_update_single s1 j)
           | reflexivity | by rewrite Hph].
    + cbn [fst snd].
      pose proof (trace_inv_job_step s
                    (with_jobs (update_job
                       (mkJob (job_id j) (job_owner j)
                          (AwaitBatch remotes remotesToCheck
                             (<[index:=(remote, true)]> batch) (hasUpdates || changed)))
                       (jobs s1)) s1)
                    tr j
                    (AwaitBatch remotes remotesToCheck
                       (<[index:=(remote, true)]> batch) (hasUpdates || changed))
                    (Some (remote, changed)) [] K Hj) as H.
      cbn [merged_label fmap list_fmap] in H. rewrite app_nil_r in H.
      apply H; [by apply (jobs_update_single s1 j) | done | by rewrite Hph].
  - unfold pull_GET.
    pose proof (startBackgroundJob_trace_inv PullRoute s (startBackgroundJob PullRoute s).1 tr) as H.
    destruct (startBackgroundJob PullRoute s) as [s1 l]. simpl in *. by apply H.
  - unfold pull_POST. destruct (backgroundJobTimer s) as [t|].
    + pose proof (start_trace_inv PullRoute (with_timer None (clearTimeout t s)) s
        (runStorageCheckJob PullRoute (with_timer None (clearTimeout t s))).1
        tr [LClearTimeout t] [LReply (ReplyRefresh true "Storage refresh triggered")]) as H.
      destruct (runStorageCheckJob PullRoute _) as [s2 l2]. simpl in *.
      by apply H.
    + pose proof (start_trace_inv PullRoute s s (runStorageCheckJob PullRoute s).1
        tr [] [LReply (ReplyRefresh true "Storage refresh triggered")]) as H.
      destruct (runStorageCheckJob PullRoute s) as [s2 l2]. simpl in *.
      by apply H.
  - unfold stream_GET. destruct session; simpl;
      [|by apply (trace_inv_quiet s s tr [LReply ReplyUnauthorized])].
    pose proof (startBackgroundJob_trace_inv StreamRoute s) as H.
    destruct (startBackgroundJob StreamRoute s) as [s1 l]. simpl in *. by apply H.
  - rewrite app_nil_r. apply (trace_inv_same s); [done| |];
      unfold heartbeat_tick, enqueue, stop_heartbeat;
      destruct (conns s !! c) as [k|]; try done;
      destruct (heartbeat k), (closed k); done.
  - rewrite app_nil_r. apply (trace_inv_same s); [done| |];
      unfold on_abort, stop_heartbeat; by destruct (conns s !! c).
  - rewrite app_nil_r. apply (trace_inv_same s); [done| |];
      unfold sink_closed; by destruct (conns s !! c).
Qed.


Lemma trace_inv_initial : trace_inv initial [].
Proof. by refine (conj _ (conj _ (conj _ _))). Qed.




(** ** C1: what counts as a change, and when the subscribers are notified *)




(** ** C5: the time stamp of a cache entry *)




(** ** The probes of a cycle *)

Lemma probes_of_app i a b : probes_of i (a ++ b) = probes_of i a ++ probes_of i b.
Proof. apply omap_app. Qed.

Lemma merges_of_app i a b : merges_of i (a ++ b) = merges_of i a ++ merges_of i b.
Proof. apply omap_app. Qed.

Lemma mentions_no_probes i tr :
  mentions i tr = false -> probes_of i tr = [] /\ merges_of i tr = [].
Proof.
  induction tr as [|l tr IH]; [done|]. simpl. intros H.
  apply orb_false_iff in H as [Hl Htr]. destruct (IH Htr) as [E1 E2].
  apply bool_decide_eq_false in Hl.
  destruct l; simpl in *; try done; case_bool_decide; (done || congruence).
Qed.

Lemma probes_of_fetches i (l : list string) :
  probes_of i (LFetchAbout i <$> l) = l /\ merges_of i (LFetchAbout i <$> l) = [].
Proof.
  induction l as [|r l [IH1 IH2]]; [done|]. split; [|exact IH2].
  change (probes_of i (LFetchAbout i <$> r :: l))
    with (from_option (fun x => x :: probes_of i (LFetchAbout i <$> l))
            (probes_of i (LFetchAbout i <$> l))
            (if bool_decide (i = i) then Some r else None)).
  by rewrite bool_decide_eq_true_2, IH1.
Qed.

Lemma in_flight_fresh (l : list string) : in_flight ((fun r => (r, false)) <$> l) = l.
Proof.
  induction l as [|r l IH]; [done|].
  change (r :: in_flight ((fun r => (r, false)) <$> l) = r :: l). by rewrite IH.
Qed.

Lemma in_flight_settled (batch : list (string * bool)) :
  forallb snd batch = true -> in_flight batch = [].
Proof.
  induction batch as [|[r b] batch IH]; [done|]. simpl.
  intros H. apply andb_true_iff in H as [-> H]. unfold in_flight in *. simpl.
  by apply IH.
Qed.

Lemma in_flight_settle (batch : list (string * bool)) index remote :
  batch !! index = Some (remote, false) ->
  in_flight batch ≡ₚ remote :: in_flight (<[index := (remote, true)]> batch).
Proof.
  revert index. induction batch as [|[r b] batch IH]; intros [|index] H; try done.
  - simpl in H. injection H as -> ->. done.
  - simpl in H. specialize (IH index H). unfold in_flight in *. simpl.
    destruct b; simpl; [done|]. rewrite IH. apply Permutation_swap.
Qed.

Lemma probe_inv_ext s s' tr l :
  jobs s' = jobs s ->
  (forall i, probes_of i l = [] /\ merges_of i l = []) ->
  probe_inv s tr -> probe_inv s' (tr ++ l).
Proof.
  intros Hj Hl P j E. rewrite Hj in E. specialize (P j E).
  rewrite probes_of_app, merges_of_app. destruct (Hl (job_id j)) as [-> ->].
  by rewrite !app_nil_r.
Qed.

(** A handler that may start the job, between labels that are neither a
    probe nor a merge. *)
Lemma probe_inv_start m s0 s s'' tr pre post :
  sched_inv s0 -> trace_inv s tr -> probe_inv s tr ->
  jobs s0 = jobs s -> next_job s0 = next_job s ->
  (forall i, probes_of i pre = [] /\ merges_of i pre = []) ->
  (forall i, probes_of i post = [] /\ merges_of i post = []) ->
  jobs s'' = jobs (runStorageCheckJob m s0).1 ->
  probe_inv s'' (tr ++ pre ++ (runStorageCheckJob m s0).2 ++ post).
Proof.
  intros Hinv K P Hj Hn Hpre Hpost Hj''. unfold runStorageCheckJob in *.
  destruct (backgroundJobRunning s0) eqn:Hr; cbn [fst snd] in *.
  - apply (probe_inv_ext s); [congruence| |done].
    intros i. rewrite probes_of_app, merges_of_app. simpl.
    destruct (Hpre i) as [-> ->], (Hpost i) as [-> ->]. done.
  - rewrite (sched_inv_idle s0 Hinv Hr) in *. simpl in Hj''.
    intros j E. rewrite Hj'' in E. injection E as <-. simpl.
    destruct K as (_ & K & _).
    destruct (mentions_no_probes _ _ (K (next_job s) (le_n _))) as [E1 E2].
    rewrite Hn, !probes_of_app, !merges_of_app, E1, E2.
    destruct (Hpre (next_job s)) as [-> ->]. simpl.
    change (probes_of (next_job s) (LFetchRemotes (next_job s0) :: post))
      with (probes_of (next_job s) post).
    change (merges_of (next_job s) (LFetchRemotes (next_job s0) :: post))
      with (merges_of (next_job s) post).
    destruct (Hpost (next_job s)) as [-> ->]. done.
Qed.

Lemma probe_inv_lazy_start m s s'' tr post :
  sched_inv s -> trace_inv s tr -> probe_inv s tr ->
  (forall i, probes_of i post = [] /\ merges_of i post = []) ->
  jobs s'' = jobs (startBackgroundJob m s).1 ->
  probe_inv s'' (tr ++ (startBackgroundJob m s).2 ++ post).
Proof.
  intros Hinv K P Hpost Hj''. unfold startBackgroundJob in *.
  destruct (backgroundJobTimer s).
  - by apply (probe_inv_ext s).
  - by apply (probe_inv_start m s s s'' tr [] post).
Qed.

Lemma probe_inv_idle s tr : jobs s = [] -> probe_inv s tr.
Proof. intros E j Hj. congruence. Qed.

Lemma probe_inv_enter j remotes remotesToCheck hasUpdates s tr l :
  jobs s = [j] ->
  probes_of (job_id j) l = [] ->
  probes_of (job_id j) tr ++ remotesToCheck = remotes ->
  merges_of (job_id j) (tr ++ l) ≡ₚ probes_of (job_id j) tr ->
  probe_inv (enter_batch j remotes remotesToCheck hasUpdates s).1
    (tr ++ l ++ (enter_batch j remotes remotesToCheck hasUpdates s).2).
Proof.
  intros Hj Hl H1 H2 j' Hj'. simpl in *.
  rewrite Hj, update_job_single in Hj' by done. injection Hj' as <-. simpl.
  rewrite app_assoc.
  rewrite !probes_of_app, (merges_of_app _ (tr ++ l)), Hl, app_nil_r.
  destruct (probes_of_fetches (job_id j) (take concurrentLimit remotesToCheck)) as [-> ->].
  rewrite in_flight_fresh, app_nil_r. split.
  - by rewrite <- app_assoc, take_drop.
  - by rewrite H2.
Qed.

Lemma step_probe_inv e s tr :
  sched_inv s -> trace_inv s tr -> probe_inv s tr ->
  probe_inv (step e s).1 (tr ++ (step e s).2).
Proof.
  intros Hs K P.
  assert (Hq : forall s', jobs s' = jobs s -> probe_inv s' (tr ++ []))
    by (intros s' E; by apply (probe_inv_ext s)).
  destruct e as [m|t|id o|id index o now|session|session|session now|c now|c|c]; simpl.
  - pose proof (probe_inv_start m s s (runStorageCheckJob m s).1 tr [] []
                  Hs K P eq_refl eq_refl (fun _ => conj eq_refl eq_refl)
                  (fun _ => conj eq_refl eq_refl) eq_refl) as H.
    simpl in H. by rewrite app_nil_r in H.
  - destruct (List.find _ (timers s)) as [[t' m]|]; [|by apply Hq].
    pose proof (probe_inv_start m (clearTimeout t s) s
                  (runStorageCheckJob m (clearTimeout t s)).1 tr [] []) as H.
    simpl in H. rewrite app_nil_r in H. apply H; try done; by eapply sched_inv_ext; [| |exact Hs].
  - destruct (find_job id (jobs s)) as [j|] eqn:Hf; [|by apply Hq].
    destruct (sched_inv_find _ _ _ Hs Hf) as (Hj & _ & Hr & _).
    specialize (P j Hj).
    destruct (job_phase j) eqn:Hph; [|by apply Hq].
    unfold remotes_listed. destruct (getRemotesList o) as [|r rs] eqn:E.
    + apply probe_inv_idle. destruct (finally_jobs j s) as [-> _].
      by rewrite Hj, remove_job_single.
    + destruct P as [P1 P2].
      pose proof (probe_inv_enter j (r :: rs) (r :: rs) false s tr [] Hj eq_refl) as H.
      rewrite app_nil_r in H. apply H; [by rewrite P1 | by rewrite P1, P2].
  - destruct (find_job id (jobs s)) as [j|] eqn:Hf; [|by apply Hq].
    destruct (sched_inv_find _ _ _ Hs Hf) as (Hj & _ & Hr & _).
    specialize (P j Hj).
    unfold probe_settled.
    destruct (job_phase j) as [|remotes remotesToCheck batch hasUpdates] eqn:Hph;
      [by apply Hq|].
    destruct (batch !! index) as [[remote [|]]|] eqn:Hi; try by apply Hq.
    destruct P as [P1 P2].
    assert (Hm : merges_of (job_id j) (tr ++ [LMerged (job_id j) remote
                   (mergeOne remote (checkRemoteStorage remote o now) (cacheObject s)).2])
                 ++ in_flight (<[index:=(remote, true)]> batch)
                 ≡ₚ probes_of (job_id j) tr).
    { rewrite merges_of_app. simpl. rewrite bool_decide_eq_true_2 by done. simpl.
      rewrite <- P2, (in_flight_settle batch index remote Hi).
      rewrite <- app_assoc. done. }
    destruct (mergeOne remote (checkRemoteStorage remote o now) (cacheObject s))
      as [cache changed]. simpl in Hm.
    set (s1 := with_cacheObject cache s).
    destruct (forallb snd (<[index:=(remote, true)]> batch)) eqn:Hall.
    + destruct remotesToCheck as [|r rs] eqn:Hrs.
      * apply probe_inv_idle.
        pose proof (complete_spec j (hasUpdates || changed) now s1) as H.
        destruct (complete j (hasUpdates || changed) now s1) as [s' l].
        destruct H as (_ & _ & _ & _ & Hjs & _). simpl. rewrite Hjs. simpl.
        by rewrite Hj, remove_job_single.
      * rewrite <- Hrs in *.
        pose proof (probe_inv_enter j remotes remotesToCheck (hasUpdates || changed)
                      s1 tr [LMerged (job_id j) remote changed] Hj eq_refl P1) as H.
        rewrite (in_flight_settled _ Hall), app_nil_r in Hm.
        exact (H Hm).
    + intros j' Hj'. simpl in *.
      rewrite Hj, update_job_single in Hj' by done. injection Hj' as <-. simpl.
      assert (Hp : probes_of (job_id j) (tr ++ [LMerged (job_id j) remote changed])
                   = probes_of (job_id j) tr)
        by (rewrite probes_of_app; apply app_nil_r).
      rewrite Hp. split; [exact P1 | exact Hm].
  - unfold pull_GET.
    pose proof (probe_inv_lazy_start PullRoute s (startBackgroundJob PullRoute s).1 tr) as H.
    destruct (startBackgroundJob PullRoute s) as [s1 l]. simpl in *. by apply H.
  - unfold pull_POST. destruct (backgroundJobTimer s) as [t|].
    + pose proof (probe_inv_start PullRoute (with_timer None (clearTimeout t s)) s
        (runStorageCheckJob PullRoute (with_timer None (clearTimeout t s))).1
        tr [LClearTimeout t] [LReply (ReplyRefresh true "Storage refresh triggered")]) as H.
      destruct (runStorageCheckJob PullRoute _) as [s2 l2]. simpl in *.
      apply H; try done; by eapply sched_inv_ext; [| |exact Hs].
    + pose proof (probe_inv_start PullRoute s s (runStorageCheckJob PullRoute s).1
        tr [] [LReply (ReplyRefresh true "Storage refresh triggered")]) as H.
      destruct (runStorageCheckJob PullRoute s) as [s2 l2]. simpl in *.
      by apply H.
  - unfold stream_GET. destruct session; simpl;
      [|by apply (probe_inv_ext s s tr [LReply ReplyUnauthorized])].
    pose proof (probe_inv_lazy_start StreamRoute s) as H.
    destruct (startBackgroundJob StreamRoute s) as [s1 l]. simpl in *. by apply H.
  - apply Hq; unfold heartbeat_tick, enqueue, stop_heartbeat;
      destruct (conns s !! c) as [k|]; try done;
      destruct (heartbeat k), (closed k); done.
  - apply Hq; unfold on_abort, stop_heartbeat; by destruct (conns s !! c).
  - apply Hq; unfold sink_closed; by destruct (conns s !! c).
Qed.

Lemma run_probe_inv evs : forall s tr,
  sched_inv s -> trace_inv s tr -> probe_inv s tr ->
  probe_inv (run evs s).1 (tr ++ (run evs s).2).
Proof.
  induction evs as [|e evs IH]; intros s tr Hs K P; simpl.
  - by rewrite app_nil_r.
  - pose proof (step_sched_inv e s Hs) as Hs'.
    pose proof (step_trace_inv e s tr Hs K) as K'.
    pose proof (step_probe_inv e s tr Hs K P) as P'.
    destruct (step e s) as [s1 l1]. simpl in *.
    specialize (IH s1 (tr ++ l1) Hs' K' P').
    destruct (run evs s1) as [s2 l2]. simpl in *. by rewrite <- app_assoc in IH.
Qed.



(** ** C3: the records in the cache *)

(** The cache object changes only by the merge of the record built from
    the answer to a probe that is in flight. *)
Lemma step_cache e s :
  cacheObject (step e s).1 = cacheObject s
  \/ exists id index o now j remotes remotesToCheck batch hasUpdates remote,
       e = EvProbeSettled id index o now
       /\ find_job id (jobs s) = Some j
       /\ job_phase j = AwaitBatch remotes remotesToCheck batch hasUpdates
       /\ batch !! index = Some (remote, false)
       /\ cacheObject (step e s).1
          = (mergeOne remote (checkRemoteStorage remote o now) (cacheObject s)).1.
Proof.
  destruct (is_daemon_event e) eqn:He; [|left; by apply step_other_cache].
  destruct e as [| |id o|id index o now| | | | | |]; try discriminate He; simpl.
  - left. destruct (find_job id (jobs s)) as [j|]; [|done].
    destruct (job_phase j); [|done].
    unfold remotes_listed. destruct (getRemotesList o) as [|r rs]; [|done].
    unfold cacheObject. rewrite finally_prototype.
    pose proof (finally_spec j s) as H. destruct (finally j s) as [s' l].
    destruct H as (H & _). simpl. by rewrite H.
  - destruct (find_job id (jobs s)) as [j|] eqn:Hf; [|by left].
    destruct (job_phase j) as [|remotes remotesToCheck batch hasUpdates] eqn:Hph;
      [left; unfold probe_settled; by rewrite Hph|].
    destruct (batch !! index) as [[remote [|]]|] eqn:Hi;
      try (left; unfold probe_settled; by rewrite Hph, Hi).
    right. exists id, index, o, now, j, remotes, remotesToCheck, batch, hasUpdates, remote.
    repeat split; try done. by eapply probe_settled_cache.
Qed.

Lemma step_own_cache e s :
  storageCache (step e s).1 = storageCache s
  \/ exists remote o now,
       storageCache (step e s).1
       = own (mergeOne remote (checkRemoteStorage remote o now) (cacheObject s)).1.
Proof.
  destruct (step_cache e s) as [H | (id & index & o & now & j & rs & tc & b & hu & remote
                                      & _ & _ & _ & _ & H)].
  - left. by injection H.
  - right. exists remote, o, now. by rewrite <- H.
Qed.

Lemma run_snoc evs e s :
  run (evs ++ [e]) s
  = ((step e (run evs s).1).1, (run evs s).2 ++ (step e (run evs s).1).2).
Proof.
  rewrite run_app. destruct (run evs s) as [s1 l1]. simpl.
  destruct (step e s1) as [s2 l2]. simpl. by rewrite app_nil_r.
Qed.

Lemma elem_of_in_flight (batch : list (string * bool)) index remote :
  batch !! index = Some (remote, false) -> remote ∈ in_flight batch.
Proof.
  intros H. unfold in_flight. apply list_elem_of_fmap. exists (remote, false).
  split; [done|]. apply list_elem_of_In, filter_In. split; [|done].
  apply list_elem_of_In, list_elem_of_lookup. by exists index.
Qed.

Lemma elem_of_probes_of i r tr : r ∈ probes_of i tr -> LFetchAbout i r ∈ tr.
Proof.
  unfold probes_of. rewrite list_elem_of_omap. intros (l & Hin & Hl).
  destruct l; try discriminate Hl. case_bool_decide; [|discriminate Hl].
  injection Hl as ->. by subst.
Qed.

(** A probe that is in flight was sent. *)
Lemma in_flight_was_sent evs id j remotes remotesToCheck batch hasUpdates index remote :
  find_job id (jobs (run evs initial).1) = Some j ->
  job_phase j = AwaitBatch remotes remotesToCheck batch hasUpdates ->
  batch !! index = Some (remote, false) ->
  LFetchAbout id remote ∈ (run evs initial).2.
Proof.
  intros Hf Hph Hi.
  assert (Hs : sched_inv (run evs initial).1)
    by (apply reachable_sched_inv; by exists evs).
  destruct (sched_inv_find _ _ _ Hs Hf) as (Hj & <- & _).
  pose proof (run_probe_inv evs initial [] eq_refl trace_inv_initial
                (probe_inv_idle initial [] eq_refl) j Hj) as P.
  simpl in P. rewrite Hph in P. destruct P as [_ P2].
  apply elem_of_probes_of. rewrite <- P2. apply elem_of_app. right.
  by eapply elem_of_in_flight.
Qed.

Lemma probe_returned_snoc evs e remote d :
  probe_returned evs remote d -> probe_returned (evs ++ [e]) remote d.
Proof.
  intros (evs1 & evs2 & id & index & o & now & j & rs & tc & b & hu
          & -> & Hf & Hph & Hi & Hl & ->).
  exists evs1, (evs2 ++ [e]), id, index, o, now, j, rs, tc, b, hu.
  repeat split; try done. by rewrite <- app_assoc.
Qed.

(** Every record the cache object holds was returned by a probe of the
    remote under whose name it is held. *)
Lemma run_probes_only evs remote d :
  holds (cacheObject (run evs initial).1) remote d -> probe_returned evs remote d.
Proof.
  revert remote d. induction evs as [|e evs IH] using rev_ind; intros remote d.
  - intros [H|[_ H]]; simpl in H; [by rewrite lookup_empty in H | discriminate H].
  - rewrite run_snoc. cbn [fst].
    destruct (step_cache e (run evs initial).1)
      as [-> | (id & index & o & now & j & rs & tc & b & hu & r
                & -> & Hf & Hph & Hi & ->)].
    + intros H. by apply probe_returned_snoc, IH.
    + unfold mergeOne. cbn [fst]. destruct (hasChanged _ _).
      * intros H. apply holds_set in H as [H|[-> ->]].
        -- by apply probe_returned_snoc, IH.
        -- exists evs, [], id, index, o, now, j, rs, tc, b, hu.
           repeat split; try done. by eapply in_flight_was_sent.
      * intros H. by apply probe_returned_snoc, IH.
Qed.

Lemma checkRemoteStorage_cases remote o now :
  match about_try o with
  | inr data =>
      checkRemoteStorage remote o now
      = mkStorageData (b_total data) (b_used data) (b_free data) now None
  | inl e =>
      checkRemoteStorage remote o now
      = mkStorageData None None None now (Some (error_message e))
  end.
Proof. unfold checkRemoteStorage. by destruct (about_try o). Qed.

(** C3 as stated fails: the record stored for "photos" has no [error] and
    no [total], so it is neither healthy nor failed. *)
Lemma record_neither_healthy_nor_failed :
  exists d, storageCache (run used_only_events initial).1 !! "photos" = Some d
    /\ ~ healthy_record d /\ ~ failed_record d.
Proof.
  exists (mkStorageData None (Some 1024) None 50 None).
  split; [reflexivity|]. split.
  - intros (_ & [t Ht] & _). discriminate Ht.
  - intros ([e He] & _). discriminate He.
Qed.

(** C3, amended.  In every run, every record the cache object holds under
    a name (as an own property, or as its prototype for the name
    "__proto__") is the record a probe of that remote returned: the job
    had sent the request for that remote, and the record is built from
    the daemon's answer to it.  A probe always returns a record: when the
    daemon's answer is a success, the record has no [error] and its
    [total], [used] and [free] are those of the answer, each present
    exactly when the answer carries it; on any failure the record has an
    [error] and none of the three sizes.  So no record in the cache has
    an [error] together with a size, and a record built from a success
    that carries [total] and [used] is healthy. *)
Theorem cache_records_from_probes :
  (forall evs remote d,
     holds (cacheObject (run evs initial).1) remote d ->
     probe_returned evs remote d
     /\ (error d = None \/ failed_record d))
  /\ (forall remote o now,
        match about_try o with
        | inr data =>
            checkRemoteStorage remote o now
            = mkStorageData (b_total data) (b_used data) (b_free data) now None
        | inl e =>
            checkRemoteStorage remote o now
            = mkStorageData None None None now (Some (error_message e))
            /\ failed_record (checkRemoteStorage remote o now)
        end)
  /\ (forall remote status statusText t u f e now,
        response_ok status = true ->
        healthy_record
          (checkRemoteStorage remote
             (FetchResponse status statusText
                (JsonObject (mkAboutBody (Some t) (Some u) f e))) now)).
Proof.
  split; [|split].
  - intros evs remote d Hd.
    pose proof (run_probes_only evs remote d Hd) as Hp. split; [exact Hp|].
    destruct Hp as (_ & _ & _ & _ & o & now & _ & _ & _ & _ & _
                    & _ & _ & _ & _ & _ & ->).
    unfold checkRemoteStorage.
    destruct (about_try o); [right | by left].
    by repeat split; simpl; eauto.
  - intros remote o now. pose proof (checkRemoteStorage_cases remote o now) as H.
    destruct (about_try o); [|done]. split; [done|]. rewrite H.
    by repeat split; simpl; eauto.
  - intros remote status statusText t u f e now Hok.
    unfold checkRemoteStorage, about_try. rewrite Hok.
    by repeat split; simpl; eauto.
Qed.

Lemma cache_records_from_probes_witness :
  (forall remote d,
     holds (cacheObject (run two_cycles initial).1) remote d ->
     probe_returned two_cycles remote d
     /\ (error d = None \/ failed_record d))
  /\ healthy_record (checkRemoteStorage "b" (about_ok 100 40 60) 1000).
Proof.
  destruct cache_records_from_probes as (H1 & _ & H3). split.
  - apply H1.
  - by apply H3.
Defined.

(** ** C8: a daemon error that signals an expired token *)

Lemma includes_app_r needle p e :
  includes needle e = true -> includes needle (p +:+ e) = true.
Proof.
  intros H. induction p as [|c p IH]; [exact H|].
  change (String c p +:+ e) with (String c (p +:+ e)).
  simpl. rewrite IH. apply orb_true_r.
Qed.

Lemma js_or_nonempty e b : e <> "" -> js_or (Some e) b = e.
Proof. intros H. unfold js_or. apply String.eqb_neq in H. by rewrite H. Qed.

(** C8 as stated fails: the daemon answers 401 with a body that contains
    "invalid_grant"; the cache record has its [error] set, yet the health
    check of the remote reports [error] and not [token_expired]. *)
Lemma auth_marker_with_status_401 :
  let o := FetchResponse 401 "Unauthorized"
             (JsonObject (mkAboutBody None None None (Some "oauth2: invalid_grant"))) in
  response_ok 401 = false
  /\ includes "invalid_grant" "oauth2: invalid_grant" = true
  /\ error (checkRemoteStorage "x" o 0) = Some "API error: 401 - oauth2: invalid_grant"
  /\ h_status (health_check (Some "x") o) = Some status_error
  /\ h_status (health_check (Some "x") o) <> Some token_expired.
Proof. repeat split; try reflexivity. discriminate. Qed.

(** C8, amended.  For every daemon answer with a non-success status,
    whatever its body, the probe returns a record without sizes whose
    [error] is "API error: <status> - <text>", where the text is the
    [error] of the body when the body is an object with a non-empty one
    and the status text otherwise; the record carries no classification
    of the failure, but every phrase found in the text is found in the
    record's [error].  The health check for that answer reports
    [token_expired] exactly when the status is 500 and the body has a
    non-empty [error] that contains "invalid_grant", "token expired" or
    "couldn't fetch token"; every other non-success answer is reported as
    [error], with the status of the daemon and the same text. *)
Theorem daemon_error_probe_and_health (remote : string) (status : nat)
    (statusText : string) (body : Json AboutBody) (now : Z) :
  response_ok status = false -> remote <> "" ->
  let o := FetchResponse status statusText body in
  let errorData := match body with JsonRejects _ => empty_body | JsonObject d => d end in
  let text := js_or (b_error errorData) statusText in
  checkRemoteStorage remote o now
  = mkStorageData None None None now
      (Some ("API error: " +:+ pretty status +:+ " - " +:+ text))
  /\ (forall e, b_error errorData = Some e -> e <> "" -> text = e)
  /\ (forall m, includes m text = true ->
        exists msg, error (checkRemoteStorage remote o now) = Some msg
                    /\ includes m msg = true)
  /\ (is_token_error status (b_error errorData) = true
      <-> status = 500%nat
          /\ exists e, b_error errorData = Some e /\ e <> ""
               /\ exists m, m ∈ token_markers /\ includes m e = true)
  /\ (is_token_error status (b_error errorData) = true ->
      health_check (Some remote) o
      = mkHealthResponse 200 false (Some token_expired)
          (Some "Authentication token expired") (Some remote) None)
  /\ (is_token_error status (b_error errorData) = false ->
      health_check (Some remote) o
      = mkHealthResponse status false (Some status_error)
          (Some ("Failed to check remote: " +:+ text)) (Some remote) None).
Proof.
  intros Hok Hr. cbv zeta.
  set (errorData := match body with JsonRejects _ => empty_body | JsonObject d => d end).
  assert (Hrec : checkRemoteStorage remote (FetchResponse status statusText body) now
                 = mkStorageData None None None now
                     (Some ("API error: " +:+ pretty status +:+ " - "
                            +:+ js_or (b_error errorData) statusText))).
  { unfold checkRemoteStorage, about_try. by rewrite Hok. }
  assert (Hh : health_check (Some remote) (FetchResponse status statusText body)
               = if is_token_error status (b_error errorData)
                 then mkHealthResponse 200 false (Some token_expired)
                        (Some "Authentication token expired") (Some remote) None
                 else mkHealthResponse status false (Some status_error)
                        (Some ("Failed to check remote: "
                               +:+ js_or (b_error errorData) statusText))
                        (Some remote) None).
  { unfold health_check. apply String.eqb_neq in Hr. by rewrite Hr, Hok. }
  refine (conj Hrec (conj _ (conj _ (conj _ (conj _ _))))).
  - intros e He Hne. rewrite He. by apply js_or_nonempty.
  - intros m Hm. rewrite Hrec. eexists. split; [reflexivity|].
    by do 3 apply includes_app_r.
  - unfold is_token_error. rewrite andb_true_iff, Nat.eqb_eq.
    destruct (b_error errorData) as [e|]; split.
    + intros [-> H]. apply andb_true_iff in H as [H1 H2].
      apply negb_true_iff, String.eqb_neq in H1.
      apply existsb_exists in H2 as (m & Hin & Hm).
      split; [done|]. exists e. repeat split; try done.
      exists m. split; [by apply list_elem_of_In | done].
    + intros (-> & e' & [= <-] & Hne & m & Hin & Hm). split; [done|].
      apply andb_true_iff. split; [by apply negb_true_iff, String.eqb_neq|].
      apply existsb_exists. exists m. split; [by apply list_elem_of_In | done].
    + intros [_ H]. discriminate H.
    + intros (_ & e' & H & _). discriminate H.
  - intros E. by rewrite Hh, E.
  - intros E. by rewrite Hh, E.
Qed.

Lemma daemon_error_probe_and_health_witness :
  let o := FetchResponse 500 "Internal Server Error"
             (JsonObject (mkAboutBody None None None
                (Some "couldn't fetch token: invalid_grant"))) in
  let o' := FetchResponse 502 "Bad Gateway"
              (JsonRejects (ThrownError "SyntaxError" "Unexpected token <")) in
  checkRemoteStorage "x" o 9
  = mkStorageData None None None 9
      (Some "API error: 500 - couldn't fetch token: invalid_grant")
  /\ health_check (Some "x") o
     = mkHealthResponse 200 false (Some token_expired)
         (Some "Authentication token expired") (Some "x") None
  /\ checkRemoteStorage "x" o' 9
     = mkStorageData None None None 9 (Some "API error: 502 - Bad Gateway")
  /\ health_check (Some "x") o'
     = mkHealthResponse 502 false (Some status_error)
         (Some "Failed to check remote: Bad Gateway") (Some "x") None.
Proof.
  destruct (daemon_error_probe_and_health "x" 500 "Internal Server Error"
              (JsonObject (mkAboutBody None None None
                 (Some "couldn't fetch token: invalid_grant"))) 9
              eq_refl ltac:(discriminate)) as (H1 & _ & _ & _ & H5 & _).
  destruct (daemon_error_probe_and_health "x" 502 "Bad Gateway"
              (JsonRejects (ThrownError "SyntaxError" "Unexpected token <")) 9
              eq_refl ltac:(discriminate)) as (H1' & _ & _ & _ & _ & H6').
  refine (conj H1 (conj (H5 eq_refl) (conj H1' (H6' eq_refl)))).
Defined.

(** ** C9: who is served by the two read endpoints *)

(** C9 on the code.  The page guard does not run for the two paths, so
    each handler decides for itself.  The stream handler rejects a caller
    without a session with 401 and changes nothing; with a session it
    opens a stream whose first message is the whole cache.  The snapshot
    handler never looks at the session: a caller without one receives
    [success: true] with the whole cache, like any other caller. *)
Theorem snapshot_served_without_session (s : Sys) (now : Z) :
  matcher "/api/rclone/storage" = false
  /\ matcher "/api/rclone/storage/stream" = false
  /\ stream_GET false now s = (s, [LReply ReplyUnauthorized])
  /\ (exists s' l,
        stream_GET true now s = (s', l ++ [LReply (ReplyStream (length (conns s)))])
        /\ conns s' !! length (conns s)
           = Some (mkConn false true [MsgInitial (storageCache s) now]))
  /\ (forall session, exists s' l,
        pull_GET session s
        = (s', l ++ [LReply (ReplySnapshot true (storageCache s)
                               (oldest_update (storageCache s)))])).
Proof.
  assert (Hstart : forall m, storageCache (startBackgroundJob m s).1 = storageCache s
                             /\ conns (startBackgroundJob m s).1 = conns s).
  { intros m. unfold startBackgroundJob, runStorageCheckJob.
    by destruct (backgroundJobTimer s), (backgroundJobRunning s). }
  split; [reflexivity | split; [reflexivity | split; [reflexivity | split]]].
  - unfold stream_GET. simpl. destruct (Hstart StreamRoute) as [Hc Hk].
    destruct (startBackgroundJob StreamRoute s) as [s1 l]. simpl in *.
    eexists _, l. rewrite Hc, Hk. split; [reflexivity|]. simpl.
    by rewrite lookup_app_r, Nat.sub_diag.
  - intros session. unfold pull_GET. destruct (Hstart PullRoute) as [Hc _].
    destruct (startBackgroundJob PullRoute s) as [s1 l]. simpl in *.
    exists s1, l. by rewrite Hc.
Qed.

(** ** C7: batches of five *)













(** ** C6: publishing to the subscribers *)

Lemma set_delete_lookup x d p :
  set_delete x d !! p
  = (fun e => if bool_decide (e = Some x) then None else e) <$> d !! p.
Proof. unfold set_delete. apply list_lookup_fmap. Qed.

Lemma set_delete_some x d p c :
  set_delete x d !! p = Some (Some c) -> d !! p = Some (Some c) /\ c <> x.
Proof.
  rewrite set_delete_lookup. destruct (d !! p) as [e|]; [|done]. simpl.
  case_bool_decide as He; [done|]. intros [= ->]. split; [done|]. congruence.
Qed.

Lemma set_delete_wf x d : set_wf d -> set_wf (set_delete x d).
Proof.
  intros Hwf p q c Hp Hq.
  apply set_delete_some in Hp as [Hp _]. apply set_delete_some in Hq as [Hq _].
  by eapply Hwf.
Qed.

Lemma handleStorageUpdate_open c u now s k :
  conns s !! c = Some k -> closed k = false ->
  handleStorageUpdate c u now s
  = with_conns (<[c := deliver (MsgUpdate u now) k]> (conns s)) s.
Proof. intros Hk Hc. unfold handleStorageUpdate, enqueue. by rewrite Hk, Hc. Qed.

Lemma handleStorageUpdate_closed c u now s :
  conn_open c s = false ->
  handleStorageUpdate c u now s
  = with_subscribers (set_delete c (storageSubscribers s)) s.
Proof.
  unfold conn_open, handleStorageUpdate, enqueue.
  destruct (conns s !! c) as [k|]; [|done]. by destruct (closed k).
Qed.

Lemma conn_open_cases c s :
  (exists k, conns s !! c = Some k /\ closed k = false /\ conn_open c s = true)
  \/ conn_open c s = false.
Proof.
  unfold conn_open. destruct (conns s !! c) as [k|]; [|by right].
  destruct (closed k) eqn:E; [by right | left; by exists k].
Qed.

Lemma forEach_from_spec fuel : forall i now s,
  set_wf (storageSubscribers s) ->
  (length (storageSubscribers s) <= fuel + i)%nat ->
  forEach_post i now s (forEach_from fuel i now s).
Proof.
  induction fuel as [|fuel IH]; intros i now s Hwf Hlen; simpl.
  { refine (conj eq_refl (conj (fun _ _ => eq_refl) (conj _ (conj (fun _ H => H) (fun _ _ => eq_refl))))).
    intros p c Hp Hc. apply lookup_lt_Some in Hc. lia. }
  destruct (storageSubscribers s !! i) as [[c|]|] eqn:Hi.
  - (* a subscriber at index i *)
    set (u := storageCache s).
    assert (Hother : forall p c', p <> i -> storageSubscribers s !! p = Some (Some c') -> c' <> c).
    { intros p c' Hne Hp ->. apply Hne. by eapply Hwf. }
    destruct (conn_open_cases c s) as [(k & Hk & Hclosed & Hopen) | Hopen].
    + (* the push succeeds *)
      rewrite (handleStorageUpdate_open c u now s k Hk Hclosed).
      set (s1 := with_conns _ s).
      assert (Hopen1 : forall c', c' <> c -> conn_open c' s1 = conn_open c' s).
      { intros c' Hne. unfold conn_open, s1. simpl.
        by rewrite list_lookup_insert_ne. }
      destruct (IH (S i) now s1 Hwf ltac:(simpl; lia)) as (L & P2 & P3 & P4 & P5).
      refine (conj L (conj _ (conj _ (conj P4 _)))).
      * intros p Hp. apply P2. lia.
      * intros p c' Hp Hc'. destruct (decide (p = i)) as [->|Hne].
        -- rewrite Hi in Hc'. injection Hc' as <-. rewrite Hopen. split.
           ++ rewrite P2 by lia. exact Hi.
           ++ rewrite P5.
              ** unfold s1. simpl. rewrite list_lookup_insert_eq, Hk; [done|].
                 by eapply lookup_lt_Some.
              ** intros p Hp' Hp''. simpl in Hp''.
                 assert (p = i) by (by eapply Hwf). lia.
        -- pose proof (Hother p c' Hne Hc') as Hcc.
           specialize (P3 p c' ltac:(lia) Hc'). rewrite Hopen1 in P3 by done.
           unfold s1 in P3 at 2 3. simpl in P3.
           by rewrite list_lookup_insert_ne in P3.
      * intros c' Hc'. rewrite P5.
        -- unfold s1. simpl. rewrite list_lookup_insert_ne; [done|].
           intros <-. by apply (Hc' i).
        -- intros p Hp. apply Hc'. lia.
    + (* the push fails: the subscriber deletes itself *)
      rewrite (handleStorageUpdate_closed c u now s Hopen).
      set (s1 := with_subscribers _ s).
      assert (Hkeep : forall p, p <> i ->
                storageSubscribers s1 !! p = storageSubscribers s !! p).
      { intros p Hne. unfold s1. simpl. rewrite set_delete_lookup.
        destruct (storageSubscribers s !! p) as [e|] eqn:Hp; [|done]. simpl.
        case_bool_decide as He; [|done]. subst e.
        exfalso. apply Hne. by eapply Hwf. }
      assert (Hgone : storageSubscribers s1 !! i = Some None).
      { unfold s1. simpl. rewrite set_delete_lookup, Hi. simpl.
        by rewrite bool_decide_eq_true_2. }
      destruct (IH (S i) now s1 (set_delete_wf _ _ Hwf)
                  ltac:(unfold s1, set_delete; simpl; rewrite length_fmap; lia))
        as (L & P2 & P3 & P4 & P5).
      refine (conj _ (conj _ (conj _ (conj _ _)))).
      * rewrite L. unfold s1, set_delete. simpl. apply length_fmap.
      * intros p Hp. rewrite P2 by lia. apply Hkeep. lia.
      * intros p c' Hp Hc'. destruct (decide (p = i)) as [->|Hne].
        -- rewrite Hi in Hc'. injection Hc' as <-. rewrite Hopen. split.
           ++ by apply P4.
           ++ rewrite P5; [done|]. intros p Hp' Hp''.
              apply set_delete_some in Hp'' as [_ Hcc]. done.
        -- specialize (P3 p c' ltac:(lia)). rewrite Hkeep in P3 by done.
           by apply P3.
      * intros p Hp. apply P4. destruct (decide (p = i)) as [->|Hne]; [done|].
        by rewrite Hkeep.
      * intros c' Hc'. rewrite P5; [done|]. intros p Hp Hp'.
        apply set_delete_some in Hp' as [Hp' _]. apply (Hc' p); [lia | done].
  - (* a deleted entry at index i *)
    destruct (IH (S i) now s Hwf ltac:(lia)) as (L & P2 & P3 & P4 & P5).
    refine (conj L (conj _ (conj _ (conj P4 _)))).
    + intros p Hp. apply P2. lia.
    + intros p c Hp Hc. apply P3; [|done].
      destruct (decide (p = i)) as [->|]; [congruence | lia].
    + intros c Hc. apply P5. intros p Hp. apply Hc. lia.
  - (* past the end *)
    refine (conj eq_refl (conj (fun _ _ => eq_refl) (conj _ (conj (fun _ H => H) (fun _ _ => eq_refl))))).
    intros p c Hp Hc. apply lookup_ge_None in Hi. apply lookup_lt_Some in Hc. lia.
Qed.

Lemma shrinks_same s s' :
  storageSubscribers s' = storageSubscribers s -> conns s' = conns s -> shrinks s s'.
Proof. intros Hs Hc. split; [by rewrite Hs | by rewrite Hc]. Qed.

Lemma shrinks_trans s1 s2 s3 : shrinks s1 s2 -> shrinks s2 s3 -> shrinks s1 s3.
Proof. intros [A1 B1] [A2 B2]. split; [auto | congruence]. Qed.

Lemma shrinks_delete c s :
  shrinks s (with_subscribers (set_delete c (storageSubscribers s)) s).
Proof.
  split; [|done]. intros p c' H. simpl in H. by apply set_delete_some in H as [H _].
Qed.

Lemma shrinks_conn c k s : shrinks s (with_conns (<[c := k]> (conns s)) s).
Proof. split; [done|]. simpl. apply length_insert. Qed.

Lemma handleStorageUpdate_shrinks c u now s : shrinks s (handleStorageUpdate c u now s).
Proof.
  unfold handleStorageUpdate, enqueue.
  destruct (conns s !! c) as [k|]; [destruct (closed k)|];
    auto using shrinks_delete, shrinks_conn.
Qed.

Lemma forEach_from_shrinks fuel : forall i now s, shrinks s (forEach_from fuel i now s).
Proof.
  induction fuel as [|fuel IH]; intros i now s; simpl; [by apply shrinks_same|].
  destruct (storageSubscribers s !! i) as [[c|]|]; [|apply IH|by apply shrinks_same].
  eapply shrinks_trans; [apply handleStorageUpdate_shrinks | apply IH].
Qed.

Lemma shrinks_inv s s' : subs_inv s -> shrinks s s' -> subs_inv s'.
Proof.
  intros [Hwf Hlt] [Hsub Hlen]. split.
  - intros p q c Hp Hq. apply Hsub in Hp, Hq. by eapply Hwf.
  - intros p c Hp. rewrite Hlen. eapply Hlt. by apply Hsub.
Qed.

Lemma runStorageCheckJob_conns m s :
  storageSubscribers (runStorageCheckJob m s).1 = storageSubscribers s
  /\ conns (runStorageCheckJob m s).1 = conns s.
Proof. unfold runStorageCheckJob. by destruct (backgroundJobRunning s). Qed.

Lemma startBackgroundJob_conns m s :
  storageSubscribers (startBackgroundJob m s).1 = storageSubscribers s
  /\ conns (startBackgroundJob m s).1 = conns s.
Proof.
  unfold startBackgroundJob. destruct (backgroundJobTimer s); [done|].
  apply runStorageCheckJob_conns.
Qed.

Lemma finally_conns j s :
  storageSubscribers (finally j s).1 = storageSubscribers s
  /\ conns (finally j s).1 = conns s.
Proof. unfold finally. simpl. by destruct (backgroundJobTimer s). Qed.

Lemma complete_shrinks j hasUpdates now s : shrinks s (complete j hasUpdates now s).1.
Proof.
  unfold complete.
  set (s1 := if hasUpdates then notifySubscribers now s else s).
  assert (H1 : shrinks s s1).
  { subst s1. destruct hasUpdates; [apply forEach_from_shrinks | by apply shrinks_same]. }
  destruct (finally_conns j s1) as [Hs Hc]. destruct (finally j s1) as [s2 l].
  eapply shrinks_trans; [exact H1 | by apply shrinks_same].
Qed.

Lemma step_subs_inv e s : subs_inv s -> subs_inv (step e s).1.
Proof.
  intros Hinv.
  destruct e as [m|t|id o|id index o now|session|session|session now|c now|c|c]; simpl.
  - apply (shrinks_inv s); [done|]. apply shrinks_same; apply runStorageCheckJob_conns.
  - destruct (List.find _ (timers s)) as [[t' m]|]; [|done].
    apply (shrinks_inv s); [done|].
    apply shrinks_same; apply (runStorageCheckJob_conns m (clearTimeout t s)).
  - destruct (find_job id (jobs s)) as [j|]; [|done].
    destruct (job_phase j); [|done].
    unfold remotes_listed. destruct (getRemotesList o) as [|r rs]; [|done].
    apply (shrinks_inv s); [done|]. apply shrinks_same; apply finally_conns.
  - destruct (find_job id (jobs s)) as [j|]; [|done].
    unfold probe_settled.
    destruct (job_phase j) as [|remotes remotesToCheck batch hasUpdates]; [done|].
    destruct (batch !! index) as [[remote [|]]|]; try done.
    destruct (mergeOne remote (checkRemoteStorage remote o now) (cacheObject s))
      as [cache changed].
    set (s1 := with_cacheObject cache s).
    destruct (forallb snd (<[index:=(remote, true)]> batch)); [|done].
    destruct remotesToCheck as [|r rs]; [|done].
    pose proof (complete_shrinks j (hasUpdates || changed) now s1) as H.
    destruct (complete j (hasUpdates || changed) now s1) as [s2 l].
    by apply (shrinks_inv s1).
  - unfold pull_GET. destruct (startBackgroundJob_conns PullRoute s) as [Hs Hc].
    destruct (startBackgroundJob PullRoute s) as [s1 l].
    apply (shrinks_inv s); [done | by apply shrinks_same].
  - unfold pull_POST. destruct (backgroundJobTimer s) as [t|].
    + destruct (runStorageCheckJob_conns PullRoute (with_timer None (clearTimeout t s)))
        as [Hs Hc].
      destruct (runStorageCheckJob PullRoute _) as [s1 l].
      apply (shrinks_inv s); [done | by apply shrinks_same].
    + destruct (runStorageCheckJob_conns PullRoute s) as [Hs Hc].
      destruct (runStorageCheckJob PullRoute s) as [s1 l].
      apply (shrinks_inv s); [done | by apply shrinks_same].
  - unfold stream_GET. destruct session; [|done]. simpl.
    destruct (startBackgroundJob_conns StreamRoute s) as [Hs Hc].
    destruct (startBackgroundJob StreamRoute s) as [s1 l]. simpl in *.
    destruct Hinv as [Hwf Hlt]. rewrite Hs, Hc.
    assert (Hfresh : set_has (length (conns s)) (storageSubscribers s) = false).
    { unfold set_has. apply bool_decide_eq_false. intros Hin.
      apply list_elem_of_lookup in Hin as [p Hp]. apply Hlt in Hp. lia. }
    unfold set_add. rewrite Hfresh. split; simpl.
    + intros p q c Hp Hq.
      apply lookup_snoc_Some in Hp as [[Hp1 Hp]|[Hp1 Hp]],
                                Hq as [[Hq1 Hq]|[Hq1 Hq]].
      * by eapply Hwf.
      * injection Hq as <-. apply Hlt in Hp. lia.
      * injection Hp as <-. apply Hlt in Hq. lia.
      * congruence.
    + intros p c Hp. rewrite length_app. simpl.
      apply lookup_snoc_Some in Hp as [[_ Hp]|[_ Hp]].
      * apply Hlt in Hp. lia.
      * injection Hp as <-. lia.
  - apply (shrinks_inv s); [done|]. unfold heartbeat_tick, enqueue.
    destruct (conns s !! c) as [k|] eqn:Hc; [|by apply shrinks_same].
    destruct (heartbeat k); [|by apply shrinks_same].
    destruct (closed k); [|apply shrinks_conn].
    unfold stop_heartbeat. rewrite Hc.
    eapply shrinks_trans; [apply shrinks_conn | apply shrinks_delete].
  - apply (shrinks_inv s); [done|]. unfold on_abort, stop_heartbeat.
    destruct (conns s !! c) as [k|] eqn:Hc; [|by apply shrinks_same].
    eapply shrinks_trans; [apply shrinks_conn | apply shrinks_delete].
  - apply (shrinks_inv s); [done|]. unfold sink_closed.
    destruct (conns s !! c) as [k|]; [apply shrinks_conn | by apply shrinks_same].
Qed.

Lemma reachable_subs_inv s : reachable s -> subs_inv s.
Proof.
  revert s. apply reachable_ind'.
  - split; [intros p q c Hp | intros p c Hp];
      simpl in Hp; by rewrite lookup_nil in Hp.
  - intros e s _ H. by apply step_subs_inv.
Qed.

(** C6.  The job publishes from a reachable state in which it has just
    merged a result, so from a reachable state with some cache.  Such a
    publish at time [now] treats every registered subscriber as follows:
    when its sink accepts data, it stays registered and its stream grows by
    exactly one message, the update carrying the cache; when the push
    fails, it is no longer registered afterwards and its stream is as it
    was.  Nobody else is registered afterwards and no other stream
    changes.  With three subscribers of which the second has a closed
    sink, the cycle that stores "a" delivers the snapshot to the first and
    the third, which stay registered, and the second is gone. *)
Theorem publish_reaches_open_sinks :
  (forall s cache now, reachable s ->
     let s0 := with_cache cache s in
     let s' := notifySubscribers now s0 in
     (forall c, Some c ∈ storageSubscribers s0 ->
        if conn_open c s0
        then Some c ∈ storageSubscribers s'
             /\ conns s' !! c = (deliver (MsgUpdate cache now) <$> (conns s0 !! c))
        else (Some c ∉ storageSubscribers s') /\ conns s' !! c = conns s0 !! c)
     /\ (forall c, Some c ∉ storageSubscribers s0 ->
           (Some c ∉ storageSubscribers s') /\ conns s' !! c = conns s0 !! c))
  /\ (let s := (run three_subscribers initial).1 in
      let s' := (run (three_subscribers ++ publish_events) initial).1 in
      let snapshot := {["a" := checkRemoteStorage "a" (about_ok 10 4 6) 9]} in
      LNotify 0 ∈ (run (three_subscribers ++ publish_events) initial).2
      /\ storageSubscribers s = [Some 0; Some 1; Some 2]%nat
      /\ storageSubscribers s' = [Some 0; None; Some 2]%nat
      /\ (received <$> (conns s' !! 0%nat))
         = Some [MsgInitial ∅ 1; MsgUpdate snapshot 9]
      /\ (received <$> (conns s' !! 1%nat)) = Some [MsgInitial ∅ 2]
      /\ (received <$> (conns s' !! 2%nat))
         = Some [MsgInitial ∅ 3; MsgUpdate snapshot 9]).
Proof.
  split.
  2: { split; [apply list_elem_of_In; vm_compute; tauto | by vm_compute]. }
  intros s cache now Hs. apply reachable_subs_inv in Hs as [Hwf _].
  set (s0 := with_cache cache s).
  destruct (forEach_from_spec (length (storageSubscribers s0)) 0 now s0 Hwf
              ltac:(lia)) as (L & _ & P3 & P4 & P5).
  fold (notifySubscribers now s0) in *. simpl.
  assert (Hback : forall p c,
            storageSubscribers (notifySubscribers now s0) !! p = Some (Some c) ->
            storageSubscribers s0 !! p = Some (Some c) /\ conn_open c s0 = true).
  { intros p c Hp.
    destruct (storageSubscribers s0 !! p) as [[c'|]|] eqn:Hp0.
    - specialize (P3 p c' ltac:(lia) Hp0). destruct (conn_open c' s0) eqn:Ho.
      + destruct P3 as [P3 _]. rewrite P3 in Hp. injection Hp as ->. done.
      + destruct P3 as [P3 _]. congruence.
    - apply P4 in Hp0. congruence.
    - apply lookup_ge_None in Hp0. apply lookup_lt_Some in Hp. lia. }
  split.
  - intros c Hin. apply list_elem_of_lookup in Hin as [p Hp].
    specialize (P3 p c ltac:(lia) Hp). destruct (conn_open c s0) eqn:Hopen.
    + destruct P3 as [P3 P3']. split; [|done].
      apply list_elem_of_lookup. by exists p.
    + destruct P3 as [P3 P3']. split; [|done].
      intros Hin. apply list_elem_of_lookup in Hin as [q Hq].
      apply Hback in Hq as [_ Hq]. congruence.
  - intros c Hnot. split.
    + intros Hin. apply list_elem_of_lookup in Hin as [q Hq].
      apply Hback in Hq as [Hq _]. apply Hnot. apply list_elem_of_lookup. by exists q.
    + apply P5. intros p _ Hp. apply Hnot. apply list_elem_of_lookup. by exists p.
Qed.

Lemma publish_reaches_open_sinks_witness :
  let s := (run (three_subscribers ++ [EvStreamGET true 4; EvAbort 3]) initial).1 in
  let s0 := with_cache {["a" := checkRemoteStorage "a" (about_ok 10 4 6) 9]} s in
  let s' := notifySubscribers 9 s0 in
  (forall c, Some c ∈ storageSubscribers s0 ->
     if conn_open c s0
     then Some c ∈ storageSubscribers s'
          /\ conns s' !! c
             = (deliver (MsgUpdate {["a" := checkRemoteStorage "a" (about_ok 10 4 6) 9]} 9)
                <$> (conns s0 !! c))
     else (Some c ∉ storageSubscribers s') /\ conns s' !! c = conns s0 !! c)
  /\ (forall c, Some c ∉ storageSubscribers s0 ->
        (Some c ∉ storageSubscribers s') /\ conns s' !! c = conns s0 !! c).
Proof.
  destruct publish_reaches_open_sinks as [H _].
  apply (H (run (three_subscribers ++ [EvStreamGET true 4; EvAbort 3]) initial).1).
  apply reachable_run, reachable_initial.
Defined.

(** * Properties of the rest of the code *)

Lemma foldr_min_spec (l : list (string * StorageData)) (z : Z) :
  let m := foldr (fun p acc => Z.min (lastUpdated p.2) acc) z l in
  m <= z /\ (forall p, p ∈ l -> m <= lastUpdated p.2)
  /\ (m = z \/ exists p, p ∈ l /\ m = lastUpdated p.2).
Proof.
  induction l as [|p l (IH1 & IH2 & IH3)]; simpl.
  - split; [lia|]. split; [|by left]. intros p Hp. by apply elem_of_nil in Hp.
  - split; [lia|]. split.
    + intros q Hq. apply elem_of_cons in Hq as [->|Hq]; [lia|].
      specialize (IH2 q Hq). lia.
    + destruct (Z.min_spec (lastUpdated p.2)
                  (foldr (fun p acc => Z.min (lastUpdated p.2) acc) z l))
        as [[_ ->]|[_ ->]].
      * right. exists p. split; [by left | done].
      * destruct IH3 as [->|(q & Hq & ->)]; [by left|].
        right. exists q. split; [by right | done].
Qed.

(** X1.  The [lastUpdated] of the snapshot reply is absent exactly when the
    cache is empty; otherwise it is the time stamp of some entry of the
    cache and no entry is older. *)
Theorem oldest_update_is_minimum (cache : StorageCache) :
  (oldest_update cache = None <-> cache = ∅)
  /\ forall m, oldest_update cache = Some m ->
       (exists remote d, cache !! remote = Some d /\ lastUpdated d = m)
       /\ (forall remote d, cache !! remote = Some d -> m <= lastUpdated d).
Proof.
  unfold oldest_update. destruct (map_to_list cache) as [|[r0 d0] rest] eqn:E.
  - apply map_to_list_empty_iff in E. split; [done | discriminate].
  - split.
    + split; [discriminate|]. intros ->. by rewrite map_to_list_empty in E.
    + intros m [= <-].
      pose proof (foldr_min_spec rest (lastUpdated d0)) as (H1 & H2 & H3).
      split.
      * destruct H3 as [->|([r d] & Hp & ->)].
        -- exists r0, d0. split; [|done]. apply elem_of_map_to_list.
           rewrite E. by left.
        -- exists r, d. split; [|done]. apply elem_of_map_to_list.
           rewrite E. by right.
      * intros r d Hd. apply elem_of_map_to_list in Hd. rewrite E in Hd.
        apply elem_of_cons in Hd as [[= -> ->]|Hd]; [done|].
        by apply (H2 (r, d)).
Qed.

Lemma timer_inv_ext s s' :
  timers s' = timers s -> backgroundJobTimer s' = backgroundJobTimer s ->
  backgroundJobRunning s' = backgroundJobRunning s -> next_job s' = next_job s ->
  timer_inv s -> timer_inv s'.
Proof. unfold timer_inv. intros E1 E2 E3 E4. rewrite E1, E2, E3, E4. auto. Qed.

Lemma timer_inv_start m s : timer_inv s -> timer_inv (runStorageCheckJob m s).1.
Proof.
  intros Hinv. unfold runStorageCheckJob.
  destruct (backgroundJobRunning s) eqn:Hr; [exact Hinv|].
  destruct Hinv as (H1 & H2 & H3).
  refine (conj _ (conj _ _)); simpl; [exact H1 | discriminate | discriminate].
Qed.

Lemma timer_inv_lazy_start m s : timer_inv s -> timer_inv (startBackgroundJob m s).1.
Proof.
  unfold startBackgroundJob. destruct (backgroundJobTimer s); [done|].
  apply timer_inv_start.
Qed.

Lemma clearTimeout_armed t s :
  timer_inv s -> backgroundJobTimer s = Some t -> timers (clearTimeout t s) = [].
Proof.
  intros (H1 & _) Ht. unfold clearTimeout. simpl.
  destruct (timers s) as [|[t' m] rest] eqn:E; [done|].
  destruct (H1 t' m) as [E' Ht']; [by left|].
  injection E' as ->. rewrite Ht in Ht'. injection Ht' as <-.
  simpl. by rewrite bool_decide_eq_true_2.
Qed.

Lemma timer_inv_cleared_start m s :
  timers s = [] ->
  (next_job s = 0%nat -> backgroundJobTimer s = None /\ backgroundJobRunning s = false) ->
  timer_inv (runStorageCheckJob m s).1.
Proof.
  intros Hts H2. unfold runStorageCheckJob.
  destruct (backgroundJobRunning s) eqn:Hr.
  - refine (conj _ (conj _ _)); simpl.
    + intros t m' Hin. rewrite Hts in Hin. by apply elem_of_nil in Hin.
    + rewrite Hr. exact H2.
    + congruence.
  - refine (conj _ (conj _ _)); simpl.
    + intros t m' Hin. rewrite Hts in Hin. by apply elem_of_nil in Hin.
    + discriminate.
    + discriminate.
Qed.

Lemma finally_timers j s :
  timer_inv s ->
  timers (finally j s).1 = [(next_timer s, job_owner j)]
  /\ backgroundJobTimer (finally j s).1 = Some (next_timer s)
  /\ backgroundJobRunning (finally j s).1 = false
  /\ next_job (finally j s).1 = next_job s.
Proof.
  intros Hinv. unfold finally. simpl.
  destruct (backgroundJobTimer s) as [t|] eqn:Ht; simpl.
  - pose proof (clearTimeout_armed t s Hinv Ht) as Hc.
    unfold clearTimeout in Hc. simpl in Hc. by rewrite Hc.
  - destruct Hinv as (H1 & _).
    destruct (timers s) as [|[t' m] rest] eqn:E; [done|].
    destruct (H1 t' m) as [_ Ht']; [by left | congruence].
Qed.

Lemma timer_inv_finally j s :
  timer_inv s -> backgroundJobRunning s = true -> timer_inv (finally j s).1.
Proof.
  intros Hinv Hr. destruct (finally_timers j s Hinv) as (Hts & Ht & Hr' & Hn).
  refine (conj _ (conj _ _)).
  - intros t m Hin. rewrite Hts in Hin |- *.
    apply list_elem_of_singleton in Hin as [= -> ->]. done.
  - rewrite Hn. intros H0. destruct Hinv as (_ & H2 & _).
    destruct (H2 H0). congruence.
  - by rewrite Hts.
Qed.

Lemma timer_inv_complete j hasUpdates now s :
  timer_inv s -> backgroundJobRunning s = true ->
  timer_inv (complete j hasUpdates now s).1.
Proof.
  intros Hinv Hr. unfold complete.
  set (s1 := if hasUpdates then notifySubscribers now s else s).
  assert (H1 : timer_inv s1 /\ backgroundJobRunning s1 = true).
  { subst s1. destruct hasUpdates; [|done].
    destruct (notifySubscribers_frame now s) as (_ & E2 & E3 & _ & E5 & E6 & _).
    split; [by eapply timer_inv_ext; [| | | |exact Hinv] | congruence]. }
  destruct H1 as [Hinv1 Hr1].
  pose proof (timer_inv_finally j s1 Hinv1 Hr1) as H.
  by destruct (finally j s1).
Qed.

Lemma step_timer_inv e s : sched_inv s -> timer_inv s -> timer_inv (step e s).1.
Proof.
  intros Hs Hinv.
  destruct e as [m|t|id o|id index o now|session|session|session now|c now|c|c]; simpl.
  - by apply timer_inv_start.
  - destruct (List.find _ (timers s)) as [[t' m]|] eqn:Hf; [|done].
    apply find_some in Hf as [Hin Ht]. simpl in Ht.
    apply bool_decide_eq_true in Ht. subst t'.
    destruct Hinv as (H1 & H2 & H3).
    destruct (H1 t m) as [Hts Hg]; [by apply list_elem_of_In|].
    apply timer_inv_cleared_start.
    + unfold clearTimeout. simpl. rewrite Hts. simpl. by rewrite bool_decide_eq_true_2.
    + exact H2.
  - destruct (find_job id (jobs s)) as [j|] eqn:Hf; [|done].
    destruct (sched_inv_find _ _ _ Hs Hf) as (Hj & _ & Hr & _).
    destruct (job_phase j); [|done].
    unfold remotes_listed. destruct (getRemotesList o) as [|r rs].
    + by apply timer_inv_finally.
    + by eapply timer_inv_ext; [| | | |exact Hinv].
  - destruct (find_job id (jobs s)) as [j|] eqn:Hf; [|done].
    destruct (sched_inv_find _ _ _ Hs Hf) as (Hj & _ & Hr & _).
    unfold probe_settled.
    destruct (job_phase j) as [|remotes remotesToCheck batch hasUpdates]; [done|].
    destruct (batch !! index) as [[remote [|]]|]; try done.
    destruct (mergeOne remote (checkRemoteStorage remote o now) (cacheObject s))
      as [cache changed].
    set (s1 := with_cacheObject cache s).
    assert (Hinv1 : timer_inv s1) by (by eapply timer_inv_ext; [| | | |exact Hinv]).
    destruct (forallb snd (<[index:=(remote, true)]> batch)).
    + destruct remotesToCheck as [|r rs].
      * pose proof (timer_inv_complete j (hasUpdates || changed) now s1 Hinv1 Hr) as H.
        by destruct (complete j (hasUpdates || changed) now s1).
      * by eapply timer_inv_ext; [| | | |exact Hinv].
    + by eapply timer_inv_ext; [| | | |exact Hinv].
  - unfold pull_GET. pose proof (timer_inv_lazy_start PullRoute s Hinv) as H.
    by destruct (startBackgroundJob PullRoute s).
  - unfold pull_POST. destruct (backgroundJobTimer s) as [t|] eqn:Ht.
    + pose proof (timer_inv_cleared_start PullRoute (with_timer None (clearTimeout t s))) as H.
      destruct (runStorageCheckJob PullRoute _). simpl in *. apply H.
      * by apply clearTimeout_armed.
      * intros H0. destruct Hinv as (_ & H2 & _). destruct (H2 H0). done.
    + pose proof (timer_inv_start PullRoute s Hinv) as H.
      by destruct (runStorageCheckJob PullRoute s).
  - unfold stream_GET. destruct session; simpl; [|done].
    pose proof (timer_inv_lazy_start StreamRoute s Hinv) as H.
    destruct (startBackgroundJob StreamRoute s) as [s1 l]. simpl in *.
    by eapply timer_inv_ext; [| | | |exact H].
  - eapply timer_inv_ext; [| | | |exact Hinv]; unfold heartbeat_tick, enqueue, stop_heartbeat;
      destruct (conns s !! c) as [k|]; try done;
      destruct (heartbeat k), (closed k); done.
  - eapply timer_inv_ext; [| | | |exact Hinv]; unfold on_abort, stop_heartbeat;
      destruct (conns s !! c) as [k|]; done.
  - eapply timer_inv_ext; [| | | |exact Hinv]; unfold sink_closed;
      destruct (conns s !! c) as [k|]; done.
Qed.

Lemma reachable_timer_inv s : reachable s -> timer_inv s.
Proof.
  revert s. apply reachable_ind'.
  - refine (conj _ (conj _ _)); simpl; try done.
    intros t m H. by apply elem_of_nil in H.
  - intros e s Hs IH. apply step_timer_inv; [by apply reachable_sched_inv | done].
Qed.

(** X2.  In every reachable state at most one timer of the event loop is
    armed, and it is the one whose handle the global holds: the [finally]
    block and the manual refresh clear the old timer before a new one
    exists, so cycles never multiply. *)
Theorem single_pending_timer (s : Sys) :
  reachable s ->
  (length (timers s) <= 1)%nat
  /\ forall t m, (t, m) ∈ timers s -> backgroundJobTimer s = Some t.
Proof.
  intros Hs. destruct (reachable_timer_inv s Hs) as (H1 & _).
  split.
  - destruct (timers s) as [|[t m] rest] eqn:E; [simpl; lia|].
    destruct (H1 t m) as [E' _]; [by left|]. injection E' as ->. simpl. lia.
  - intros t m Hin. by destruct (H1 t m Hin).
Qed.

Lemma single_pending_timer_witness :
  let s := (run two_cycles initial).1 in
  (length (timers s) <= 1)%nat
  /\ forall t m, (t, m) ∈ timers s -> backgroundJobTimer s = Some t.
Proof. apply single_pending_timer. apply reachable_run, reachable_initial. Defined.

(** X3.  The scheduler never stalls: once a call of the job was made,
    in every reachable state without a call in progress exactly one timer
    is armed, and when it fires the next cycle starts by asking the daemon
    for the listing. *)
Theorem scheduler_stays_armed (s : Sys) :
  reachable s -> backgroundJobRunning s = false -> next_job s <> 0%nat ->
  exists t m, timers s = [(t, m)] /\ backgroundJobTimer s = Some t
    /\ backgroundJobRunning (step (EvTimer t) s).1 = true
    /\ timers (step (EvTimer t) s).1 = []
    /\ (step (EvTimer t) s).2 = [LFetchRemotes (next_job s)].
Proof.
  intros Hs Hr Hn. destruct (reachable_timer_inv s Hs) as (H1 & _ & H3).
  specialize (H3 Hr Hn).
  destruct (timers s) as [|[t m] rest] eqn:E; [done|].
  destruct (H1 t m) as [E' Ht]; [by left|]. injection E' as ->.
  exists t, m. split; [done|]. split; [done|].
  simpl. rewrite E. simpl. rewrite bool_decide_eq_true_2 by done.
  unfold runStorageCheckJob. simpl. rewrite Hr. simpl. rewrite E. simpl.
  by rewrite bool_decide_eq_true_2.
Qed.

Lemma scheduler_stays_armed_witness :
  let s := (run two_cycles initial).1 in
  exists t m, timers s = [(t, m)] /\ backgroundJobTimer s = Some t
    /\ backgroundJobRunning (step (EvTimer t) s).1 = true
    /\ timers (step (EvTimer t) s).1 = []
    /\ (step (EvTimer t) s).2 = [LFetchRemotes (next_job s)].
Proof.
  apply scheduler_stays_armed;
    [apply reachable_run, reachable_initial | reflexivity | vm_compute; discriminate].
Defined.

(** X4.  As long as no call of the job was ever made, the first request
    for the snapshot, or the first stream opened with a session, starts the
    first cycle: the lazy start is never blocked by a stale timer handle
    or flag. *)
Theorem first_request_starts_first_cycle (s : Sys) (now : Z) :
  reachable s -> next_job s = 0%nat ->
  (forall session,
     LFetchRemotes 0 ∈ (pull_GET session s).2
     /\ backgroundJobRunning (pull_GET session s).1 = true)
  /\ LFetchRemotes 0 ∈ (stream_GET true now s).2
  /\ backgroundJobRunning (stream_GET true now s).1 = true.
Proof.
  intros Hs Hn. destruct (reachable_timer_inv s Hs) as (_ & H2 & _).
  destruct (H2 Hn) as [Ht Hr].
  unfold pull_GET, stream_GET, startBackgroundJob, runStorageCheckJob.
  rewrite Ht, Hr, Hn. simpl. repeat split; by left.
Qed.

Lemma first_request_starts_first_cycle_witness :
  let s := (run [EvStreamGET false 1; EvTimer 3; EvAbort 0; EvHeartbeat 2 5] initial).1 in
  (forall session,
     LFetchRemotes 0 ∈ (pull_GET session s).2
     /\ backgroundJobRunning (pull_GET session s).1 = true)
  /\ LFetchRemotes 0 ∈ (stream_GET true 9 s).2
  /\ backgroundJobRunning (stream_GET true 9 s).1 = true.
Proof.
  apply first_request_starts_first_cycle;
    [apply reachable_run, reachable_initial | reflexivity].
Defined.

Lemma mergeOne_lookup remote result (cache : PlainObject StorageData) r :
  is_Some (own cache !! r) \/ (r = remote /\ r ∉ inherited_names) ->
  is_Some (own (mergeOne remote result cache).1 !! r).
Proof.
  assert (Hkeep : is_Some (own cache !! r) ->
                  is_Some (own (mergeOne remote result cache).1 !! r)).
  { intros H. unfold mergeOne. cbn [fst].
    destruct (hasChanged _ _); [by apply js_set_keeps | done]. }
  intros [H|[-> Hn]]; [by apply Hkeep|].
  destruct (own cache !! remote) as [old|] eqn:Ho; [apply Hkeep; by exists old|].
  unfold mergeOne. cbn [fst].
  rewrite (js_get_inherited _ _ Ho), (inherited_undefined _ _ Hn). simpl.
  rewrite js_set_own; [simpl; by rewrite lookup_insert_eq|].
  left. intros ->. apply Hn. by left.
Qed.

Lemma step_cache_grows e s r :
  is_Some (storageCache s !! r) -> is_Some (storageCache (step e s).1 !! r).
Proof.
  intros H. destruct (step_own_cache e s) as [-> | (remote & o & now & ->)]; [done|].
  apply (mergeOne_lookup remote _ (cacheObject s)). by left.
Qed.



(** X5.  No entry of the cache is ever removed: whatever happens, a remote
    that has a record keeps one (also when the daemon no longer lists
    it). *)
Theorem cache_entries_never_removed (evs : list Event) (s : Sys) :
  dom (storageCache s) ⊆ dom (storageCache (run evs s).1).
Proof.
  revert s. induction evs as [|e evs IH]; intros s; simpl; [done|].
  pose proof (fun r => step_cache_grows e s r) as H.
  destruct (step e s) as [s1 l1]. specialize (IH s1).
  destruct (run evs s1) as [s2 l2]. simpl in *.
  etrans; [|exact IH]. intros r Hr. apply elem_of_dom. apply H.
  by apply elem_of_dom.
Qed.















Lemma publish_skips_unregistered now s c :
  set_wf (storageSubscribers s) -> Some c ∉ storageSubscribers s ->
  conns (notifySubscribers now s) !! c = conns s !! c
  /\ Some c ∉ storageSubscribers (notifySubscribers now s).
Proof.
  intros Hwf Hnot.
  destruct (forEach_from_spec (length (storageSubscribers s)) 0 now s Hwf ltac:(lia))
    as (_ & _ & _ & _ & P5).
  split.
  - apply P5. intros p _ Hp. apply Hnot. apply list_elem_of_lookup. by exists p.
  - intros Hin. apply list_elem_of_lookup in Hin as [p Hp].
    destruct (forEach_from_shrinks (length (storageSubscribers s)) 0 now s) as [Hsub _].
    apply Hsub in Hp. apply Hnot. apply list_elem_of_lookup. by exists p.
Qed.

Lemma publish_delivers now s c k :
  set_wf (storageSubscribers s) -> Some c ∈ storageSubscribers s ->
  conns s !! c = Some k -> closed k = false ->
  conns (notifySubscribers now s) !! c
  = Some (deliver (MsgUpdate (storageCache s) now) k)
  /\ Some c ∈ storageSubscribers (notifySubscribers now s).
Proof.
  intros Hwf Hin Hk Hopen. apply list_elem_of_lookup in Hin as [p Hp].
  destruct (forEach_from_spec (length (storageSubscribers s)) 0 now s Hwf ltac:(lia))
    as (_ & _ & P3 & _ & _).
  specialize (P3 p c ltac:(lia) Hp). unfold conn_open in P3. rewrite Hk, Hopen in P3.
  simpl in P3. destruct P3 as [P3 P3']. split; [exact P3'|].
  apply list_elem_of_lookup. by exists p.
Qed.

Lemma fresh_conn_unregistered s :
  subs_inv s -> Some (length (conns s)) ∉ storageSubscribers s.
Proof.
  intros [_ Hlt] Hin. apply list_elem_of_lookup in Hin as [p Hp].
  apply Hlt in Hp. lia.
Qed.

(** The state after a stream was opened from a reachable state. *)
Lemma stream_GET_state s t :
  reachable s ->
  let s1 := (stream_GET true t s).1 in
  storageSubscribers s1 = storageSubscribers s ++ [Some (length (conns s))]
  /\ conns s1 = conns s ++ [mkConn false true [MsgInitial (storageCache s) t]]
  /\ storageCache s1 = storageCache s
  /\ set_wf (storageSubscribers s1).
Proof.
  intros Hs. cbv zeta.
  pose proof (reachable_subs_inv s Hs) as Hinv.
  pose proof (reachable_subs_inv _ (reachable_step (EvStreamGET true t) s Hs)) as [Hwf _].
  pose proof (fresh_conn_unregistered s Hinv) as Hfresh.
  simpl in Hwf. unfold stream_GET in *. simpl in *.
  assert (Hstart : storageCache (startBackgroundJob StreamRoute s).1 = storageCache s
                   /\ storageSubscribers (startBackgroundJob StreamRoute s).1
                      = storageSubscribers s
                   /\ conns (startBackgroundJob StreamRoute s).1 = conns s).
  { unfold startBackgroundJob, runStorageCheckJob.
    by destruct (backgroundJobTimer s), (backgroundJobRunning s). }
  destruct Hstart as (Hc & Hsub & Hk).
  destruct (startBackgroundJob StreamRoute s) as [s1 l]. simpl in *.
  rewrite Hc, Hsub, Hk in *.
  assert (Hhas : set_has (length (conns s)) (storageSubscribers s) = false).
  { unfold set_has. by apply bool_decide_eq_false. }
  unfold set_add in *. by rewrite Hhas in *.
Qed.

Lemma stream_then_publish s t cache now :
  reachable s ->
  let c := length (conns s) in
  let s2 := notifySubscribers now (with_cache cache (stream_GET true t s).1) in
  conns s2 !! c
  = Some (mkConn false true [MsgInitial (storageCache s) t; MsgUpdate cache now])
  /\ Some c ∈ storageSubscribers s2.
Proof.
  intros Hs. cbv zeta. destruct (stream_GET_state s t Hs) as (Hsub & Hk & Hc & Hwf).
  apply (publish_delivers now (with_cache cache (stream_GET true t s).1)
           (length (conns s)) (mkConn false true [MsgInitial (storageCache s) t])).
  - exact Hwf.
  - simpl. rewrite Hsub. apply elem_of_app. right. by apply list_elem_of_singleton.
  - simpl. rewrite Hk. by rewrite lookup_app_r, Nat.sub_diag.
  - done.
Qed.

(** X8.  A client that opens the stream in a reachable state gets a
    connection of its own: it was not registered before, its stream starts
    with the snapshot of the cache, it is registered afterwards, and the
    next publish appends exactly one update to its stream and keeps it
    registered. *)
Theorem new_stream_receives_next_publish (s : Sys) (t : Z) :
  reachable s ->
  let c := length (conns s) in
  let s1 := (stream_GET true t s).1 in
  (Some c ∉ storageSubscribers s)
  /\ Some c ∈ storageSubscribers s1
  /\ conns s1 !! c = Some (mkConn false true [MsgInitial (storageCache s) t])
  /\ (exists l, (stream_GET true t s).2 = l ++ [LReply (ReplyStream c)])
  /\ forall cache now,
       let s2 := notifySubscribers now (with_cache cache s1) in
       conns s2 !! c
       = Some (mkConn false true [MsgInitial (storageCache s) t; MsgUpdate cache now])
       /\ Some c ∈ storageSubscribers s2.
Proof.
  intros Hs. cbv zeta. destruct (stream_GET_state s t Hs) as (Hsub & Hk & Hc & Hwf).
  refine (conj _ (conj _ (conj _ (conj _ _)))).
  - apply fresh_conn_unregistered. by apply reachable_subs_inv.
  - rewrite Hsub. apply elem_of_app. right. by apply list_elem_of_singleton.
  - rewrite Hk. by rewrite lookup_app_r, Nat.sub_diag.
  - unfold stream_GET. simpl.
    assert (Hconns : conns (startBackgroundJob StreamRoute s).1 = conns s).
    { unfold startBackgroundJob, runStorageCheckJob.
      by destruct (backgroundJobTimer s), (backgroundJobRunning s). }
    destruct (startBackgroundJob StreamRoute s) as [s1 l]. simpl in *.
    exists l. by rewrite Hconns.
  - intros cache now. by apply stream_then_publish.
Qed.

Lemma new_stream_receives_next_publish_witness :
  let s := (run three_subscribers initial).1 in
  let c := length (conns s) in
  let s1 := (stream_GET true 4 s).1 in
  (Some c ∉ storageSubscribers s)
  /\ Some c ∈ storageSubscribers s1
  /\ conns s1 !! c = Some (mkConn false true [MsgInitial (storageCache s) 4])
  /\ (exists l, (stream_GET true 4 s).2 = l ++ [LReply (ReplyStream c)])
  /\ forall cache now,
       let s2 := notifySubscribers now (with_cache cache s1) in
       conns s2 !! c
       = Some (mkConn false true [MsgInitial (storageCache s) 4; MsgUpdate cache now])
       /\ Some c ∈ storageSubscribers s2.
Proof.
  apply (new_stream_receives_next_publish (run three_subscribers initial).1 4).
  apply reachable_run, reachable_initial.
Defined.

Lemma set_delete_gone c d : Some c ∉ set_delete c d.
Proof.
  intros Hin. apply list_elem_of_lookup in Hin as [p Hp].
  by apply set_delete_some in Hp as [_ Hne].
Qed.

Lemma set_delete_others c c' d : c' <> c -> Some c' ∈ set_delete c d <-> Some c' ∈ d.
Proof.
  intros Hne. split; intros Hin; apply list_elem_of_lookup in Hin as [p Hp];
    apply list_elem_of_lookup; exists p.
  - by apply set_delete_some in Hp as [Hp _].
  - rewrite set_delete_lookup, Hp. simpl.
    rewrite bool_decide_eq_false_2; [done | congruence].
Qed.

(** X9.  When the request of a stream is aborted, the connection leaves
    the subscriber set and its heartbeat stops; the other subscribers, the
    other streams, the cache and the refresh cycle are untouched (a
    disconnect cancels nothing but its own subscription).  From then on
    neither a publish nor a heartbeat tick writes to the connection. *)
Theorem abort_unsubscribes_only_itself (s : Sys) (c : nat) :
  reachable s ->
  let s1 := on_abort c s in
  (Some c ∉ storageSubscribers s1)
  /\ (forall c', c' <> c ->
        (Some c' ∈ storageSubscribers s1 <-> Some c' ∈ storageSubscribers s)
        /\ conns s1 !! c' = conns s !! c')
  /\ (received <$> conns s1 !! c) = (received <$> conns s !! c)
  /\ scheduler_view s1 = scheduler_view s
  /\ (forall cache now,
        conns (notifySubscribers now (with_cache cache s1)) !! c = conns s1 !! c)
  /\ forall now, heartbeat_tick c now s1 = s1.
Proof.
  intros Hs. simpl.
  pose proof (reachable_subs_inv s Hs) as Hinv.
  pose proof (reachable_subs_inv _ (reachable_step (EvAbort c) s Hs)) as [Hwf1 _].
  simpl in Hwf1.
  assert (Hgone : Some c ∉ storageSubscribers (on_abort c s)).
  { unfold on_abort, stop_heartbeat.
    destruct (conns s !! c) as [k|] eqn:Hk; simpl; [apply set_delete_gone|].
    intros Hin. apply list_elem_of_lookup in Hin as [p Hp].
    destruct Hinv as [_ Hlt]. apply Hlt in Hp. apply lookup_ge_None in Hk. lia. }
  refine (conj Hgone (conj _ (conj _ (conj _ (conj _ _))))).
  - intros c' Hne. unfold on_abort, stop_heartbeat.
    destruct (conns s !! c) as [k|] eqn:Hk; simpl; [|done].
    split; [by apply set_delete_others | by rewrite list_lookup_insert_ne].
  - unfold on_abort, stop_heartbeat.
    destruct (conns s !! c) as [k|] eqn:Hk; simpl; [|by rewrite Hk].
    rewrite list_lookup_insert_eq by (by eapply lookup_lt_Some). done.
  - unfold on_abort, stop_heartbeat. by destruct (conns s !! c).
  - intros cache now.
    by apply (publish_skips_unregistered now (with_cache cache (on_abort c s)) c).
  - intros now. unfold heartbeat_tick, on_abort, stop_heartbeat.
    destruct (conns s !! c) as [k|] eqn:Hk; simpl; [|by rewrite Hk].
    rewrite list_lookup_insert_eq by (by eapply lookup_lt_Some). done.
Qed.

Lemma abort_unsubscribes_only_itself_witness :
  let s := (run three_subscribers initial).1 in
  let s1 := on_abort 0 s in
  (Some 0%nat ∉ storageSubscribers s1)
  /\ (forall c', c' <> 0%nat ->
        (Some c' ∈ storageSubscribers s1 <-> Some c' ∈ storageSubscribers s)
        /\ conns s1 !! c' = conns s !! c')
  /\ (received <$> conns s1 !! 0%nat) = (received <$> conns s !! 0%nat)
  /\ scheduler_view s1 = scheduler_view s
  /\ (forall cache now,
        conns (notifySubscribers now (with_cache cache s1)) !! 0%nat = conns s1 !! 0%nat)
  /\ forall now, heartbeat_tick 0 now s1 = s1.
Proof.
  apply (abort_unsubscribes_only_itself (run three_subscribers initial).1 0).
  apply reachable_run, reachable_initial.
Defined.

(** X10.  A heartbeat tick of a connection concerns that connection only:
    the scheduler, the cache, the other streams and the other subscribers
    stay as they are.  On an open sink it appends one heartbeat message and
    the connection stays registered; on a sink that throws it writes
    nothing, removes the connection from the subscriber set and clears its
    own interval, so that every later tick does nothing. *)
Theorem heartbeat_concerns_own_connection (s : Sys) (c : nat) (k : Conn) (now : Z) :
  conns s !! c = Some k -> heartbeat k = true ->
  let s1 := heartbeat_tick c now s in
  scheduler_view s1 = scheduler_view s
  /\ (forall c', c' <> c ->
        (Some c' ∈ storageSubscribers s1 <-> Some c' ∈ storageSubscribers s)
        /\ conns s1 !! c' = conns s !! c')
  /\ (if closed k
      then conns s1 !! c = Some (mkConn true false (received k))
           /\ (Some c ∉ storageSubscribers s1)
           /\ forall now', heartbeat_tick c now' s1 = s1
      else conns s1 !! c = Some (mkConn false true (received k ++ [MsgHeartbeat now]))
           /\ storageSubscribers s1 = storageSubscribers s).
Proof.
  intros Hk Hb. simpl. unfold heartbeat_tick, enqueue, stop_heartbeat.
  rewrite Hk, Hb. pose proof (lookup_lt_Some _ _ _ Hk) as Hlt.
  destruct (closed k) eqn:Hc; simpl.
  - refine (conj eq_refl (conj _ (conj _ (conj _ _)))).
    + intros c' Hne. split; [by apply set_delete_others | by rewrite list_lookup_insert_ne].
    + by rewrite list_lookup_insert_eq by done.
    + apply set_delete_gone.
    + intros now'. by rewrite list_lookup_insert_eq by done.
  - refine (conj eq_refl (conj _ (conj _ eq_refl))).
    + intros c' Hne. split; [done | by rewrite list_lookup_insert_ne].
    + by rewrite list_lookup_insert_eq by done.
Qed.

Lemma heartbeat_concerns_own_connection_witness :
  let s := (run three_subscribers initial).1 in
  let s1 := heartbeat_tick 1 8 s in
  scheduler_view s1 = scheduler_view s
  /\ (forall c', c' <> 1%nat ->
        (Some c' ∈ storageSubscribers s1 <-> Some c' ∈ storageSubscribers s)
        /\ conns s1 !! c' = conns s !! c')
  /\ conns s1 !! 1%nat = Some (mkConn true false [MsgInitial ∅ 2])
  /\ (Some 1%nat ∉ storageSubscribers s1)
  /\ forall now', heartbeat_tick 1 now' s1 = s1.
Proof.
  exact (heartbeat_concerns_own_connection (run three_subscribers initial).1 1
           (mkConn true true [MsgInitial ∅ 2]) 8 eq_refl eq_refl).
Defined.

(** ** The sidebar *)

Lemma entry_no_property (p : RemoteStorageEntry) key :
  key ∉ sidebar_inherited_names -> own_property p key = None.
Proof.
  intros Hn.
  assert (H : forall n, In n sidebar_inherited_names -> String.eqb key n = false).
  { intros n Hin. apply String.eqb_neq. intros ->. by apply Hn, list_elem_of_In. }
  unfold own_property, RemoteStorageEntry_properties.
  rewrite (H "total"), (H "used"), (H "free"), (H "loading"), (H "error");
    (done || (simpl; tauto)).
Qed.

Lemma entry_no_function (p : RemoteStorageEntry) key :
  key ∈ Object_prototype_functions -> own_property p key = None.
Proof.
  intros Hin. apply list_elem_of_In in Hin. simpl in Hin.
  repeat destruct Hin as [<-|Hin]; try reflexivity. done.
Qed.

(** The first loop: every entry of the server data but one named
    "__proto__" becomes an own property. *)
Lemma convert_lookup (l : list (string * StorageData)) :
  NoDup l.*1 -> forall (acc : PlainObject RemoteStorageEntry) r,
  r <> "__proto__" ->
  own (foldl (fun newStorageStatus entry =>
                js_set newStorageStatus entry.1 (server_entry entry.2)) acc l) !! r
  = match (list_to_map l : StorageCache) !! r with
    | Some d => Some (server_entry d)
    | None => own acc !! r
    end.
Proof.
  induction l as [|[k d] l IH]; intros Hnd acc r Hr; [done|].
  apply NoDup_cons in Hnd as [Hk Hnd]. cbn [foldl fst snd].
  rewrite IH by done. cbn [list_to_map foldr fst snd uncurry].
  destruct (decide (r = k)) as [->|Hne].
  - rewrite lookup_insert_eq.
    rewrite (not_elem_of_list_to_map_1 _ _ Hk).
    rewrite js_set_own by (by left). simpl. by rewrite lookup_insert_eq.
  - rewrite lookup_insert_ne by done. by rewrite js_set_lookup_ne.
Qed.

Lemma convert_no_proto (l : list (string * StorageData)) :
  forall acc : PlainObject RemoteStorageEntry,
  own acc !! "__proto__" = None ->
  own (foldl (fun newStorageStatus entry =>
                js_set newStorageStatus entry.1 (server_entry entry.2)) acc l)
    !! "__proto__" = None.
Proof.
  induction l as [|[k d] l IH]; intros acc Hacc; [done|].
  cbn [foldl]. apply IH. by apply js_set_no_proto.
Qed.

(** The second loop, for a name under which the object yields nothing
    without an entry. *)
Lemma add_missing_lookup (remotes : list string) :
  forall (acc : PlainObject RemoteStorageEntry) (r : string),
  r ∉ sidebar_inherited_names ->
  own (foldl (fun newStorageStatus remote =>
                if truthy (js_get newStorageStatus remote) then newStorageStatus
                else js_set newStorageStatus remote loading_entry) acc remotes) !! r
  = match own acc !! r with
    | Some e => Some e
    | None => if bool_decide (r ∈ remotes) then Some loading_entry else None
    end.
Proof.
  induction remotes as [|remote remotes IH]; intros acc r Hn; simpl.
  - by destruct (own acc !! r).
  - assert (Hr : r <> "__proto__") by (intros ->; apply Hn; by left).
    rewrite IH by done. destruct (decide (r = remote)) as [<-|Hne].
    + rewrite (bool_decide_eq_true_2 (r ∈ r :: remotes)) by (by left).
      destruct (own acc !! r) as [e|] eqn:E.
      * rewrite (js_get_own _ _ _ E). simpl. by rewrite E.
      * rewrite (js_get_inherited _ _ E), js_inherited_undefined; simpl.
        -- rewrite js_set_own by (by left). simpl. by rewrite lookup_insert_eq.
        -- intros p. by apply entry_no_property.
        -- done.
        -- intros Hin. apply Hn. unfold sidebar_inherited_names. right.
           apply elem_of_app. by left.
    + assert (Hin : bool_decide (r ∈ remote :: remotes) = bool_decide (r ∈ remotes)).
      { apply bool_decide_ext. rewrite elem_of_cons. tauto. }
      rewrite Hin. destruct (truthy (js_get acc remote)); [done|].
      by rewrite js_set_lookup_ne.
Qed.

(** The second loop, for the name of a function of [Object.prototype]:
    the test finds the function and no entry is added. *)
Lemma add_missing_function (remotes : list string) :
  forall (acc : PlainObject RemoteStorageEntry) (r : string),
  r ∈ Object_prototype_functions -> own acc !! r = None ->
  own (foldl (fun newStorageStatus remote =>
                if truthy (js_get newStorageStatus remote) then newStorageStatus
                else js_set newStorageStatus remote loading_entry) acc remotes) !! r
  = None.
Proof.
  induction remotes as [|remote remotes IH]; intros acc r Hf Hacc; simpl; [done|].
  apply IH; [done|]. destruct (decide (r = remote)) as [<-|Hne].
  - rewrite (js_get_inherited _ _ Hacc), js_inherited_function; [done| |done].
    intros p. by apply entry_no_function.
  - destruct (truthy (js_get acc remote)); [done|]. by rewrite js_set_lookup_ne.
Qed.

Lemma add_missing_no_proto (remotes : list string) :
  forall acc : PlainObject RemoteStorageEntry,
  own acc !! "__proto__" = None ->
  own (foldl (fun newStorageStatus remote =>
                if truthy (js_get newStorageStatus remote) then newStorageStatus
                else js_set newStorageStatus remote loading_entry) acc remotes)
    !! "__proto__" = None.
Proof.
  induction remotes as [|remote remotes IH]; intros acc Hacc; simpl; [done|].
  apply IH. destruct (truthy (js_get acc remote)); [done|]. by apply js_set_no_proto.
Qed.

(** X11.  What the sidebar shows.  After a snapshot of the cache arrived
    its state has, under a name that is none of
    [sidebar_inherited_names], the sizes and the error of the entry of
    that name, not loading; for a remote of its list without an entry,
    the loading state; nothing for any other name.  A remote of its list
    that is named like a function of [Object.prototype] and has no entry
    gets no loading state, and nothing is ever shown under the name
    "__proto__".  A heartbeat leaves the state as it is.  End to end: a
    sidebar that opened its stream in a reachable state shows, after the
    next publish, the published cache; and the fallback poll of the
    snapshot endpoint makes it show what a stream opened at that moment
    starts with, the cache as it is. *)
Theorem sidebar_follows_the_cache (s : Sys) (remotes : list string) (t : Z) :
  reachable s ->
  (forall data r, r ∉ sidebar_inherited_names ->
     own (updateStorageFromServerData remotes data) !! r
     = match data !! r with
       | Some d => Some (mkRemoteStorageEntry (total d) (used d) (free d) false (error d))
       | None => if bool_decide (r ∈ remotes) then Some loading_entry else None
       end)
  /\ (forall data r, r ∈ Object_prototype_functions -> data !! r = None ->
        own (updateStorageFromServerData remotes data) !! r = None)
  /\ (forall data, own (updateStorageFromServerData remotes data) !! "__proto__" = None)
  /\ (forall msgs now,
        sidebar_view remotes (msgs ++ [MsgHeartbeat now]) = sidebar_view remotes msgs)
  /\ (forall cache now k,
        conns (notifySubscribers now (with_cache cache (stream_GET true t s).1))
          !! length (conns s) = Some k ->
        sidebar_view remotes (received k) = updateStorageFromServerData remotes cache)
  /\ (forall session status k,
        conns (stream_GET true t s).1 !! length (conns s) = Some k ->
        exists l reply,
          (pull_GET session s).2 = l ++ [LReply reply]
          /\ sidebar_onpoll remotes status reply
             = updateStorageFromServerData remotes (storageCache s)
          /\ sidebar_view remotes (received k)
             = updateStorageFromServerData remotes (storageCache s)).
Proof.
  intros Hs. refine (conj _ (conj _ (conj _ (conj _ (conj _ _))))).
  - intros data r Hn. unfold updateStorageFromServerData.
    assert (Hr : r <> "__proto__") by (intros ->; apply Hn; by left).
    rewrite add_missing_lookup, convert_lookup, list_to_map_to_list;
      [|apply NoDup_fst_map_to_list|done|done].
    by destruct (data !! r).
  - intros data r Hf Hd. unfold updateStorageFromServerData.
    apply add_missing_function; [done|].
    rewrite convert_lookup, list_to_map_to_list, Hd;
      [done|apply NoDup_fst_map_to_list|].
    intros ->. apply list_elem_of_In in Hf. simpl in Hf.
    repeat destruct Hf as [Hf|Hf]; try discriminate Hf; done.
  - intros data. unfold updateStorageFromServerData.
    by apply add_missing_no_proto, convert_no_proto.
  - intros msgs now. unfold sidebar_view. by rewrite foldl_app.
  - intros cache now k Hk.
    destruct (stream_then_publish s t cache now Hs) as [Hc _].
    rewrite Hc in Hk. injection Hk as <-. reflexivity.
  - intros session status k Hk.
    destruct (stream_GET_state s t Hs) as (_ & Hconns & _ & _).
    rewrite Hconns, lookup_app_r, Nat.sub_diag in Hk by done. injection Hk as <-.
    unfold pull_GET.
    assert (Hc : storageCache (startBackgroundJob PullRoute s).1 = storageCache s).
    { unfold startBackgroundJob, runStorageCheckJob.
      by destruct (backgroundJobTimer s), (backgroundJobRunning s). }
    destruct (startBackgroundJob PullRoute s) as [s1 l]. simpl in *.
    eexists l, _. split; [reflexivity|]. simpl. by rewrite Hc.
Qed.

Lemma sidebar_follows_the_cache_witness :
  let s := (run three_subscribers initial).1 in
  let remotes := ["a"; "toString"] in
  (forall data r, r ∉ sidebar_inherited_names ->
     own (updateStorageFromServerData remotes data) !! r
     = match data !! r with
       | Some d => Some (mkRemoteStorageEntry (total d) (used d) (free d) false (error d))
       | None => if bool_decide (r ∈ remotes) then Some loading_entry else None
       end)
  /\ (forall data r, r ∈ Object_prototype_functions -> data !! r = None ->
        own (updateStorageFromServerData remotes data) !! r = None)
  /\ (forall data, own (updateStorageFromServerData remotes data) !! "__proto__" = None)
  /\ (forall msgs now,
        sidebar_view remotes (msgs ++ [MsgHeartbeat now]) = sidebar_view remotes msgs)
  /\ (forall cache now k,
        conns (notifySubscribers now (with_cache cache (stream_GET true 4 s).1))
          !! length (conns s) = Some k ->
        sidebar_view remotes (received k) = updateStorageFromServerData remotes cache)
  /\ (forall session status k,
        conns (stream_GET true 4 s).1 !! length (conns s) = Some k ->
        exists l reply,
          (pull_GET session s).2 = l ++ [LReply reply]
          /\ sidebar_onpoll remotes status reply
             = updateStorageFromServerData remotes (storageCache s)
          /\ sidebar_view remotes (received k)
             = updateStorageFromServerData remotes (storageCache s)).
Proof.
  apply (sidebar_follows_the_cache (run three_subscribers initial).1 ["a"; "toString"] 4).
  apply reachable_run, reachable_initial.
Defined.

(** ** The retry loop *)

Lemma retry_loop_from {A} maxRetries delay (body : nat -> Thrown + A) :
  forall remaining attempt lastE ws,
    (remaining + attempt = maxRetries + 1)%nat -> (1 <= attempt <= maxRetries)%nat ->
    ws = replicate (attempt - 1) delay ->
    (forall k, (1 <= k < attempt)%nat -> exists e, body k = inl e) ->
    let r := retry_loop maxRetries delay body remaining attempt lastE ws in
    (attempt <= attempts r <= maxRetries)%nat
    /\ waits r = replicate (attempts r - 1) delay
    /\ (forall k, (1 <= k < attempts r)%nat -> exists e, body k = inl e)
    /\ match returned r with
       | Some v => body (attempts r) = inr v
       | None =>
           attempts r = maxRetries
           /\ exists e, body maxRetries = inl e /\ lastError r = Some e
       end.
Proof.
  induction remaining as [|remaining IH]; intros attempt lastE ws Hsum Hge Hws Hfail;
    simpl; [lia|].
  destruct (body attempt) as [e|v] eqn:Hb; simpl.
  - destruct (decide (attempt = maxRetries)) as [->|Hne].
    + rewrite Nat.ltb_irrefl. assert (remaining = 0%nat) as -> by lia. simpl.
      rewrite Nat.sub_0_r.
      refine (conj _ (conj Hws (conj Hfail (conj eq_refl _)))); [lia|]. by exists e.
    + assert ((attempt <? maxRetries)%nat = true) as -> by (apply Nat.ltb_lt; lia).
      destruct (IH (S attempt) (Some e) (ws ++ [delay])) as (I1 & I2 & I3 & I4);
        try lia.
      * rewrite Hws. simpl. rewrite Nat.sub_0_r.
        replace attempt with (S (attempt - 1)) at 2 by lia.
        by rewrite replicate_S_end.
      * intros k Hk. destruct (decide (k = attempt)) as [->|]; [by exists e|].
        apply Hfail. lia.
      * refine (conj _ (conj I2 (conj I3 I4))). lia.
  - refine (conj _ (conj Hws (conj Hfail Hb))). lia.
Qed.

Lemma retry_loop_spec {A} maxRetries delay (body : nat -> Thrown + A) :
  (0 < maxRetries)%nat ->
  let r := retry_loop maxRetries delay body maxRetries 1 None [] in
  (1 <= attempts r <= maxRetries)%nat
  /\ waits r = replicate (attempts r - 1) delay
  /\ (forall k, (1 <= k < attempts r)%nat -> exists e, body k = inl e)
  /\ match returned r with
     | Some v => body (attempts r) = inr v
     | None =>
         attempts r = maxRetries
         /\ exists e, body maxRetries = inl e /\ lastError r = Some e
     end.
Proof.
  intros Hpos. apply retry_loop_from; [lia | lia | done |].
  intros k Hk. lia.
Qed.


(** ** The remotes route *)

Lemma config_type_nonempty o : config_type o <> "".
Proof.
  unfold config_type. destruct o as [e|status statusText [e|ty]]; try done;
    destruct (response_ok status); try done.
  unfold js_or. destruct ty as [ty|]; [|done].
  destruct (String.eqb ty "") eqn:E; [done|]. by apply String.eqb_neq.
Qed.

Lemma remote_details_spec configs remotes : forall i acc r,
  (r ∉ remotes ->
   own (remote_details remotes i configs acc) !! r = own acc !! r)
  /\ (r ∈ remotes -> r <> "__proto__" ->
        exists p, remotes !! p = Some r
          /\ (forall q, (p < q)%nat -> remotes !! q <> Some r)
          /\ own (remote_details remotes i configs acc) !! r
             = Some (mkRemoteDetail r (config_type (configs (i + p)%nat)))).
Proof.
  induction remotes as [|remote rest IH]; intros i acc r; simpl.
  - split; [done|]. intros H. by apply elem_of_nil in H.
  - destruct (IH (S i) (js_set acc remote
                          (mkRemoteDetail remote (config_type (configs i)))) r)
      as [IH1 IH2].
    split.
    + intros Hnot. apply not_elem_of_cons in Hnot as [Hne Hnot].
      rewrite IH1 by done. by apply js_set_lookup_ne.
    + intros Hin Hproto. destruct (decide (r ∈ rest)) as [Hr|Hr].
      * destruct (IH2 Hr Hproto) as (p & Hp & Hlast & Hres). exists (S p).
        split; [done|]. split.
        -- intros [|q] Hq; [lia|]. simpl. apply Hlast. lia.
        -- rewrite Hres. by replace (i + S p)%nat with (S i + p)%nat by lia.
      * apply elem_of_cons in Hin as [->|Hin]; [|done]. exists 0%nat.
        split; [done|]. split.
        -- intros [|q] Hq; [lia|]. simpl. intros Hq'.
           apply Hr. apply list_elem_of_lookup. by exists q.
        -- rewrite IH1 by done. rewrite js_set_own by (by left). simpl.
           rewrite lookup_insert_eq. by replace (i + 0)%nat with i by lia.
Qed.

(** The assignment to "__proto__" adds no property. *)
Lemma remote_details_no_proto configs remotes : forall i acc,
  own acc !! "__proto__" = None ->
  own (remote_details remotes i configs acc) !! "__proto__" = None.
Proof.
  induction remotes as [|remote rest IH]; intros i acc Hacc; simpl; [done|].
  apply IH. rewrite js_set_lookup. case_bool_decide as E; [|done].
  subst remote. simpl. by rewrite Hacc.
Qed.

(** X12.  A turn of the remotes route whose listing succeeds returns the
    listed remotes with one detail record for each of them but a remote
    named "__proto__", and no other: the record carries the remote's own
    name and a type that is never empty, taken from the answer to the
    [config/get] request of the last occurrence of the remote, 'unknown'
    when that request failed.  No failure of a [config/get] request fails
    the listing. *)
Theorem remote_details_cover_listing (status : nat) (statusText : string)
    (data : RemotesBody) (configs : nat -> FetchOutcome ConfigBody) :
  response_ok status = true ->
  exists details,
    remotes_try (FetchResponse status statusText (JsonObject data)) configs
    = inr (default [] data, details)
    /\ (forall r, is_Some (details !! r) <-> r ∈ default [] data /\ r <> "__proto__")
    /\ forall r d, details !! r = Some d ->
         rd_name d = r /\ rd_type d <> ""
         /\ exists p, default [] data !! p = Some r
              /\ (forall q, (p < q)%nat -> default [] data !! q <> Some r)
              /\ rd_type d = config_type (configs p).
Proof.
  intros Hok. unfold remotes_try. rewrite Hok. eexists. split; [reflexivity|].
  set (remotes := default [] data).
  assert (Hin : forall r d,
            own (remote_details remotes 0 configs empty_object) !! r = Some d ->
            r ∈ remotes /\ r <> "__proto__").
  { intros r d Hd. split.
    - destruct (decide (r ∈ remotes)) as [|Hnot]; [done|].
      destruct (remote_details_spec configs remotes 0 empty_object r) as [H1 _].
      rewrite H1 in Hd by done. simpl in Hd. by rewrite lookup_empty in Hd.
    - intros ->.
      rewrite (remote_details_no_proto configs remotes 0 empty_object) in Hd; done. }
  split.
  - intros r. split; [intros [d Hd]; by eapply Hin|].
    intros [Hr Hp].
    destruct (remote_details_spec configs remotes 0 empty_object r) as [_ H2].
    destruct (H2 Hr Hp) as (p & _ & _ & ->). by eexists.
  - intros r d Hd. destruct (Hin r d Hd) as [Hr Hp].
    destruct (remote_details_spec configs remotes 0 empty_object r) as [_ H2].
    destruct (H2 Hr Hp) as (p & Hq & Hlast & Hres). rewrite Hres in Hd.
    injection Hd as <-. simpl. split; [done|]. split; [apply config_type_nonempty|].
    by exists p.
Qed.

Lemma remote_details_cover_listing_witness :
  exists details,
    remotes_try (listed ["gdrive"; "__proto__"; "gdrive"])
      (fun i => FetchResponse (if (i =? 2)%nat then 200 else 500) "" (JsonObject (Some "drive")))
    = inr (["gdrive"; "__proto__"; "gdrive"], details)
    /\ (forall r, is_Some (details !! r)
                  <-> r ∈ ["gdrive"; "__proto__"; "gdrive"] /\ r <> "__proto__")
    /\ forall r d, details !! r = Some d ->
         rd_name d = r /\ rd_type d <> ""
         /\ exists p, ["gdrive"; "__proto__"; "gdrive"] !! p = Some r
              /\ (forall q, (p < q)%nat ->
                    ["gdrive"; "__proto__"; "gdrive"] !! q <> Some r)
              /\ rd_type d
                 = config_type (FetchResponse (if (p =? 2)%nat then 200 else 500) ""
                                  (JsonObject (Some "drive"))).
Proof.
  exact (remote_details_cover_listing 200 "OK" (Some ["gdrive"; "__proto__"; "gdrive"])
           (fun i => FetchResponse (if (i =? 2)%nat then 200 else 500) ""
                       (JsonObject (Some "drive"))) eq_refl).
Defined.

(** X13.  The remotes route sends between one and three listing requests:
    every request before the last one failed, and it waited 2000 ms after
    each of them and never after the last.  When the last request
    succeeded the answer is [success: true] with what that turn collected;
    otherwise three requests were sent and the answer is 500 with an empty
    list and the message of the third failure. *)
Theorem remotes_route_retries
    (daemon : nat -> FetchOutcome RemotesBody * (nat -> FetchOutcome ConfigBody)) :
  let try_ k := remotes_try (daemon k).1 (daemon k).2 in
  let '(resp, n, ws) := remotes_GET daemon in
  (1 <= n <= 3)%nat
  /\ ws = replicate (n - 1) 2000
  /\ (forall k, (1 <= k < n)%nat -> exists e, try_ k = inl e)
  /\ match try_ n with
     | inr (remotes, details) =>
         resp = mkRemotesResponse 200 true remotes (Some details) None None
     | inl e =>
         n = 3%nat
         /\ resp = mkRemotesResponse 500 false [] None
                     (Some "Failed to connect to rclone RC daemon")
                     (Some (js_or (thrown_message (Some e)) "Unknown error"))
     end.
Proof.
  simpl. unfold remotes_GET, remotes_loop.
  set (body := fun attempt : nat => remotes_try (daemon attempt).1 (daemon attempt).2).
  destruct (retry_loop_spec 3 2000 body ltac:(lia)) as (H1 & H2 & H3 & H4).
  set (l := retry_loop 3 2000 body 3 1 None []) in *.
  refine (conj H1 (conj H2 (conj H3 _))).
  destruct (returned l) as [[remotes details]|].
  - fold (body (attempts l)). by rewrite H4.
  - destruct H4 as (Hn & e & He & Hl). fold (body (attempts l)).
    rewrite Hn, He, Hl. done.
Qed.

(** ** The files route *)

(** X14.  The files route answers 400 without asking the daemon when [remote]
    is missing or empty.  Otherwise it sends between one and three listing
    requests: every request before the last one failed, and it waited
    1000 ms after each of them and never after the last.  When the last
    request succeeded the answer is [success: true] with the files of that
    listing; otherwise three requests were sent and the answer is a
    failure with no files and status 401 or 500. *)
Theorem files_route_retries (remote path : option string)
    (daemon : nat -> FetchOutcome ListBody) :
  let '(resp, n, ws) := files_GET remote path daemon in
  if bool_decide (remote = None \/ remote = Some "")
  then resp = files_bad_request /\ n = 0%nat /\ ws = []
  else
    (1 <= n <= 3)%nat
    /\ ws = replicate (n - 1) 1000
    /\ (forall k, (1 <= k < n)%nat -> exists e, files_try (daemon k) = inl e)
    /\ match files_try (daemon n) with
       | inr files =>
           resp = mkFilesResponse 200 true files None None None remote
                    (Some (js_or path ""))
       | inl e =>
           n = 3%nat /\ f_success resp = false /\ f_files resp = []
           /\ (f_http resp = 401%nat \/ f_http resp = 500%nat)
           /\ f_details resp = Some (js_or (thrown_message (Some e)) "Unknown error")
       end.
Proof.
  unfold files_GET. destruct remote as [r|]; [|by rewrite bool_decide_eq_true_2; [|left]].
  destruct (String.eqb r "") eqn:Hr.
  { apply String.eqb_eq in Hr as ->. by rewrite bool_decide_eq_true_2; [|right]. }
  apply String.eqb_neq in Hr.
  rewrite bool_decide_eq_false_2 by (intros [?|[= ?]]; done).
  unfold files_loop, files_response.
  set (body := fun attempt : nat => files_try (daemon attempt)).
  destruct (retry_loop_spec 3 1000 body ltac:(lia)) as (H1 & H2 & H3 & H4).
  set (l := retry_loop 3 1000 body 3 1 None []) in *.
  refine (conj H1 (conj H2 (conj H3 _))).
  destruct (returned l) as [files|].
  - fold (body (attempts l)). by rewrite H4.
  - destruct H4 as (Hn & e & He & Hl). fold (body (attempts l)).
    rewrite Hn, He, Hl. simpl. refine (conj eq_refl (conj eq_refl (conj eq_refl (conj _ eq_refl)))).
    destruct (default false _); [by left | by right].
Qed.

(** ** Searching a text that starts with other characters *)

Lemma includes_skip (n0 : ascii) (needle p rest : string) :
  Forall (fun c => c <> n0) (list_ascii_of_string p) ->
  includes (String n0 needle) (p +:+ rest) = includes (String n0 needle) rest.
Proof.
  induction p as [|c p IH]; intros Hp; [done|].
  simpl in Hp. apply Forall_cons in Hp as [Hc Hp].
  change (String c p +:+ rest) with (String c (p +:+ rest)).
  cbn [includes]. rewrite IH by done.
  cbn [String.prefix]. destruct (ascii_dec n0 c) as [->|_]; [done|].
  reflexivity.
Qed.

Lemma pretty_N_char_digit (c : ascii) (x : N) :
  (forall d, In d (list_ascii_of_string "0123456789") -> c <> d) ->
  pretty_N_char x <> c.
Proof.
  intros Hc E. apply (Hc (pretty_N_char x)); [|done].
  unfold pretty_N_char. simpl. repeat case_match; tauto.
Qed.

Lemma pretty_N_go_chars (c : ascii) (x : N) : forall s,
  (forall d, In d (list_ascii_of_string "0123456789") -> c <> d) ->
  Forall (fun a => a <> c) (list_ascii_of_string s) ->
  Forall (fun a => a <> c) (list_ascii_of_string (pretty_N_go x s)).
Proof.
  induction (N.lt_wf_0 x) as [x _ IH]; intros s Hc Hs.
  destruct (decide (x = 0)%N) as [->|Hx]; [by rewrite pretty_N_go_0|].
  rewrite pretty_N_go_step by lia. apply IH; [apply N.div_lt; lia | done |].
  simpl. apply Forall_cons. split; [by apply pretty_N_char_digit | done].
Qed.

Lemma pretty_nat_chars (c : ascii) (n : nat) :
  (forall d, In d (list_ascii_of_string "0123456789") -> c <> d) ->
  Forall (fun a => a <> c) (list_ascii_of_string (pretty n)).
Proof.
  intros Hc. unfold pretty, pretty_nat, pretty, pretty_N.
  destruct (decide (N.of_nat n = 0%N)).
  - simpl. apply Forall_cons. split; [|done]. intros <-. apply (Hc "0"%char); simpl; tauto.
  - by apply pretty_N_go_chars.
Qed.

Lemma rc_api_error_message (status : nat) (statusText : string) :
  includes "EXPIRED_TOKEN"
    ("rclone RC API error: " +:+ pretty status +:+ " " +:+ statusText)
  = includes "EXPIRED_TOKEN" statusText.
Proof.
  rewrite (includes_skip "E" "XPIRED_TOKEN" "rclone RC API error: ").
  2: { simpl. repeat (apply Forall_cons; split; [discriminate|]). done. }
  rewrite (includes_skip "E" "XPIRED_TOKEN" (pretty status)).
  2: { apply pretty_nat_chars. simpl. intros d Hd.
       repeat (destruct Hd as [<-|Hd]; [discriminate|]). done. }
  rewrite (includes_skip "E" "XPIRED_TOKEN" " "); [done|].
  simpl. apply Forall_cons. split; [discriminate | done].
Qed.

Lemma files_all_failed r path daemon e :
  r <> "" ->
  (forall k, (1 <= k <= 2)%nat -> exists e', files_try (daemon k) = inl e') ->
  files_try (daemon 3%nat) = inl e ->
  files_GET (Some r) path daemon
  = (files_response r (js_or path "") (mkRetried None (Some e) 3 [1000; 1000]),
     3%nat, [1000; 1000]).
Proof.
  intros Hr H12 H3. unfold files_GET. apply String.eqb_neq in Hr. rewrite Hr.
  unfold files_loop. simpl.
  destruct (H12 1%nat ltac:(lia)) as [e1 ->]. destruct (H12 2%nat ltac:(lia)) as [e2 ->].
  by rewrite H3.
Qed.

(** X15.  When the third attempt of the files route fails on a daemon answer
    with a non-success status (whose status text does not itself contain
    "EXPIRED_TOKEN"), the route reports an expired token, with status 401,
    exactly when the health check of the remote reports [token_expired] for
    the same answer: status 500 and an error text with one of the three
    markers.  Any other such failure is answered 500. *)
Theorem files_token_expiry_agrees_with_health_check (r : string)
    (path : option string) (daemon : nat -> FetchOutcome ListBody)
    (status : nat) (statusText : string) (d : ListBody) (a : AboutBody) :
  r <> "" ->
  (forall k, (1 <= k <= 2)%nat -> exists e, files_try (daemon k) = inl e) ->
  daemon 3%nat = FetchResponse status statusText (JsonObject d) ->
  response_ok status = false ->
  includes "EXPIRED_TOKEN" statusText = false ->
  b_error a = l_error d ->
  let resp := (files_GET (Some r) path daemon).1.1 in
  let expired := is_token_error status (l_error d) in
  f_http resp = (if expired then 401 else 500)%nat
  /\ f_tokenExpired resp = Some expired
  /\ f_error resp = Some (if expired then "Authentication token expired"
                          else "Failed to list files")
  /\ h_status (health_check (Some r) (FetchResponse status statusText (JsonObject a)))
     = Some (if expired then token_expired else status_error).
Proof.
  intros Hr H12 H3 Hok Htxt Herr. cbv zeta.
  assert (Htry : files_try (daemon 3%nat)
                 = inl (if is_token_error status (l_error d)
                        then ThrownError "Error" ("EXPIRED_TOKEN:" +:+ default "" (l_error d))
                        else rc_api_error status statusText)).
  { rewrite H3. unfold files_try. rewrite Hok. simpl.
    by destruct (is_token_error status (l_error d)). }
  rewrite (files_all_failed r path daemon _ Hr H12 Htry). simpl.
  unfold files_response. simpl.
  assert (Hh : h_status (health_check (Some r) (FetchResponse status statusText (JsonObject a)))
               = Some (if is_token_error status (l_error d) then token_expired
                       else status_error)).
  { unfold health_check. apply String.eqb_neq in Hr. rewrite Hr, Hok. simpl.
    rewrite Herr. by destruct (is_token_error status (l_error d)). }
  destruct (is_token_error status (l_error d)) eqn:Hexp.
  - done.
  - unfold rc_api_error, thrown_message. cbn [fmap option_fmap option_map].
    rewrite rc_api_error_message, Htxt. done.
Qed.

Lemma files_token_expiry_agrees_with_health_check_witness :
  let daemon := fun _ : nat =>
    FetchResponse 500 "Internal Server Error"
      (JsonObject (mkListBody None (Some "couldn't fetch token: invalid_grant"))) in
  let resp := (files_GET (Some "gdrive") (Some "docs") daemon).1.1 in
  f_http resp = 401%nat
  /\ f_tokenExpired resp = Some true
  /\ f_error resp = Some "Authentication token expired"
  /\ h_status (health_check (Some "gdrive")
                 (about_error 500 "couldn't fetch token: invalid_grant"))
     = Some token_expired.
Proof.
  apply (files_token_expiry_agrees_with_health_check "gdrive" (Some "docs")
           (fun _ => FetchResponse 500 "Internal Server Error"
                       (JsonObject (mkListBody None (Some "couldn't fetch token: invalid_grant"))))
           500 "Internal Server Error"
           (mkListBody None (Some "couldn't fetch token: invalid_grant"))
           (mkAboutBody None None None (Some "couldn't fetch token: invalid_grant")));
    try reflexivity; try discriminate.
  intros k _. by eexists.
Defined.

(** X16.  After a listing, the file browser offers the button that
    refreshes the token exactly when the files route answered 401, that
    is when it classified the failure as an expired token. *)
Theorem refresh_button_iff_token_expired (r : string) (path : option string)
    (daemon : nat -> FetchOutcome ListBody) :
  r <> "" ->
  let resp := (files_GET (Some r) path daemon).1.1 in
  (shows_refresh_button (fetchFiles_error resp) (Some r) = true <-> f_http resp = 401%nat)
  /\ (f_http resp = 401%nat <-> f_tokenExpired resp = Some true).
Proof.
  intros Hr. simpl. unfold files_GET. apply String.eqb_neq in Hr. rewrite Hr. simpl.
  unfold files_response. destruct (returned (files_loop daemon)) as [files|]; simpl.
  { unfold fetchFiles_error. simpl. split; split; discriminate. }
  unfold fetchFiles_error, shows_refresh_button. simpl.
  destruct (includes "EXPIRED_TOKEN" <$> thrown_message (lastError (files_loop daemon)))
    as [[|]|]; simpl; rewrite ?Hr; split; split; try done; try discriminate.
Qed.

Lemma refresh_button_iff_token_expired_witness :
  let daemon := fun _ : nat =>
    FetchResponse 500 "Internal Server Error"
      (JsonObject (mkListBody None (Some "oauth2: token expired"))) in
  let resp := (files_GET (Some "gdrive") None daemon).1.1 in
  (shows_refresh_button (fetchFiles_error resp) (Some "gdrive") = true <-> f_http resp = 401%nat)
  /\ (f_http resp = 401%nat <-> f_tokenExpired resp = Some true).
Proof.
  apply (refresh_button_iff_token_expired "gdrive" None). discriminate.
Defined.


(** ** The client class and the handlers *)

(** X17.  The client class, the refresh job and the two listing routes read
    the daemon's answers alike: for every answer, [listRemotes] returns the
    list [getRemotesList] returns and the list a turn of the remotes route
    collects, and [listDirectory] returns the files a turn of the files
    route returns; every failure becomes the empty list. *)
Theorem client_agrees_with_handlers :
  (forall o, listRemotes o = getRemotesList o)
  /\ (forall o configs,
        listRemotes o = match remotes_try o configs with
                        | inr (remotes, _) => remotes
                        | inl _ => []
                        end)
  /\ (forall o, listDirectory o = match files_try o with
                                  | inr files => files
                                  | inl _ => []
                                  end)
  /\ (forall o, getRemotesList o <> [] -> daemon_ready o = true).
Proof.
  refine (conj _ (conj _ (conj _ _))).
  - intros [e|status statusText [e|data]]; unfold listRemotes; simpl; try done;
      by destruct (response_ok status).
  - intros [e|status statusText [e|data]] configs; unfold listRemotes; simpl; try done;
      by destruct (response_ok status).
  - intros [e|status statusText [e|data]]; unfold listDirectory; simpl; try done;
      destruct (response_ok status); try done;
      by destruct (is_token_error status _).
  - intros [e|status statusText [e|data]]; simpl; try done;
      by destruct (response_ok status).
Qed.

(** ** Start-up *)

Lemma tryStartJob_spec probes : forall remaining retryCount,
  (remaining + retryCount = startup_maxRetries)%nat ->
  (retryCount < startup_maxRetries)%nat ->
  let '(started, n) := tryStartJob remaining retryCount probes in
  (retryCount < n <= startup_maxRetries)%nat
  /\ (forall k, (retryCount <= k)%nat -> (S k < n)%nat -> daemon_ready (probes k) = false)
  /\ (if started then daemon_ready (probes (n - 1)%nat) = true
      else daemon_ready (probes (n - 1)%nat) = false /\ n = startup_maxRetries).
Proof.
  induction remaining as [|remaining IH]; intros retryCount Hsum Hlt; [simpl in Hsum; lia|].
  cbn [tryStartJob]. destruct (daemon_ready (probes retryCount)) eqn:Hp.
  - replace (S retryCount - 1)%nat with retryCount by lia.
    split; [lia|]. split; [intros k ? ?; lia | done].
  - destruct (Nat.ltb_spec (S retryCount) startup_maxRetries) as [Hlt'|Hge].
    + specialize (IH (S retryCount) ltac:(lia) Hlt').
      destruct (tryStartJob remaining (S retryCount) probes) as [started n].
      destruct IH as (I1 & I2 & I3). split; [lia|]. split; [|done].
      intros k Hk Hn. destruct (decide (k = retryCount)) as [->|]; [done|].
      apply I2; lia.
    + replace (S retryCount - 1)%nat with retryCount by lia.
      split; [lia|]. split; [intros k ? ?; lia|]. split; [done | lia].
Qed.

(** X18.  At start-up the service probes the daemon at most six times, one
    probe after the other, and stops at the first probe that is answered
    with a success status: the job is called exactly when one of the first
    six probes succeeds.  After six failures it gives up without calling
    the job.  A second initialisation does nothing. *)
Theorem startup_probes_at_most_six (probes : nat -> FetchOutcome unit) :
  let '(initialized, (started, n)) := initializeBackgroundJob false probes in
  initialized = true
  /\ (1 <= n <= 6)%nat
  /\ (forall k, (S k < n)%nat -> daemon_ready (probes k) = false)
  /\ (started = true <-> exists k, (k < 6)%nat /\ daemon_ready (probes k) = true)
  /\ (if started then daemon_ready (probes (n - 1)%nat) = true else n = 6%nat)
  /\ initializeBackgroundJob initialized probes = (true, (false, 0%nat)).
Proof.
  unfold initializeBackgroundJob.
  pose proof (tryStartJob_spec probes startup_maxRetries 0 ltac:(lia)
                ltac:(unfold startup_maxRetries; lia)) as H.
  destruct (tryStartJob startup_maxRetries 0 probes) as [started n].
  destruct H as (H1 & H2 & H3). unfold startup_maxRetries in *.
  assert (Hn : (1 <= n <= 6)%nat) by lia.
  refine (conj eq_refl (conj Hn (conj _ (conj _ (conj _ eq_refl))))).
  - intros k Hk. apply H2; lia.
  - destruct started.
    + split; [|done]. intros _. exists (n - 1)%nat. split; [lia | done].
    + split; [done|]. intros (k & Hk & Hready). destruct H3 as [H3 H6].
      destruct (decide (S k < n)%nat) as [Hlt|Hge].
      * rewrite H2 in Hready by lia. done.
      * assert (k = n - 1)%nat as -> by lia. congruence.
  - destruct started; [done|]. destruct H3. lia.
Qed.

(** ** The health check *)

(** The handler once the request body was read. *)
Lemma health_check_spec (remote : option string) (o : FetchOutcome AboutBody) :
  let r := health_check remote o in
  (h_success r = true <-> h_status r = Some healthy)
  /\ (h_success r = true <-> is_Some (h_data r))
  /\ (h_success r = true <->
        js_or remote "" <> ""
        /\ exists status statusText d,
             o = FetchResponse status statusText (JsonObject d)
             /\ response_ok status = true)
  /\ (h_success r = false -> is_Some (h_error r))
  /\ (h_success r = false -> h_http r = 200%nat -> h_status r = Some token_expired)
  /\ (js_or remote "" = "" -> h_http r = 400%nat /\ h_status r = None).
Proof.
  cbv zeta. unfold health_check, js_or.
  assert (Hcatch : forall name e,
            h_success (health_catch name e) = false
            /\ h_status (health_catch name e) = Some status_error
            /\ h_data (health_catch name e) = None
            /\ is_Some (h_error (health_catch name e))
            /\ h_http (health_catch name e) <> 200%nat).
  { intros name [nm msg|]; unfold health_catch; simpl; [|by repeat split].
    destruct (String.eqb nm "TimeoutError" || includes "timeout" msg);
      [by repeat split|].
    destruct (includes "ECONNREFUSED" msg); by repeat split. }
  destruct remote as [name|]; [destruct (String.eqb_spec name "") as [->|Hname]|].
  - simpl. repeat split; try done; try discriminate; try (by intros [? ?]).
  - destruct o as [e|status statusText [e|d]].
    + destruct (Hcatch name e) as (E1 & E2 & E3 & E4 & E5). rewrite E1, E2, E3.
      repeat split; try done; try discriminate; try (by intros [? ?]).
      intros (_ & ? & ? & ? & ? & _). discriminate.
    + destruct (response_ok status) eqn:Hok.
      * destruct (Hcatch name e) as (E1 & E2 & E3 & E4 & E5). rewrite E1, E2, E3.
        repeat split; try done; try discriminate; try (by intros [? ?]).
        intros (_ & ? & ? & ? & ? & _). discriminate.
      * simpl. destruct (is_token_error status None); simpl;
          repeat split; try done; try discriminate; try (by intros [? ?]);
          try (intros (_ & ? & ? & ? & ? & _); discriminate);
          intros _ E; rewrite E in Hok; discriminate.
    + destruct (response_ok status) eqn:Hok.
      * simpl. repeat split; try done; try discriminate; try (by eexists).
        by eexists _, _, _.
      * simpl. destruct (is_token_error status (b_error d)); simpl;
          repeat split; try done; try discriminate; try (by intros [? ?]);
          try (intros (_ & ? & ? & ? & [= -> _ _] & ?); congruence);
          intros _ E; rewrite E in Hok; discriminate.
  - simpl. repeat split; try done; try discriminate; try (by intros [? ?]).
Qed.

(** X19.  The health check answers [success: true] exactly when it reports
    [healthy], which is exactly when it carries the sizes: the request
    body could be read and names a remote, the daemon answered with a
    success status and its body could be read.  Every other answer
    carries an error text.  The only failure that is answered with HTTP
    status 200 is the expired token; a request that names no remote is
    answered 400 whatever the daemon would say; a request whose body
    cannot be read is answered by the [catch] block, whatever the daemon
    would say: status [error], the empty string as remote, and HTTP
    status 408, 503 or 500, the last one unless the thrown error speaks
    of a timeout or of a refused connection. *)
Theorem health_check_verdicts (body : Json (option string))
    (o : FetchOutcome AboutBody) :
  let r := check_POST body o in
  (h_success r = true <-> h_status r = Some healthy)
  /\ (h_success r = true <-> is_Some (h_data r))
  /\ (h_success r = true <->
        exists remote status statusText d,
          body = JsonObject remote /\ js_or remote "" <> ""
          /\ o = FetchResponse status statusText (JsonObject d)
          /\ response_ok status = true)
  /\ (h_success r = false -> is_Some (h_error r))
  /\ (h_success r = false -> h_http r = 200%nat -> h_status r = Some token_expired)
  /\ (forall remote, body = JsonObject remote -> js_or remote "" = "" ->
        h_http r = 400%nat /\ h_status r = None)
  /\ (forall e, body = JsonRejects e ->
        h_success r = false /\ h_status r = Some status_error
        /\ h_remote r = Some "" /\ h_data r = None
        /\ (h_http r = 408 \/ h_http r = 503 \/ h_http r = 500)%nat
        /\ ((forall name message, e = ThrownError name message ->
               String.eqb name "TimeoutError" = false
               /\ includes "timeout" message = false
               /\ includes "ECONNREFUSED" message = false) ->
            h_http r = 500%nat)).
Proof.
  cbv zeta. destruct body as [e|remote]; simpl.
  - assert (Hcatch : h_success (health_catch "" e) = false
              /\ h_status (health_catch "" e) = Some status_error
              /\ h_remote (health_catch "" e) = Some ""
              /\ h_data (health_catch "" e) = None
              /\ is_Some (h_error (health_catch "" e))
              /\ (h_http (health_catch "" e) = 408
                  \/ h_http (health_catch "" e) = 503
                  \/ h_http (health_catch "" e) = 500)%nat
              /\ ((forall name message, e = ThrownError name message ->
                     String.eqb name "TimeoutError" = false
                     /\ includes "timeout" message = false
                     /\ includes "ECONNREFUSED" message = false) ->
                  h_http (health_catch "" e) = 500%nat)).
    { destruct e as [nm msg|]; unfold health_catch; simpl;
        [|repeat split; try done; auto].
      destruct (String.eqb nm "TimeoutError") eqn:E1; simpl.
      { repeat split; try done; auto.
        intros H. destruct (H nm msg eq_refl) as (? & ? & ?). congruence. }
      destruct (includes "timeout" msg) eqn:E2; simpl.
      { repeat split; try done; auto.
        intros H. destruct (H nm msg eq_refl) as (? & ? & ?). congruence. }
      destruct (includes "ECONNREFUSED" msg) eqn:E3; simpl.
      { repeat split; try done; auto.
        intros H. destruct (H nm msg eq_refl) as (? & ? & ?). congruence. }
      repeat split; try done; auto. }
    destruct Hcatch as (E1 & E2 & E3 & E4 & E5 & E6 & E7).
    rewrite E1, E2, E4. refine (conj _ (conj _ (conj _ (conj _ (conj _ (conj _ _)))))).
    + split; discriminate.
    + split; [discriminate | by intros [? ?]].
    + split; [discriminate | by intros (? & ? & ? & ? & ? & _)].
    + done.
    + intros _ H. destruct E6 as [E|[E|E]]; rewrite E in H; discriminate H.
    + intros remote H. discriminate H.
    + intros e' [= <-]. by repeat split.
  - destruct (health_check_spec remote o) as (H1 & H2 & H3 & H4 & H5 & H6).
    refine (conj H1 (conj H2 (conj _ (conj H4 (conj H5 (conj _ _)))))).
    + rewrite H3. split.
      * intros (Hn & status & statusText & d & -> & Hok).
        by exists remote, status, statusText, d.
      * intros (remote' & status & statusText & d & [= <-] & Hn & -> & Hok).
        split; [done|]. by exists status, statusText, d.
    + by intros remote' [= <-].
    + intros e H. discriminate H.
Qed.

(** X20.  The guard never sends a visitor in circles: wherever it redirects,
    the target is a guarded page on which the same token is authorized and
    let through. *)
Theorem redirect_target_is_let_through (pathname target : string)
    (token : option Token) :
  middleware pathname token = GuardRedirect target ->
  matcher target = true
  /\ authorized target token = true
  /\ middleware target token = GuardNext.
Proof.
  unfold middleware. destruct token as [[sub name first must]|]; simpl.
  - destruct (String.prefix "/auth/" pathname).
    + destruct (negb (String.eqb pathname "/auth/change-password")); [|discriminate].
      destruct (must || first) eqn:E; intros [= <-]; simpl; by rewrite ?E.
    + destruct (must || first) eqn:E; [|discriminate]. intros [= <-]. simpl. by rewrite ?E.
  - by destruct (String.prefix "/auth/" pathname).
Qed.

Lemma redirect_target_is_let_through_witness :
  matcher "/auth/change-password" = true
  /\ authorized "/auth/change-password" (Some (mkToken (Some "7") (Some "admin") true false)) = true
  /\ middleware "/auth/change-password" (Some (mkToken (Some "7") (Some "admin") true false)) = GuardNext.
Proof.
  exact (redirect_target_is_let_through "/files" "/auth/change-password"
           (Some (mkToken (Some "7") (Some "admin") true false)) eq_refl).
Defined.

(** A signed-in user who must change the password (or logs in for the
    first time) is let through on the change-password page only: every
    other path the guard sees is redirected to it.  A signed-in user
    without the flags is sent from every /auth/ page but the
    change-password page to the start page, and let through everywhere
    else.  A visitor without a token is never redirected by the function;
    the callback authorizes such a visitor on the login pages only. *)
Theorem guard_by_token (pathname : string) :
  (forall t, mustChangePassword t || isFirstLogin t = true ->
     middleware pathname (Some t)
     = if String.eqb pathname "/auth/change-password" then GuardNext
       else GuardRedirect "/auth/change-password")
  /\ (forall t, mustChangePassword t || isFirstLogin t = false ->
        middleware pathname (Some t)
        = if String.prefix "/auth/" pathname
             && negb (String.eqb pathname "/auth/change-password")
          then GuardRedirect "/" else GuardNext)
  /\ middleware pathname None = GuardNext
  /\ authorized pathname None = String.prefix "/auth/login" pathname
  /\ forall t, authorized pathname (Some t) = true.
Proof.
  unfold middleware, authorized. refine (conj _ (conj _ (conj _ (conj _ _)))).
  - intros t ->. destruct (String.eqb pathname "/auth/change-password") eqn:E.
    + apply String.eqb_eq in E as ->. reflexivity.
    + simpl. by destruct (String.prefix "/auth/" pathname).
  - intros t ->. destruct (String.prefix "/auth/" pathname); [|done].
    by destruct (String.eqb pathname "/auth/change-password").
  - by destruct (String.prefix "/auth/" pathname).
  - by destruct (String.prefix "/auth/login" pathname),
         (String.prefix "/auth/change-password" pathname).
  - intros t. by destruct (String.prefix "/auth/login" pathname),
                  (String.prefix "/auth/change-password" pathname).
Qed.

Lemma lookahead_app (pat rest : string) : lookahead pat (pat +:+ rest) = true.
Proof.
  induction pat as [|p pat IH]; [done|].
  change (String p pat +:+ rest) with (String p (pat +:+ rest)).
  cbn [lookahead]. rewrite IH, Ascii.eqb_refl. by rewrite orb_true_r.
Qed.

(** X21.  The guard does not run for any path that starts with /api,
    /_next/static, /_next/image or /favicon.ico (whatever follows), nor for
    a path that does not start with a slash: on these paths only the
    handler itself can ask for a session. *)
Theorem excluded_paths_unguarded (pat rest : string) :
  pat ∈ matcher_excluded -> matcher ("/" +:+ pat +:+ rest) = false.
Proof.
  intros Hin. change ("/" +:+ pat +:+ rest) with (String "/" (pat +:+ rest)).
  unfold matcher. apply negb_false_iff. apply existsb_exists.
  exists pat. split; [by apply list_elem_of_In | apply lookahead_app].
Qed.

Lemma excluded_paths_unguarded_witness :
  matcher ("/" +:+ "api" +:+ "/rclone/files?remote=gdrive") = false.
Proof.
  apply excluded_paths_unguarded. apply list_elem_of_In. simpl. tauto.
Defined.

(** ** Sign-in and password change *)

Lemma authorize_cases (compare : string -> string -> bool)
    (credentials : option Credentials) (now : Z) (db : DbCalls) (users : list User) :
  authorize compare credentials now db users = (None, users)
  \/ exists c u,
       credentials = Some c
       /\ find_by_username (js_or (c_username c) "") users = Some u
       /\ u_username u = js_or (c_username c) ""
       /\ u_isActive u = true
       /\ compare (js_or (c_password c) "") (u_password u) = true
       /\ js_or (c_password c) "" <> ""
       /\ js_or (c_username c) "" <> ""
       /\ find_resolves db = true /\ update_resolves db = true
       /\ authorize compare credentials now db users
          = (Some (mkAuthUser (u_id u) (u_name u) (u_username u) (u_email u)
                     (u_isFirstLogin u) (u_mustChangePassword u)),
             update_by_id (u_id u) (set_lastLogin now) users).
Proof.
  unfold authorize. destruct credentials as [c|]; [|by left]. cbv zeta.
  destruct (String.eqb (js_or (c_username c) "") "") eqn:E1; [left; reflexivity|].
  destruct (String.eqb (js_or (c_password c) "") "") eqn:E2; [left; reflexivity|].
  simpl.
  destruct (find_resolves db); [|left; reflexivity]. simpl.
  destruct (find_by_username _ users) as [u|] eqn:Hfind; [|left; reflexivity].
  destruct (u_isActive u) eqn:Hact; [|left; reflexivity]. simpl.
  destruct (compare _ (u_password u)) eqn:Hcmp; [|left; reflexivity]. simpl.
  destruct (update_resolves db); [|left; reflexivity]. simpl.
  right. exists c, u. apply String.eqb_neq in E1, E2.
  apply find_some in Hfind as Hname. destruct Hname as [_ Hname].
  apply String.eqb_eq in Hname. by repeat split.
Qed.

(** X22.  A sign-in attempt succeeds only when a user name and a password
    are submitted and both are non-empty, for a user of the table that has
    that name, is active and whose stored password matches the submitted
    one; the object it returns carries that user's identity and flags.  A
    failed attempt leaves the table as it was; the update a successful one
    issues sets the time of the last login of that user and names no
    other column. *)
Theorem authorize_accepts_matching_active_users
    (compare : string -> string -> bool) (credentials : option Credentials)
    (now : Z) (db : DbCalls) (users : list User) :
  let '(result, users') := authorize compare credentials now db users in
  Forall2 (fun u u' => u' = u \/ u' = set_lastLogin now u) users users'
  /\ match result with
     | None => users' = users
     | Some a =>
         exists c u username password,
           credentials = Some c
           /\ c_username c = Some username /\ username <> ""
           /\ c_password c = Some password /\ password <> ""
           /\ find_by_username username users = Some u
           /\ u_username u = username
           /\ u_isActive u = true
           /\ compare password (u_password u) = true
           /\ a = mkAuthUser (u_id u) (u_name u) (u_username u) (u_email u)
                    (u_isFirstLogin u) (u_mustChangePassword u)
           /\ users' = update_by_id (u_id u) (set_lastLogin now) users
     end.
Proof.
  destruct (authorize_cases compare credentials now db users)
    as [-> | (c & u & Hc & Hfind & Hname & Hact & Hcmp & Hpw & Hun & _ & _ & ->)].
  - split; [|done]. apply Forall2_same_length_lookup. split; [done|].
    intros i x y Hx Hy. left. congruence.
  - split.
    + unfold update_by_id. apply Forall2_fmap_r, Forall_Forall2_diag, Forall_forall.
      intros v _. simpl. destruct (String.eqb (u_id v) (u_id u)); [by right | by left].
    + destruct (c_username c) as [username|] eqn:Eu; [|done].
      destruct (c_password c) as [password|] eqn:Ep; [|done].
      unfold js_or in *.
      destruct (String.eqb username "") eqn:E1; [done|].
      destruct (String.eqb password "") eqn:E2; [done|].
      exists c, u, username, password. by repeat split.
Qed.

(** X23.  From the table to the guard: when a user whose row says that the
    password must be changed (or that this is the first login) signs in,
    the token built at sign-in, and kept by every later call of the [jwt]
    callback, makes the guard redirect every path but the change-password
    page to that page; for a user without the flags the guard lets every
    path outside /auth/ through. *)
Theorem sign_in_flags_reach_the_guard
    (compare : string -> string -> bool) (c : Credentials)
    (now : Z) (db : DbCalls) (users users' : list User) (u : User) (a : AuthUser)
    (token0 : Token) (pathname : string) :
  authorize compare (Some c) now db users = (Some a, users') ->
  find_by_username (js_or (c_username c) "") users = Some u ->
  let token := jwt (jwt token0 (Some a)) None in
  middleware pathname (Some token)
  = if u_mustChangePassword u || u_isFirstLogin u
    then if String.eqb pathname "/auth/change-password" then GuardNext
         else GuardRedirect "/auth/change-password"
    else if String.prefix "/auth/" pathname
            && negb (String.eqb pathname "/auth/change-password")
         then GuardRedirect "/" else GuardNext.
Proof.
  intros Hauth Hfind.
  destruct (authorize_cases compare (Some c) now db users)
    as [E | (c' & u' & Hc & Hfind' & _ & _ & _ & _ & _ & _ & _ & E)];
    rewrite E in Hauth; [discriminate|].
  injection Hc as <-. rewrite Hfind in Hfind'. injection Hfind' as <-.
  injection Hauth as <- _. cbv zeta. unfold jwt, middleware. simpl.
  destruct (u_mustChangePassword u || u_isFirstLogin u) eqn:Hflag.
  - destruct (String.eqb_spec pathname "/auth/change-password") as [->|Hne]; [done|].
    simpl. by destruct (String.prefix "/auth/" pathname).
  - destruct (String.prefix "/auth/" pathname); [|done].
    by destruct (String.eqb pathname "/auth/change-password").
Qed.

Lemma sign_in_flags_reach_the_guard_witness :
  middleware "/files"
    (Some (jwt (jwt (mkToken (Some "1") None false false)
                  (Some (mkAuthUser "1" None "admin" None true false))) None))
  = GuardRedirect "/auth/change-password".
Proof.
  exact (sign_in_flags_reach_the_guard String.eqb
           (mkCredentials (Some "admin") (Some "secret")) 5
           (mkDbCalls true true true)
           [mkUser "1" None "admin" None "secret" true true false None 0]
           [mkUser "1" None "admin" None "secret" true true false (Some 5) 0]
           (mkUser "1" None "admin" None "secret" true true false None 0)
           (mkAuthUser "1" None "admin" None true false)
           (mkToken (Some "1") None false false) "/files" eq_refl eq_refl).
Defined.

Lemma change_password_cases (compare : string -> string -> bool)
    (hash : string -> nat -> string) (js_length : string -> nat)
    (session_user_id : option string) (body : option (option string * option string))
    (now : Z) (db : DbCalls) (users : list User) :
  ((change_password compare hash js_length session_user_id body now db users).2 = users
   /\ (change_password compare hash js_length session_user_id body now db users).1
      <> 200%nat)
  \/ exists id cur new u,
       session_user_id = Some id /\ id <> ""
       /\ body = Some (cur, new)
       /\ js_or cur "" <> "" /\ js_or new "" <> ""
       /\ (8 <= js_length (js_or new ""))%nat
       /\ find_by_id id users = Some u
       /\ compare (js_or cur "") (u_password u) = true
       /\ find_resolves db = true /\ update_resolves db = true
       /\ change_password compare hash js_length session_user_id body now db users
          = (if audit_resolves db then 200%nat else 500%nat,
             update_by_id (u_id u) (set_password (hash (js_or new "") 12%nat) now) users).
Proof.
  unfold change_password. destruct session_user_id as [id|]; [|by left].
  destruct (String.eqb id "") eqn:Eid; [by left|].
  destruct body as [[cur new]|]; [|by left]. cbv zeta.
  destruct (String.eqb (js_or cur "") "") eqn:E1; [by left|].
  destruct (String.eqb (js_or new "") "") eqn:E2; [by left|]. simpl.
  destruct (Nat.ltb_spec (js_length (js_or new "")) 8) as [Hlt|Hge]; [by left|].
  destruct (find_resolves db) eqn:Hf; [|by left]. simpl.
  destruct (find_by_id id users) as [u|] eqn:Hfind; [|by left].
  destruct (compare (js_or cur "") (u_password u)) eqn:Hcmp; [|by left]. simpl.
  destruct (update_resolves db) eqn:Hu; [|by left]. simpl.
  right. exists id, cur, new, u.
  apply String.eqb_neq in Eid, E1, E2. repeat split; try done.
  by destruct (audit_resolves db).
Qed.

Lemma find_fmap_same {A} (p : A -> bool) (g : A -> A) (l : list A) :
  (forall x, p (g x) = p x) -> List.find p (g <$> l) = g <$> List.find p l.
Proof.
  intros Hp. induction l as [|x l IH]; [done|]. simpl. rewrite Hp.
  by destruct (p x).
Qed.

Lemma find_unique_column {A} (col : A -> string) (l : list A) (name : string) (u w : A) :
  NoDup (col <$> l) -> u ∈ l -> col u = name ->
  List.find (fun v => String.eqb (col v) name) l = Some w -> w = u.
Proof.
  intros Hnd Hu Hname Hfind. apply find_some in Hfind as [Hw Hwn].
  apply String.eqb_eq in Hwn. apply list_elem_of_In in Hw.
  apply list_elem_of_lookup in Hu as [i Hi], Hw as [j Hj].
  assert (i = j) as ->; [|congruence].
  eapply NoDup_lookup; [exact Hnd | |]; rewrite list_lookup_fmap.
  - by rewrite Hi.
  - rewrite Hj. simpl. congruence.
Qed.

(** X24.  The change-password handler touches the user table only for a
    caller with a session who submits the current password of the row
    found for the session and a new password of at least eight
    characters; then the rows with that id get the hash of the new
    password, lose both flags and get the time of the change as
    [updatedAt], and no other column and no other row changes.  It
    answers 200 only after such an update: the row then found for the
    session carries the hash of the new password, no flag and the new
    [updatedAt].  Every answer with another status than 200 and 500
    leaves the table as it was. *)
Theorem password_change_needs_current_password (compare : string -> string -> bool)
    (hash : string -> nat -> string) (js_length : string -> nat)
    (session_user_id : option string) (body : option (option string * option string))
    (now : Z) (db : DbCalls) (users : list User) :
  let '(status, users') :=
    change_password compare hash js_length session_user_id body now db users in
  (exists hashed,
     Forall2 (fun u u' => u' = u \/ u' = set_password hashed now u) users users')
  /\ (status = 200%nat \/ users' <> users ->
      exists id cur new u,
        session_user_id = Some id /\ body = Some (Some cur, Some new)
        /\ find_by_id id users = Some u
        /\ compare cur (u_password u) = true
        /\ (8 <= js_length new)%nat
        /\ users' = update_by_id (u_id u) (set_password (hash new 12%nat) now) users
        /\ find_by_id id users' = Some (set_password (hash new 12%nat) now u)
        /\ (status = 200%nat \/ status = 500%nat))
  /\ (status <> 200%nat -> status <> 500%nat -> users' = users).
Proof.
  destruct (change_password_cases compare hash js_length session_user_id body now db users)
    as [[Hu Hs]
       | (id & cur & new & u & Hid & _ & Hb & Hc & Hn & Hlen & Hfind & Hcmp & _ & _ & E)].
  - destruct (change_password _ _ _ _ _ _ _ _) as [status users']. simpl in *.
    subst users'. refine (conj _ (conj _ _)).
    + exists "". apply Forall2_same_length_lookup. split; [done|].
      intros i x y Hx Hy. left. congruence.
    + intros [H|H]; done.
    + done.
  - rewrite E. refine (conj _ (conj _ _)).
    + eexists. unfold update_by_id.
      apply Forall2_fmap_r, Forall_Forall2_diag, Forall_forall.
      intros v _. simpl. destruct (String.eqb (u_id v) (u_id u)); [by right | by left].
    + intros _. destruct cur as [cur|]; [|done]. destruct new as [new|]; [|done].
      unfold js_or in *. destruct (String.eqb cur "") eqn:E1; [done|].
      destruct (String.eqb new "") eqn:E2; [done|].
      exists id, cur, new, u. repeat split; try done.
      * unfold find_by_id, update_by_id in *. rewrite find_fmap_same.
        2: { intros x. by destruct (String.eqb (u_id x) (u_id u)). }
        rewrite Hfind. simpl. by rewrite String.eqb_refl.
      * destruct (audit_resolves db); [by left | by right].
    + intros H1 H2. by destruct (audit_resolves db).
Qed.

(** X25.  Round trip through the two handlers.  Assume that [compare]
    accepts a password against its own hash and that user names are unique
    in the table.  After the handler has answered 200 to a password change
    of an active user, a sign-in with the user's name and the new password
    is accepted by the changed table and returns the user without the two
    flags, so that the guard lets the resulting token through on every
    path outside /auth/. *)
Theorem sign_in_after_password_change (compare : string -> string -> bool)
    (hash : string -> nat -> string) (js_length : string -> nat)
    (id : string) (cur new : option string) (db db' : DbCalls)
    (users users' : list User) (u : User) (changed now : Z) :
  (forall p, compare p (hash p 12%nat) = true) ->
  NoDup (u_username <$> users) ->
  change_password compare hash js_length (Some id) (Some (cur, new)) changed db users
  = (200%nat, users') ->
  find_by_id id users = Some u ->
  u_isActive u = true -> u_username u <> "" ->
  find_resolves db' = true -> update_resolves db' = true ->
  exists a users'',
    authorize compare (Some (mkCredentials (Some (u_username u)) new)) now db' users'
    = (Some a, users'')
    /\ a_id a = u_id u /\ a_username a = u_username u
    /\ a_isFirstLogin a = false /\ a_mustChangePassword a = false
    /\ forall token0 pathname,
         String.prefix "/auth/" pathname = false ->
         middleware pathname (Some (jwt token0 (Some a))) = GuardNext.
Proof.
  intros Hbcrypt Hnd Hchange Hfind Hact Hname Hf Hu.
  destruct (change_password_cases compare hash js_length (Some id) (Some (cur, new))
              changed db users)
    as [[_ Hs]
       | (id' & cur' & new' & u' & Hid & _ & Hb & _ & Hn & _ & Hfind' & _ & _ & _ & E)].
  { rewrite Hchange in Hs. done. }
  injection Hid as <-. injection Hb as <- <-. rewrite Hfind in Hfind'.
  injection Hfind' as <-. rewrite E in Hchange. injection Hchange as _ <-.
  set (hashed := hash (js_or new "") 12%nat).
  assert (Hin : u ∈ users).
  { apply find_some in Hfind as [Hin _]. by apply list_elem_of_In. }
  assert (Hidu : String.eqb (u_id u) (u_id u) = true) by apply String.eqb_refl.
  assert (Hfound : find_by_username (u_username u)
                     (update_by_id (u_id u) (set_password hashed changed) users)
                   = Some (set_password hashed changed u)).
  { unfold find_by_username, update_by_id. rewrite find_fmap_same.
    2: { intros x. by destruct (String.eqb (u_id x) (u_id u)). }
    destruct (List.find _ users) as [w|] eqn:Hw.
    - apply (find_unique_column u_username users (u_username u) u w) in Hw; try done.
      subst w. simpl. by rewrite Hidu.
    - apply list_elem_of_In in Hin. pose proof (find_none _ _ Hw u Hin) as Hx.
      simpl in Hx. by rewrite String.eqb_refl in Hx. }
  unfold authorize. cbv zeta.
  replace (js_or (c_username (mkCredentials (Some (u_username u)) new)) "")
    with (u_username u) by (cbn [c_username]; by rewrite js_or_nonempty).
  replace (c_password (mkCredentials (Some (u_username u)) new)) with new by done.
  apply String.eqb_neq in Hname, Hn. rewrite Hname, Hn, Hf, Hfound. simpl.
  rewrite Hact. simpl. fold hashed. unfold hashed at 1. rewrite Hbcrypt, Hu. simpl.
  eexists _, _. split; [reflexivity|]. simpl. repeat split; try done.
  intros token0 pathname Hp. unfold middleware, jwt. simpl. by rewrite Hp.
Qed.

Lemma sign_in_after_password_change_witness :
  exists a users'',
    authorize String.eqb (Some (mkCredentials (Some "admin") (Some "correct horse"))) 9
      (mkDbCalls true true true)
      [mkUser "1" None "admin" None "correct horse" true false false None 7]
    = (Some a, users'')
    /\ a_id a = "1" /\ a_username a = "admin"
    /\ a_isFirstLogin a = false /\ a_mustChangePassword a = false
    /\ forall token0 pathname,
         String.prefix "/auth/" pathname = false ->
         middleware pathname (Some (jwt token0 (Some a))) = GuardNext.
Proof.
  apply (sign_in_after_password_change String.eqb (fun p _ => p) String.length
           "1" (Some "changeme") (Some "correct horse")
           (mkDbCalls true true true) (mkDbCalls true true true)
           [mkUser "1" None "admin" None "changeme" true true true None 0]
           [mkUser "1" None "admin" None "correct horse" true false false None 7]
           (mkUser "1" None "admin" None "changeme" true true true None 0) 7 9).
  - intros p. apply String.eqb_refl.
  - repeat constructor. intros H. by apply elem_of_nil in H.
  - reflexivity.
  - reflexivity.
  - reflexivity.
  - discriminate.
  - reflexivity.
  - reflexivity.
Defined.

Lemma append_assoc (a b c : string) : (a +:+ b) +:+ c = a +:+ b +:+ c.
Proof.
  induction a as [|x a IH]; [done|].
  change (String x ((a +:+ b) +:+ c) = String x (a +:+ b +:+ c)). by rewrite IH.
Qed.

Lemma append_nil_r (a : string) : a +:+ "" = a.
Proof.
  induction a as [|x a IH]; [done|].
  change (String x (a +:+ "") = String x a). by rewrite IH.
Qed.

Lemma split_on_cons sep s : exists seg segs, split_on sep s = seg :: segs.
Proof.
  destruct s as [|c rest]; simpl; [by eexists _, _|].
  destruct (Ascii.eqb c sep); [by eexists _, _|].
  destruct (split_on sep rest); by eexists _, _.
Qed.

Lemma split_on_app sep a b :
  split_on sep (a +:+ String sep b) = split_on sep a ++ split_on sep b.
Proof.
  induction a as [|c a IH].
  - simpl. by rewrite Ascii.eqb_refl.
  - change (String c a +:+ String sep b) with (String c (a +:+ String sep b)).
    simpl. rewrite IH. destruct (Ascii.eqb c sep); [done|].
    destruct (split_on_cons sep a) as (seg & segs & ->). done.
Qed.

Lemma split_on_whole sep s :
  includes (String sep "") s = false -> split_on sep s = [s].
Proof.
  induction s as [|c s IH]; [done|]. simpl.
  destruct (ascii_dec sep c) as [->|Hne].
  - destruct s; discriminate.
  - intros H. simpl in H. rewrite IH by done.
    destruct (Ascii.eqb_spec c sep); [congruence | done].
Qed.

Lemma split_on_segments sep s :
  Forall (fun seg => includes (String sep "") seg = false) (split_on sep s).
Proof.
  induction s as [|c s IH]; simpl; [by repeat constructor|].
  destruct (Ascii.eqb_spec c sep) as [->|Hne]; [by constructor|].
  destruct (split_on sep s) as [|seg segs]; simpl.
  - repeat constructor. simpl. by destruct (ascii_dec sep c).
  - apply Forall_cons in IH as [H1 H2]. constructor; [|done].
    simpl. rewrite H1. destruct (ascii_dec sep c); [congruence|].
    by destruct seg.
Qed.

Lemma concat_cons2 sep x y l :
  String.concat sep (x :: y :: l) = x +:+ sep +:+ String.concat sep (y :: l).
Proof. reflexivity. Qed.

Lemma join_split sep s : join sep (split_on sep s) = s.
Proof.
  unfold join. induction s as [|c s IH]; [done|].
  cbn [split_on].
  destruct (split_on_cons sep s) as (seg & segs & E). rewrite E in *.
  destruct (Ascii.eqb_spec c sep) as [->|Hne].
  - rewrite concat_cons2, IH. done.
  - destruct segs as [|seg' segs].
    + simpl in *. by rewrite IH.
    + rewrite concat_cons2 in *. rewrite <- IH. done.
Qed.

Lemma join_snoc sep l x :
  l <> [] -> join sep (l ++ [x]) = join sep l +:+ String sep x.
Proof.
  unfold join. induction l as [|y l IH]; [done|]. intros _.
  destruct l as [|z l]; [done|].
  change ((y :: z :: l) ++ [x]) with (y :: z :: (l ++ [x])).
  rewrite !concat_cons2.
  change (z :: l ++ [x]) with ((z :: l) ++ [x]). rewrite IH by done.
  by rewrite !append_assoc.
Qed.


Lemma last_split_on (sep : ascii) (s : string) :
  exists dir seg,
    last (split_on sep s) = Some seg
    /\ s = dir +:+ seg
    /\ (dir = "" \/ exists d, dir = d +:+ String sep "")
    /\ includes (String sep "") seg = false.
Proof.
  destruct (split_on_cons sep s) as (seg0 & segs0 & E).
  assert (Hl : is_Some (last (split_on sep s))) by (rewrite E; by apply last_is_Some).
  destruct Hl as [seg Hseg]. pose proof Hseg as Hl.
  apply last_Some in Hl as [l Hl].
  pose proof (join_split sep s) as Hj. rewrite Hl in Hj.
  pose proof (split_on_segments sep s) as Hf. rewrite Hl in Hf.
  apply Forall_app in Hf as [_ Hf]. apply Forall_inv in Hf. simpl in Hf.
  destruct l as [|x l].
  - exists "", seg. simpl in Hj. split; [done|]. split; [by rewrite <- Hj|].
    split; [by left | exact Hf].
  - rewrite join_snoc in Hj by done.
    exists (join sep (x :: l) +:+ String sep ""), seg. split; [done|]. split.
    + rewrite append_assoc. by rewrite <- Hj.
    + split; [right; by eexists | exact Hf].
Qed.

Lemma strip_leading_slashes_spec (path : string) :
  String.prefix "/" (strip_leading_slashes path) = false
  /\ strip_leading_slashes (strip_leading_slashes path) = strip_leading_slashes path
  /\ exists slashes,
       path = slashes +:+ strip_leading_slashes path
       /\ Forall (fun c => c = "/"%char) (list_ascii_of_string slashes).
Proof.
  induction path as [|c path (IH1 & IH2 & slashes & IH3 & IH4)].
  - split; [done|]. split; [done|]. by exists "".
  - simpl. destruct (Ascii.eqb_spec c "/") as [->|Hne].
    + split; [done|]. split; [done|]. exists (String "/" slashes). split.
      * change (String "/" path = String "/" (slashes +:+ strip_leading_slashes path)).
        by rewrite <- IH3.
      * simpl. by constructor.
    + split; [|split].
      * apply not_true_is_false. intros H. apply prefix_correct in H.
        simpl in H. destruct path; simpl in H; congruence.
      * simpl. by destruct (Ascii.eqb_spec c "/").
      * by exists "".
Qed.

(** X26.  What the download handler makes of the requested path.  The path
    it sends to the daemon is the requested path without its leading
    slashes: it does not start with a slash, and cleaning it again changes
    nothing.  The file name it announces is never empty and contains no
    slash: it is what follows the last slash of the requested path (the
    whole path when there is none), or 'download' when nothing follows the
    last slash or the path is empty. *)
Theorem download_path_and_filename (path : string) :
  (String.prefix "/" (strip_leading_slashes path) = false
   /\ strip_leading_slashes (strip_leading_slashes path) = strip_leading_slashes path
   /\ exists slashes,
        path = slashes +:+ strip_leading_slashes path
        /\ Forall (fun c => c = "/"%char) (list_ascii_of_string slashes))
  /\ filename_of path <> ""
  /\ includes "/" (filename_of path) = false
  /\ exists dir seg,
       path = dir +:+ seg
       /\ (dir = "" \/ exists d, dir = d +:+ "/")
       /\ includes "/" seg = false
       /\ filename_of path = if String.eqb seg "" then "download" else seg.
Proof.
  split; [apply strip_leading_slashes_spec|].
  unfold filename_of.
  destruct (last_split_on "/" path) as (dir & seg & Hl & Hp & Hd & Hs).
  rewrite Hl. unfold js_or. destruct (String.eqb_spec seg "") as [->|Hne].
  - split; [done|]. split; [done|]. exists dir, "". by rewrite String.eqb_refl.
  - split; [done|]. split; [done|]. exists dir, seg.
    apply String.eqb_neq in Hne. by rewrite Hne.
Qed.

(** X27.  Round trip between the file list and the download handler: for a
    file whose name is not empty and contains no slash, shown in any
    directory, the name the handler derives from the path the browser
    sends is the name of the file. *)
Theorem download_names_the_clicked_file (currentPath name : string) :
  name <> "" -> includes "/" name = false ->
  filename_of (download_path currentPath name) = name.
Proof.
  intros Hne Hs. unfold filename_of, download_path.
  assert (Hl : forall dir, last (split_on "/" (dir +:+ "/" +:+ name)) = Some name).
  { intros dir. change ("/" +:+ name) with (String "/" name).
    rewrite split_on_app, (split_on_whole "/" name Hs). apply last_snoc. }
  destruct (String.eqb currentPath "").
  - rewrite (split_on_whole "/" name Hs). simpl. by apply js_or_nonempty.
  - rewrite Hl. by apply js_or_nonempty.
Qed.

Lemma download_names_the_clicked_file_witness :
  filename_of (download_path "photos/2024//" "a b.jpg") = "a b.jpg".
Proof.
  apply download_names_the_clicked_file; [discriminate | reflexivity].
Defined.

(** X28.  The download handler answers 401 to a caller without a session and
    400 to a request without [remote] or [path], in both cases without
    asking the daemon.  Otherwise it fetches exactly one address, made of
    the remote and the cleaned path, and answers 200 exactly when the
    daemon's answer is a success with a body, 404 exactly when the daemon
    answered 404, and 500 for every other failure. *)
Theorem download_status_codes (url : string) (encodeURI encodeURIComponent : string -> string)
    (session : bool) (remote path : option string)
    (daemon : string -> Thrown + DownloadAnswer) :
  let r := download_GET url encodeURI encodeURIComponent session remote path daemon in
  (session = false -> r = (DownloadUnauthorized, None))
  /\ (session = true -> js_or remote "" = "" \/ js_or path "" = "" ->
        r = (DownloadBadRequest, None))
  /\ (session = true -> js_or remote "" <> "" -> js_or path "" <> "" ->
        let asked := downloadUrl url encodeURI (js_or remote "") (js_or path "") in
        r.2 = Some asked
        /\ match daemon asked with
           | inl e => r.1 = DownloadFailed (error_message e)
           | inr a =>
               (download_status r.1 = 200%nat
                <-> response_ok (da_status a) = true /\ da_body a = true)
               /\ (download_status r.1 = 404%nat <-> da_status a = 404%nat)
               /\ (download_status r.1 = 200%nat \/ download_status r.1 = 404%nat
                   \/ download_status r.1 = 500%nat)
           end).
Proof.
  cbv zeta. unfold download_GET. refine (conj _ (conj _ _)).
  - intros ->. reflexivity.
  - intros -> H. simpl. destruct remote as [remote|], path as [path|]; try done.
    unfold js_or in H.
    destruct (String.eqb_spec remote ""), (String.eqb_spec path ""); try done.
    by destruct H.
  - intros -> Hr Hp. simpl. destruct remote as [remote|]; [|done].
    destruct path as [path|]; [|done]. unfold js_or in *.
    destruct (String.eqb remote "") eqn:Er; [done|].
    destruct (String.eqb path "") eqn:Ep; [done|]. simpl. split; [done|].
    destruct (daemon _) as [e|a]; [done|].
    destruct (response_ok (da_status a)) eqn:Hok, (da_body a); simpl.
    + repeat split; try done; try (by left).
      intros E. rewrite E in Hok. discriminate.
    + destruct (Nat.eqb_spec (da_status a) 404) as [E|E]; simpl.
      * rewrite E in Hok. discriminate.
      * repeat split; try done; try tauto; intros [? ?]; done.
    + destruct (Nat.eqb_spec (da_status a) 404) as [E|E]; simpl.
      * repeat split; try done; try tauto; intros [? ?]; done.
      * repeat split; try done; try tauto; intros [? ?]; done.
    + destruct (Nat.eqb_spec (da_status a) 404) as [E|E]; simpl.
      * repeat split; try done; try tauto; intros [? ?]; done.
      * repeat split; try done; try tauto; intros [? ?]; done.
Qed.


(** ** The breadcrumb trail *)

Lemma split_join sep (parts : list string) :
  parts <> [] -> Forall (fun p => includes (String sep "") p = false) parts ->
  split_on sep (join sep parts) = parts.
Proof.
  unfold join. induction parts as [|x parts IH]; [done|]. intros _ Hf.
  apply Forall_cons in Hf as [Hx Hf]. destruct parts as [|y parts].
  - simpl. by apply split_on_whole.
  - rewrite concat_cons2.
    change (String sep "" +:+ String.concat (String sep "") (y :: parts))
      with (String sep (String.concat (String sep "") (y :: parts))).
    rewrite split_on_app, IH by done. by rewrite split_on_whole.
Qed.

Lemma pathParts_parts currentPath :
  Forall (fun p => p <> "" /\ includes "/" p = false) (pathParts currentPath).
Proof.
  unfold pathParts. apply Forall_forall. intros p Hp.
  apply list_elem_of_In, filter_In in Hp as [Hin Hne].
  split.
  - apply negb_true_iff in Hne. by apply String.eqb_neq.
  - pose proof (split_on_segments "/" currentPath) as Hf.
    rewrite Forall_forall in Hf. apply Hf. by apply list_elem_of_In.
Qed.

Lemma filter_nonempty (parts : list string) :
  Forall (fun p => p <> "") parts ->
  List.filter (fun part => negb (String.eqb part "")) parts = parts.
Proof.
  induction parts as [|x parts IH]; [done|]. intros Hf.
  apply Forall_cons in Hf as [Hx Hf]. simpl.
  apply String.eqb_neq in Hx. rewrite Hx. simpl. by rewrite IH.
Qed.

Lemma join_nonempty sep x (parts : list string) : x <> "" -> join sep (x :: parts) <> "".
Proof.
  intros Hx. unfold join. destruct parts as [|y parts]; [done|].
  rewrite concat_cons2. destruct x; [done | discriminate].
Qed.

Lemma pathParts_join (parts : list string) :
  parts <> [] -> Forall (fun p => p <> "" /\ includes "/" p = false) parts ->
  pathParts (join "/" parts) = parts.
Proof.
  intros Hne Hf. unfold pathParts. rewrite split_join; [|done|].
  - apply filter_nonempty. eapply Forall_impl; [exact Hf|]. by intros p [? _].
  - eapply Forall_impl; [exact Hf|]. by intros p [_ ?].
Qed.

Lemma take_imap {A B} (f : nat -> A -> B) (l : list A) : forall n,
  take n (imap f l) = imap f (take n l).
Proof.
  revert f. induction l as [|x l IH]; intros f [|n]; simpl; try done.
  by rewrite IH.
Qed.

Lemma pathParts_open currentPath name :
  name <> "" -> includes "/" name = false ->
  pathParts (open_directory currentPath name) = pathParts currentPath ++ [name].
Proof.
  intros Hne Hs. unfold open_directory, pathParts.
  apply String.eqb_neq in Hne.
  destruct (String.eqb_spec currentPath "") as [->|Hc].
  - rewrite (split_on_whole "/" name Hs). simpl. by rewrite Hne.
  - change ("/" +:+ name) with (String "/" name).
    rewrite split_on_app, List.filter_app, (split_on_whole "/" name Hs). simpl.
    by rewrite Hne.
Qed.

(** X29.  With a remote selected and a path that is not empty, the trail
    is the remote followed by one item for every non-empty segment of the
    path, named by the segment.  Navigating to the path of an item and
    generating the trail again gives the trail cut after that item.  With
    no remote or an empty path there is no trail at all. *)
Theorem breadcrumbs_follow_the_path (remote currentPath : string) :
  remote <> "" -> currentPath <> "" ->
  let trail := generateBreadcrumbs (Some remote) currentPath in
  head trail = Some (mkBreadcrumbItem remote "")
  /\ bc_name <$> tail trail = pathParts currentPath
  /\ (forall k item, trail !! S k = Some item ->
        generateBreadcrumbs (Some remote) (bc_path item) = take (S (S k)) trail)
  /\ generateBreadcrumbs (Some remote) "" = []
  /\ generateBreadcrumbs None currentPath = [].
Proof.
  intros Hr Hc. cbv zeta. unfold generateBreadcrumbs.
  apply String.eqb_neq in Hr. rewrite Hr. pose proof Hc as Hc'.
  apply String.eqb_neq in Hc'. rewrite Hc'. simpl.
  set (parts := pathParts currentPath).
  pose proof (pathParts_parts currentPath) as Hparts. fold parts in Hparts.
  refine (conj eq_refl (conj _ (conj _ (conj eq_refl eq_refl)))).
  - rewrite fmap_imap. rewrite <- (list_fmap_id parts) at 2.
    rewrite <- imap_const. by apply imap_ext.
  - intros k item Hk. apply list_lookup_imap_Some in Hk as (part & Hk & ->). simpl.
    assert (Htake : take (S k) parts <> []).
    { destruct parts; [done | discriminate]. }
    assert (Hf : Forall (fun p => p <> "" /\ includes "/" p = false) (take (S k) parts)).
    { by apply Forall_take. }
    assert (Hne : String.eqb (join "/" (take (S k) parts)) "" = false).
    { apply String.eqb_neq. destruct parts as [|x parts']; [done|]. simpl.
      apply join_nonempty. apply Forall_cons in Hparts as [[Hx _] _]. done. }
    rewrite Hne. rewrite pathParts_join by done. f_equal.
    rewrite take_imap. apply imap_ext. intros i x Hi. f_equal.
    rewrite take_take. apply lookup_lt_Some in Hi. rewrite length_take in Hi.
    by replace (S i `min` S k)%nat with (S i) by lia.
Qed.

Lemma breadcrumbs_follow_the_path_witness :
  let trail := generateBreadcrumbs (Some "gdrive") "/photos//2024/" in
  head trail = Some (mkBreadcrumbItem "gdrive" "")
  /\ bc_name <$> tail trail = pathParts "/photos//2024/"
  /\ (forall k item, trail !! S k = Some item ->
        generateBreadcrumbs (Some "gdrive") (bc_path item) = take (S (S k)) trail)
  /\ generateBreadcrumbs (Some "gdrive") "" = []
  /\ generateBreadcrumbs None "/photos//2024/" = [].
Proof.
  apply (breadcrumbs_follow_the_path "gdrive" "/photos//2024/"); discriminate.
Defined.

(** X30.  Opening a directory whose name is not empty and has no slash adds
    exactly one item to the trail, named by the directory; its path is the
    segments of the old path and the name, joined by single slashes.  From
    the root, where there is no trail, the trail becomes the remote and
    the directory. *)
Theorem opening_a_directory_extends_the_trail (remote currentPath name : string) :
  remote <> "" -> name <> "" -> includes "/" name = false ->
  generateBreadcrumbs (Some remote) (open_directory currentPath name)
  = (if String.eqb currentPath "" then [mkBreadcrumbItem remote ""]
     else generateBreadcrumbs (Some remote) currentPath)
    ++ [mkBreadcrumbItem name (join "/" (pathParts currentPath ++ [name]))].
Proof.
  intros Hr Hn Hs. unfold generateBreadcrumbs.
  apply String.eqb_neq in Hr. rewrite Hr.
  assert (Hopen : String.eqb (open_directory currentPath name) "" = false).
  { apply String.eqb_neq. unfold open_directory.
    destruct (String.eqb currentPath ""); [done|].
    destruct currentPath; [|discriminate]. simpl. discriminate. }
  rewrite Hopen. simpl. rewrite pathParts_open by done.
  set (parts := pathParts currentPath).
  rewrite imap_app. simpl. rewrite Nat.add_0_r.
  replace (take (S (length parts)) (parts ++ [name])) with (parts ++ [name])
    by (rewrite take_ge; [done | rewrite length_app; simpl; lia]).
  assert (Himap : imap (fun index part =>
                          mkBreadcrumbItem part (join "/" (take (S index) (parts ++ [name]))))
                    parts
                  = imap (fun index part =>
                            mkBreadcrumbItem part (join "/" (take (S index) parts))) parts).
  { apply imap_ext. intros i x Hi. f_equal. f_equal.
    apply take_app_le. apply lookup_lt_Some in Hi. lia. }
  rewrite Himap. destruct (String.eqb_spec currentPath "") as [->|Hc]; [done|].
  done.
Qed.

Lemma opening_a_directory_extends_the_trail_witness :
  generateBreadcrumbs (Some "gdrive") (open_directory "photos/2024" "trip")
  = generateBreadcrumbs (Some "gdrive") "photos/2024"
    ++ [mkBreadcrumbItem "trip" (join "/" (pathParts "photos/2024" ++ ["trip"]))].
Proof.
  apply (opening_a_directory_extends_the_trail "gdrive" "photos/2024" "trip");
    [discriminate | discriminate | reflexivity].
Defined.
